(** * Glint AI layer: provider registry, dispatch, result merging, context history

    A shallow embedding of the orchestration core of the repository:
    - [AiProviderManager], [AiResultMerger] and [AiCoreService] of the AI core
      service (both the first version of the service, module [Legacy], and the
      refactored one built on the utility classes);
    - [AiContextManager] of the assistant service.

    JavaScript values that the code only passes around are kept abstract or
    reduced to what the code observes of them. *)

From Stdlib Require Import QArith Ascii.
From stdpp Require Import gmap strings pretty list fin_maps sorting.

Local Close Scope Q_scope.

(** ** JavaScript runtime pieces used by the services *)

Module Js.

(** A value of type [any]; an object is a reference into the heap. *)
Inductive Value :=
| Undefined
| Null
| Bool (b : bool)
| Number (z : Z)
| Str (s : string)
| Object (ref : nat).

(** An [Error]; only its message is observed. *)
Record Error := mkError { message : string }.

(** The prototype of an object: [Object.prototype], which an object literal
    has, [null], or an object of the heap. *)
Inductive Prototype :=
| ObjectPrototype
| NullPrototype
| HeapPrototype (ref : nat).

(** An object that the code creates and writes to: the properties of its
    own and its prototype. An object that is only read is held by its own
    enumerable properties, a [gmap]. *)
Record Target := mkTarget {
  own : gmap string Value;
  prototype : Prototype
}.

(** [{}] *)
Definition empty_object : Target := mkTarget ∅ ObjectPrototype.

(** [Object.assign(target, source)]: every own enumerable property of
    [source] is written to [target] by assignment. A key other than
    [__proto__] becomes, or replaces, a property of [target]'s own. The key
    [__proto__] replaces a property of that name when [target] has one of
    its own; on a target that inherits from [Object.prototype] it reaches
    the accessor there, which sets the prototype of [target] when the value
    is an object or [null] and does nothing for any other value; on a target
    whose prototype is [null] it becomes a property of its own. An object of
    the heap that has become the prototype is taken to be an ordinary one:
    its chain ends in [Object.prototype] and holds no accessor, no read-only
    property and no property named [__proto__]. *)
Definition object_assign (target : Target) (source : gmap string Value) : Target :=
  let written := delete "__proto__" source ∪ own target in
  match source !! "__proto__" with
  | None => mkTarget written (prototype target)
  | Some value =>
      if decide (is_Some (own target !! "__proto__"))
      then mkTarget (<["__proto__" := value]> written) (prototype target)
      else
        match prototype target with
        | NullPrototype => mkTarget (<["__proto__" := value]> written) NullPrototype
        | ObjectPrototype | HeapPrototype _ =>
            match value with
            | Null => mkTarget written NullPrototype
            | Object ref => mkTarget written (HeapPrototype ref)
            | Undefined | Bool _ | Number _ | Str _ => mkTarget written (prototype target)
            end
        end
  end.

(** [{ ...a }]: a fresh object on which every own enumerable property of
    [a] is defined as a property of its own; no setter runs, whatever the
    key. *)
Definition spread1 (a : gmap string Value) : gmap string Value := a ∪ ∅.

(** [{ ...a, ...b }]: a fresh object with the properties of [a] overlaid by
    those of [b]. *)
Definition spread2 (a b : gmap string Value) : gmap string Value :=
  b ∪ spread1 a.

(** A [Set<T>] iterates in insertion order; [add] of a member changes nothing. *)
Section OrderedSet.
Context {A : Type} `{EqDecision A}.

Definition set_add (s : list A) (x : A) : list A :=
  if decide (x ∈ s) then s else s ++ [x].

(** [new Set(items)] followed by a spread into an array. *)
Definition set_of (items : list A) : list A := foldl set_add [] items.
End OrderedSet.

(** [Array.prototype.sort(cmp)] is a stable sort (ECMAScript 2019): [x],
    which stood before [y], is placed after [y] only when [cmp x y > 0]; the
    lemma [sorted_stable_unique] below shows that every stable sort returns
    the same list for the comparator used here. Numbers returned by the comparator are
    rationals here: on finite doubles the sign of the rounded difference of
    two scores is the sign of their exact difference. *)
Section Sort.
Context {A : Type} (cmp : A → A → Q).

Fixpoint sort_insert (x : A) (l : list A) : list A :=
  match l with
  | [] => [x]
  | y :: l' => if Qle_bool (cmp x y) 0 then x :: y :: l' else y :: sort_insert x l'
  end.

Definition sort (l : list A) : list A := foldr sort_insert [] l.
End Sort.

(** A promise that settles: when, and how. *)
Inductive Outcome (T : Type) :=
| Fulfilled (v : T)
| Rejected (e : Error).
Arguments Fulfilled {T} v.
Arguments Rejected {T} e.

Record Settled (T : Type) := mkSettled { settle_time : nat; outcome : Outcome T }.
Arguments mkSettled {T} _ _.
Arguments settle_time {T} _.
Arguments outcome {T} _.

Definition fulfilled_value {T} (p : Settled T) : option T :=
  match outcome p with Fulfilled v => Some v | Rejected _ => None end.

(** The earliest rejection among the promises (the earlier position wins
    when two settle at the same time). *)
Fixpoint first_rejection {T} (ps : list (Settled T)) : option (nat * Error) :=
  match ps with
  | [] => None
  | p :: ps' =>
      match outcome p, first_rejection ps' with
      | Fulfilled _, r => r
      | Rejected e, None => Some (settle_time p, e)
      | Rejected e, Some (t', e') =>
          if (settle_time p <=? t')%nat then Some (settle_time p, e) else Some (t', e')
      end
  end.

(** [Promise.all(ps)]: fulfils with all values in the order of [ps] when
    every promise fulfils, rejects with the reason of the first promise
    that rejects otherwise. *)
Definition promise_all {T} (ps : list (Settled T)) : Outcome (list T) :=
  match first_rejection ps with
  | Some (_, e) => Rejected e
  | None => Fulfilled (omap fulfilled_value ps)
  end.

End Js.

(** ** Data model of the AI core service *)

(** Modelled from the spec: the declaration of [IRange] lives in the editor
    core ([editor/common/core/range.js]) and is not among the sources. The
    merger reads [range.startLineNumber] and [range.startColumn], the start of
    the target range; line and column numbers are positions in a text, whole
    and not negative. *)
Record IRange := mkRange {
  startLineNumber : N;
  startColumn : N;
  endLineNumber : N;
  endColumn : N
}.

Inductive AiCompletionKind :=
| CK_Function | CK_Variable | CK_Class | CK_Interface | CK_Import | CK_Method
| CK_Property | CK_Parameter | CK_Type | CK_Keyword | CK_Snippet.

Inductive AiEditKind := EK_Insert | EK_Replace | EK_Delete | EK_Refactor.

Abbreviation Metadata := (gmap string Js.Value).
Abbreviation AiContext := (gmap string Js.Value).

Record AiCompletion := mkCompletion {
  c_text : string;
  c_range : IRange;
  c_kind : AiCompletionKind;
  c_score : Q;
  c_metadata : option Metadata
}.

Record AiCompletionResult := mkCompletionResult {
  cr_completions : list AiCompletion;
  cr_metadata : option Metadata
}.

Record AiCodeBlock := mkCodeBlock {
  cb_code : string;
  cb_language : string;
  cb_range : option IRange;
  cb_explanation : option string
}.

Record AiChatResponse := mkChatResponse {
  chat_message : string;
  chat_codeBlocks : list AiCodeBlock;
  chat_suggestions : list string;
  chat_metadata : option Metadata
}.

Record AiCodeEdit := mkCodeEdit {
  e_range : IRange;
  e_text : string;
  e_kind : AiEditKind
}.

Record AiCodeEditResult := mkCodeEditResult {
  er_edits : list AiCodeEdit;
  er_explanation : option string;
  er_metadata : option Metadata
}.

Record AiCodeEditRequest := mkCodeEditRequest {
  req_uri : string;
  req_range : IRange;
  req_instruction : string;
  req_context : AiContext
}.

(** ** AiResultMerger *)

Module AiResultMerger.

(** The template string [`${text}-${startLineNumber}-${startColumn}`]; a
    whole number is printed in decimal. *)
Definition completion_key (completion : AiCompletion) : string :=
  c_text completion +:+ "-" +:+ pretty (startLineNumber (c_range completion))
    +:+ "-" +:+ pretty (startColumn (c_range completion)).

(** The [filter] callback of [deduplicateCompletions], with the [seen] set
    it closes over passed along. *)
Fixpoint dedup_filter (seen : gset string) (completions : list AiCompletion)
  : list AiCompletion :=
  match completions with
  | [] => []
  | completion :: rest =>
      let key := completion_key completion in
      if decide (key ∈ seen) then dedup_filter seen rest
      else completion :: dedup_filter ({[key]} ∪ seen) rest
  end.

Definition deduplicateCompletions (completions : list AiCompletion) : list AiCompletion :=
  dedup_filter ∅ completions.

(** [if (result.metadata) Object.assign(metadata, result.metadata)] *)
Definition assign_metadata (metadata : Js.Target) (m : option Metadata) : Js.Target :=
  match m with
  | Some source => Js.object_assign metadata source
  | None => metadata
  end.

Definition by_score (a b : AiCompletion) : Q := (c_score b - c_score a)%Q.

Definition mergeCompletionResults (results : list AiCompletionResult)
  : AiCompletionResult :=
  let '(allCompletions, metadata) :=
    foldl (λ '(allCompletions, metadata) result,
             (allCompletions ++ cr_completions result,
              assign_metadata metadata (cr_metadata result)))
          ([], Js.empty_object) results in
  let uniqueCompletions := deduplicateCompletions allCompletions in
  {| cr_completions := Js.sort by_score uniqueCompletions;
     cr_metadata := Some (Js.own metadata) |}.

(** [results[0]?.message || ''] *)
Definition first_message (results : list AiChatResponse) : string :=
  match results with
  | [] => ""
  | r :: _ => chat_message r
  end.

Definition mergeChatResults (results : list AiChatResponse) : AiChatResponse :=
  let '(allCodeBlocks, allSuggestions, metadata) :=
    foldl (λ '(allCodeBlocks, allSuggestions, metadata) result,
             (allCodeBlocks ++ chat_codeBlocks result,
              allSuggestions ++ chat_suggestions result,
              assign_metadata metadata (chat_metadata result)))
          ([], [], Js.empty_object) results in
  {| chat_message := first_message results;
     chat_codeBlocks := allCodeBlocks;
     chat_suggestions := Js.set_of allSuggestions;
     chat_metadata := Some (Js.own metadata) |}.

(** [results[0]?.explanation || ''] *)
Definition first_explanation (results : list AiCodeEditResult) : string :=
  match results with
  | [] => ""
  | r :: _ => default "" (er_explanation r)
  end.

Definition mergeCodeEditResults (results : list AiCodeEditResult) : AiCodeEditResult :=
  let '(allEdits, metadata) :=
    foldl (λ '(allEdits, metadata) result,
             (allEdits ++ er_edits result,
              assign_metadata metadata (er_metadata result)))
          ([], Js.empty_object) results in
  {| er_edits := allEdits;
     er_explanation := Some (first_explanation results);
     er_metadata := Some (Js.own metadata) |}.

End AiResultMerger.

Import AiResultMerger.

(** ** Providers and the provider registry *)

(** A provider object: [p_ref] is its identity as an object ([indexOf]
    compares objects with [===]), [p_id] and [p_name] are its [id] and [name]
    properties. *)
Record Provider := mkProvider {
  p_ref : nat;
  p_id : string;
  p_name : string
}.

#[global] Instance Provider_eq_dec : EqDecision Provider.
Proof. solve_decision. Defined.

(** The four collections held by [AiProviderManager]; the first version of
    [AiCoreService] holds the same four as [_providers], [_completionProviders],
    [_chatProviders] and [_codeEditProviders]. *)
Record Registry := mkRegistry {
  providers : gmap string Provider;
  completionProviders : list Provider;
  chatProviders : list Provider;
  codeEditProviders : list Provider
}.

Definition empty_registry : Registry := mkRegistry ∅ [] [] [].

(** The object returned by a registration: its [dispose] closure, with the
    provider it captured. *)
Inductive IDisposable :=
| UnregisterAiProvider (provider : Provider)
| UnregisterCodeCompletionProvider (provider : Provider)
| UnregisterChatProvider (provider : Provider)
| UnregisterCodeEditProvider (provider : Provider).

Module JsArray.

(** [array.indexOf(x)], [-1] when [x] is not an element. *)
Fixpoint indexOf {A} `{EqDecision A} (l : list A) (x : A) : Z :=
  match l with
  | [] => -1
  | y :: l' =>
      if decide (y = x) then 0
      else let i := indexOf l' x in if (0 <=? i)%Z then (i + 1)%Z else -1
  end.

(** [array.splice(index, 1)] for [index >= 0]. *)
Definition splice1 {A} (index : Z) (l : list A) : list A :=
  delete (Z.to_nat index) l.

(** [const index = array.indexOf(x); if (index >= 0) array.splice(index, 1)] *)
Definition remove_first {A} `{EqDecision A} (l : list A) (x : A) : list A :=
  let index := indexOf l x in
  if (0 <=? index)%Z then splice1 index l else l.

End JsArray.

Module AiProviderManager.

Definition registerAiProvider (provider : Provider) (r : Registry)
  : Registry * IDisposable :=
  (mkRegistry (<[p_id provider := provider]> (providers r))
              (completionProviders r) (chatProviders r) (codeEditProviders r),
   UnregisterAiProvider provider).

Definition registerCodeCompletionProvider (provider : Provider) (r : Registry)
  : Registry * IDisposable :=
  (mkRegistry (providers r) (completionProviders r ++ [provider])
              (chatProviders r) (codeEditProviders r),
   UnregisterCodeCompletionProvider provider).

Definition registerChatProvider (provider : Provider) (r : Registry)
  : Registry * IDisposable :=
  (mkRegistry (providers r) (completionProviders r)
              (chatProviders r ++ [provider]) (codeEditProviders r),
   UnregisterChatProvider provider).

Definition registerCodeEditProvider (provider : Provider) (r : Registry)
  : Registry * IDisposable :=
  (mkRegistry (providers r) (completionProviders r) (chatProviders r)
              (codeEditProviders r ++ [provider]),
   UnregisterCodeEditProvider provider).

(** Running the [dispose] closure of a registration. The second component
    lists the providers whose own [dispose()] the closure called. *)
Definition dispose (d : IDisposable) (r : Registry) : Registry * list Provider :=
  match d with
  | UnregisterAiProvider provider =>
      (mkRegistry (delete (p_id provider) (providers r))
                  (completionProviders r) (chatProviders r) (codeEditProviders r),
       [provider])
  | UnregisterCodeCompletionProvider provider =>
      (mkRegistry (providers r) (JsArray.remove_first (completionProviders r) provider)
                  (chatProviders r) (codeEditProviders r),
       [])
  | UnregisterChatProvider provider =>
      (mkRegistry (providers r) (completionProviders r)
                  (JsArray.remove_first (chatProviders r) provider) (codeEditProviders r),
       [])
  | UnregisterCodeEditProvider provider =>
      (mkRegistry (providers r) (completionProviders r) (chatProviders r)
                  (JsArray.remove_first (codeEditProviders r) provider),
       [])
  end.

(** [this.providers.size > 0] *)
Definition isEnabled (r : Registry) : bool := bool_decide (0 < size (providers r)).

Definition getCompletionProviders (r : Registry) : list Provider := completionProviders r.
Definition getChatProviders (r : Registry) : list Provider := chatProviders r.
Definition getCodeEditProviders (r : Registry) : list Provider := codeEditProviders r.

End AiProviderManager.

(** ** Dispatch *)

Inductive AiResult :=
| CompletionResult (r : AiCompletionResult)
| ChatResult (r : AiChatResponse)
| CodeEditResult (r : AiCodeEditResult).

(** Events fired on [onAiResponse] and [onAiError]; the request id and the
    measured duration (clock and random source) are left out. *)
Inductive AiEvent :=
| AiResponseEvent (type : string) (result : AiResult)
| AiErrorEvent (error : Js.Error) (context : string).

(** What one dispatch did: the settlement of the promise it returned, the
    providers whose [provide...] method it called, the events it fired. *)
Record Dispatch (R : Type) := mkDispatch {
  returned : Js.Outcome R;
  invoked : list Provider;
  fired : list AiEvent
}.
Arguments mkDispatch {R} _ _ _.
Arguments returned {R} _.
Arguments invoked {R} _.
Arguments fired {R} _.

(** The body shared by [getCompletion], [getChatResponse] and [getCodeEdit]:
    [try { guard; results = await Promise.all(providers.map(call));
           merged = merge(results); fire response; return merged }
     catch (error) { fire error; throw error }].
    [guard] is the error thrown by the check in front, if it throws. *)
Definition try_dispatch {R} (guard : option Js.Error) (registered : list Provider)
    (call : Provider → Js.Settled R) (merge : list R → R)
    (type : string) (wrap : R → AiResult) (operation : string) : Dispatch R :=
  match guard with
  | Some error => mkDispatch (Js.Rejected error) [] [AiErrorEvent error operation]
  | None =>
      match Js.promise_all (map call registered) with
      | Js.Fulfilled results =>
          let mergedResult := merge results in
          mkDispatch (Js.Fulfilled mergedResult) registered
                     [AiResponseEvent type (wrap mergedResult)]
      | Js.Rejected error =>
          mkDispatch (Js.Rejected error) registered [AiErrorEvent error operation]
      end
  end.

(** How the registered providers answer one request: the promise each
    [provide...] call returns, as it settles. The query, the context and the
    cancellation token are handed to every provider unchanged. *)
Record Answers := mkAnswers {
  provideCompletion : Provider → string → AiContext → Js.Settled AiCompletionResult;
  provideChatResponse : Provider → string → AiContext → Js.Settled AiChatResponse;
  provideCodeEdit : Provider → AiCodeEditRequest → Js.Settled AiCodeEditResult
}.

(** The first version of [AiCoreService]: each operation checks the list of
    its own kind. *)
Module Legacy.

(** [this._providers.size > 0] *)
Definition isEnabled (r : Registry) : bool := bool_decide (0 < size (providers r)).

(** The four registration methods and their [dispose] closures read, line for
    line, as those of [AiProviderManager]. *)
Definition registerAiProvider := AiProviderManager.registerAiProvider.
Definition registerCodeCompletionProvider := AiProviderManager.registerCodeCompletionProvider.
Definition registerChatProvider := AiProviderManager.registerChatProvider.
Definition registerCodeEditProvider := AiProviderManager.registerCodeEditProvider.

(** [if (list.length === 0) throw new Error(what)] *)
Definition no_providers (registered : list Provider) (what : string) : option Js.Error :=
  if decide (length registered = 0) then Some (Js.mkError what) else None.

Definition getCompletion (r : Registry) (a : Answers) (query : string) (context : AiContext)
  : Dispatch AiCompletionResult :=
  try_dispatch
    (no_providers (completionProviders r) "No code completion providers registered")
    (completionProviders r)
    (λ provider, provideCompletion a provider query context)
    mergeCompletionResults "completion" CompletionResult "getCompletion".

Definition getChatResponse (r : Registry) (a : Answers) (message : string) (context : AiContext)
  : Dispatch AiChatResponse :=
  try_dispatch
    (no_providers (chatProviders r) "No chat providers registered")
    (chatProviders r)
    (λ provider, provideChatResponse a provider message context)
    mergeChatResults "chat" ChatResult "getChatResponse".

Definition getCodeEdit (r : Registry) (a : Answers) (request : AiCodeEditRequest)
  : Dispatch AiCodeEditResult :=
  try_dispatch
    (no_providers (codeEditProviders r) "No code edit providers registered")
    (codeEditProviders r)
    (λ provider, provideCodeEdit a provider request)
    mergeCodeEditResults "codeEdit" CodeEditResult "getCodeEdit".

End Legacy.

(** The refactored [AiCoreService], on top of [AiProviderManager]. *)
Module AiCoreService.

Definition isEnabled (r : Registry) : bool := AiProviderManager.isEnabled r.

(** Throws [`No AI providers registered for ${operationType}`] when the
    manager is not enabled. *)
Definition validateProvidersExist (r : Registry) (operationType : string)
  : option Js.Error :=
  let hasProviders := AiProviderManager.isEnabled r in
  if negb hasProviders
  then Some (Js.mkError ("No AI providers registered for " +:+ operationType))
  else None.

Definition getCompletion (r : Registry) (a : Answers) (query : string) (context : AiContext)
  : Dispatch AiCompletionResult :=
  try_dispatch
    (validateProvidersExist r "completion")
    (AiProviderManager.getCompletionProviders r)
    (λ provider, provideCompletion a provider query context)
    mergeCompletionResults "completion" CompletionResult "getCompletion".

Definition getChatResponse (r : Registry) (a : Answers) (message : string) (context : AiContext)
  : Dispatch AiChatResponse :=
  try_dispatch
    (validateProvidersExist r "chat")
    (AiProviderManager.getChatProviders r)
    (λ provider, provideChatResponse a provider message context)
    mergeChatResults "chat" ChatResult "getChatResponse".

Definition getCodeEdit (r : Registry) (a : Answers) (request : AiCodeEditRequest)
  : Dispatch AiCodeEditResult :=
  try_dispatch
    (validateProvidersExist r "code edit")
    (AiProviderManager.getCodeEditProviders r)
    (λ provider, provideCodeEdit a provider request)
    mergeCodeEditResults "codeEdit" CodeEditResult "getCodeEdit".

End AiCoreService.

(** ** Provider methods that throw

    A provider method declared [async] returns a promise whatever happens in
    its body, and [Answers] says how that promise settles. A method written
    as an ordinary function can also throw before it returns a promise. *)

Module ProviderCall.

(** What a call of a provider method does. *)
Inductive Call (T : Type) :=
| Throws (e : Js.Error)
| Returns (p : Js.Settled T).
Arguments Throws {T} e.
Arguments Returns {T} p.

Record Behaviour := mkBehaviour {
  callCompletion : Provider → string → AiContext → Call AiCompletionResult;
  callChatResponse : Provider → string → AiContext → Call AiChatResponse;
  callCodeEdit : Provider → AiCodeEditRequest → Call AiCodeEditResult
}.

(** Providers whose methods always return their promise. *)
Definition returning (a : Answers) : Behaviour :=
  mkBehaviour (λ provider query context, Returns (provideCompletion a provider query context))
              (λ provider message context,
                 Returns (provideChatResponse a provider message context))
              (λ provider request, Returns (provideCodeEdit a provider request)).

(** [providers.map(provider => call(provider))]: the providers are called in
    order; a call that throws ends the loop, and the providers behind it are
    not called. Gives the providers called and the error thrown or the
    promises returned. *)
Fixpoint map_calls {T} (call : Provider → Call T) (registered : list Provider)
  : list Provider * (Js.Error + list (Js.Settled T)) :=
  match registered with
  | [] => ([], inr [])
  | provider :: rest =>
      match call provider with
      | Throws error => ([provider], inl error)
      | Returns promise =>
          let '(called, result) := map_calls call rest in
          (provider :: called,
           match result with
           | inl error => inl error
           | inr promises => inr (promise :: promises)
           end)
      end
  end.

(** The body of the operations of the first version, with calls that may
    throw: [try { guard; results = await Promise.all(providers.map(call));
    ...} catch (error) { fire error; throw error }]. *)
Definition dispatch_direct {R} (guard : option Js.Error) (registered : list Provider)
    (call : Provider → Call R) (merge : list R → R)
    (type : string) (wrap : R → AiResult) (operation : string) : Dispatch R :=
  match guard with
  | Some error => mkDispatch (Js.Rejected error) [] [AiErrorEvent error operation]
  | None =>
      match map_calls call registered with
      | (called, inl error) =>
          mkDispatch (Js.Rejected error) called [AiErrorEvent error operation]
      | (called, inr promises) =>
          match Js.promise_all promises with
          | Js.Fulfilled results =>
              let mergedResult := merge results in
              mkDispatch (Js.Fulfilled mergedResult) called
                         [AiResponseEvent type (wrap mergedResult)]
          | Js.Rejected error =>
              mkDispatch (Js.Rejected error) called [AiErrorEvent error operation]
          end
      end
  end.

(** The promise of [async (provider) => { try { return await
    operation(provider) } catch (error) { warn; throw error } }]: a throw of
    the operation rejects it at once, before any promise of a provider
    settles; a promise that the operation returns is awaited, and the
    wrapper settles after it, as it did. *)
Definition wrapped {T} (c : Call T) : Js.Settled T :=
  match c with
  | Throws error => Js.mkSettled 0 (Js.Rejected error)
  | Returns promise => Js.mkSettled (S (Js.settle_time promise)) (Js.outcome promise)
  end.

(** [executeWithProviders(providers, operation)]: every provider is called,
    inside its wrapper; [Promise.all] of the wrappers. *)
Definition executeWithProviders {T} (providers : list Provider)
    (operation : Provider → Call T) : Js.Outcome (list T) :=
  Js.promise_all (map (λ provider, wrapped (operation provider)) providers).

(** The body of the operations of the refactored service, with calls that
    may throw. *)
Definition dispatch_wrapped {R} (guard : option Js.Error) (registered : list Provider)
    (call : Provider → Call R) (merge : list R → R)
    (type : string) (wrap : R → AiResult) (operation : string) : Dispatch R :=
  match guard with
  | Some error => mkDispatch (Js.Rejected error) [] [AiErrorEvent error operation]
  | None =>
      match executeWithProviders registered call with
      | Js.Fulfilled results =>
          let mergedResult := merge results in
          mkDispatch (Js.Fulfilled mergedResult) registered
                     [AiResponseEvent type (wrap mergedResult)]
      | Js.Rejected error =>
          mkDispatch (Js.Rejected error) registered [AiErrorEvent error operation]
      end
  end.

(** The value a call gives when it succeeds, the error when it fails. *)
Definition succeeded {T} (c : Call T) : option T :=
  match c with
  | Throws _ => None
  | Returns promise => Js.fulfilled_value promise
  end.

Definition failed {T} (c : Call T) : option Js.Error :=
  match c with
  | Throws error => Some error
  | Returns promise =>
      match Js.outcome promise with
      | Js.Rejected error => Some error
      | Js.Fulfilled _ => None
      end
  end.

End ProviderCall.

(** The three operations of the first version of [AiCoreService], over
    providers whose methods may throw. *)
Module LegacyCalls.

Import ProviderCall.

Definition getCompletion (r : Registry) (b : Behaviour) (query : string)
    (context : AiContext) : Dispatch AiCompletionResult :=
  dispatch_direct
    (Legacy.no_providers (completionProviders r) "No code completion providers registered")
    (completionProviders r)
    (λ provider, callCompletion b provider query context)
    mergeCompletionResults "completion" CompletionResult "getCompletion".

Definition getChatResponse (r : Registry) (b : Behaviour) (message : string)
    (context : AiContext) : Dispatch AiChatResponse :=
  dispatch_direct
    (Legacy.no_providers (chatProviders r) "No chat providers registered")
    (chatProviders r)
    (λ provider, callChatResponse b provider message context)
    mergeChatResults "chat" ChatResult "getChatResponse".

Definition getCodeEdit (r : Registry) (b : Behaviour) (request : AiCodeEditRequest)
  : Dispatch AiCodeEditResult :=
  dispatch_direct
    (Legacy.no_providers (codeEditProviders r) "No code edit providers registered")
    (codeEditProviders r)
    (λ provider, callCodeEdit b provider request)
    mergeCodeEditResults "codeEdit" CodeEditResult "getCodeEdit".

End LegacyCalls.

(** The three operations of the refactored [AiCoreService], over providers
    whose methods may throw. *)
Module AiCoreServiceCalls.

Import ProviderCall.

Definition getCompletion (r : Registry) (b : Behaviour) (query : string)
    (context : AiContext) : Dispatch AiCompletionResult :=
  dispatch_wrapped
    (AiCoreService.validateProvidersExist r "completion")
    (AiProviderManager.getCompletionProviders r)
    (λ provider, callCompletion b provider query context)
    mergeCompletionResults "completion" CompletionResult "getCompletion".

Definition getChatResponse (r : Registry) (b : Behaviour) (message : string)
    (context : AiContext) : Dispatch AiChatResponse :=
  dispatch_wrapped
    (AiCoreService.validateProvidersExist r "chat")
    (AiProviderManager.getChatProviders r)
    (λ provider, callChatResponse b provider message context)
    mergeChatResults "chat" ChatResult "getChatResponse".

Definition getCodeEdit (r : Registry) (b : Behaviour) (request : AiCodeEditRequest)
  : Dispatch AiCodeEditResult :=
  dispatch_wrapped
    (AiCoreService.validateProvidersExist r "code edit")
    (AiProviderManager.getCodeEditProviders r)
    (λ provider, callCodeEdit b provider request)
    mergeCodeEditResults "codeEdit" CodeEditResult "getCodeEdit".

End AiCoreServiceCalls.

(** ** AiContextManager *)

Module AiContextManager.

Record State := mkState {
  currentContext : AiContext;
  contextHistory : list AiContext
}.

Record AiContextUpdateEvent := mkUpdate {
  upd_context : AiContext;
  upd_changes : AiContext
}.

Definition maxHistorySize : nat := 10.

(** A fresh manager: [currentContext = {}], [contextHistory = []]. *)
Definition fresh : State := mkState ∅ [].

Definition getCurrentContext (s : State) : AiContext :=
  Js.spread1 (currentContext s).

(** [push(context)], then [shift()] when the length exceeds the bound. *)
Definition addToHistory (context : AiContext) (history : list AiContext)
  : list AiContext :=
  let pushed := history ++ [context] in
  if decide (maxHistorySize < length pushed) then tail pushed else pushed.

Definition setContext (context : AiContext) (s : State)
  : State * AiContextUpdateEvent :=
  let oldContext := Js.spread1 (currentContext s) in
  let newContext := Js.spread2 (currentContext s) context in
  (mkState newContext (addToHistory oldContext (contextHistory s)),
   mkUpdate newContext context).

Definition clearContext (s : State) : State := mkState ∅ [].

(** [n] calls of [setContext], one per update, in order. *)
Definition setContexts (updates : list AiContext) (s : State) : State :=
  foldl (λ s update, (setContext update s).1) s updates.

(** The context in force just before each of the calls. *)
Fixpoint snapshots (updates : list AiContext) (s : State) : list AiContext :=
  match updates with
  | [] => []
  | update :: rest => currentContext s :: snapshots rest (setContext update s).1
  end.

End AiContextManager.

(** The second version of [AiAssistantService] keeps the context in its own
    fields [_currentContext] and [_contextHistory], with the bound written as
    the literal [10]. *)
Module AiAssistantService.

Import AiContextManager.

Definition setContext (context : AiContext) (s : State)
  : State * AiContextUpdateEvent :=
  let oldContext := Js.spread1 (currentContext s) in
  let newContext := Js.spread2 (currentContext s) context in
  let pushed := contextHistory s ++ [oldContext] in
  (mkState newContext (if decide (10 < length pushed) then tail pushed else pushed),
   mkUpdate newContext context).

Definition clearContext (s : State) : State := mkState ∅ [].

End AiAssistantService.

(** ** Wording of the specification, for comparison with the code *)

(** The metadata object built by the loop of a merge. *)
Definition collect_metadata (metas : list (option Metadata)) : Metadata :=
  Js.own (foldl assign_metadata Js.empty_object metas).

(** The values that the providers supply for key [k], in registration order;
    a provider without metadata, or whose metadata lacks [k], supplies none. *)
Definition supplied (k : string) (metas : list (option Metadata)) : list Js.Value :=
  omap (λ m : option Metadata, m ≫= (λ md, md !! k)) metas.

(** The value written last for key [k]. *)
Definition last_writer (k : string) (metas : list (option Metadata)) : option Js.Value :=
  last (supplied k metas).

(** No provider supplies an object under the key [__proto__]. *)
Definition no_object_prototype (metas : list (option Metadata)) : Prop :=
  Forall (λ m : option Metadata,
            ∀ md ref, m = Some md → md !! "__proto__" ≠ Some (Js.Object ref)) metas.

(** No provider supplies the key [__proto__]. *)
Definition no_prototype_key (metas : list (option Metadata)) : Prop :=
  Forall (λ m : option Metadata, m ≫= (λ md, md !! "__proto__") = None) metas.

(** A result whose metadata has the key [__proto__] of its own, as
    [JSON.parse] makes it. *)
Definition proto_result : AiCompletionResult :=
  mkCompletionResult [] (Some {["__proto__" := Js.Str "x"]}).

Definition named_result : AiCompletionResult :=
  mkCompletionResult []
    (Some ({["provider" := Js.Str "first"]} ∪ {["model" := Js.Str "m1"]})).

Definition renamed_result : AiCompletionResult :=
  mkCompletionResult []
    (Some ({["provider" := Js.Str "second"]} ∪ {["__proto__" := Js.Number 5]})).

(** A first result that sets the prototype of the merged metadata to
    [null], a second one whose key [__proto__] then becomes a property. *)
Definition null_prototype_results : list AiCompletionResult :=
  [mkCompletionResult [] (Some {["__proto__" := Js.Null]});
   mkCompletionResult [] (Some {["__proto__" := Js.Number 5]})].



Section FirstOccurrences.
Context {A : Type} `{EqDecision A}.

(** The elements of [l] without duplicates, each standing where it first
    occurs in [l]. *)
Fixpoint first_occurrences (l : list A) : list A :=
  match l with
  | [] => []
  | x :: l' => x :: filter (λ y, y ≠ x) (first_occurrences l')
  end.

(** [x] stands somewhere before [y] in [l]. *)
Definition stands_before (x y : A) (l : list A) : Prop :=
  ∃ l1 l2, l = l1 ++ x :: l2 ∧ y ∈ l2.

(** [x] occurs in [l] at a place before which neither [x] nor [y] occurs,
    and [y] occurs later: the first occurrence of [x] precedes that of [y]. *)
Definition first_occurs_before (x y : A) (l : list A) : Prop :=
  ∃ l1 l2, l = l1 ++ x :: l2 ∧ (x ∉ l1) ∧ (y ∉ l1) ∧ x ≠ y ∧ y ∈ l2.

End FirstOccurrences.

(** The message of the first response whose message is not empty (the empty
    string when there is none). *)
Fixpoint first_nonempty_message (results : list AiChatResponse) : string :=
  match results with
  | [] => ""
  | r :: rest =>
      if decide (chat_message r = "") then first_nonempty_message rest
      else chat_message r
  end.

Definition P1_response : AiChatResponse :=
  mkChatResponse "Hi" [] ["a"; "b"] None.
Definition P2_response : AiChatResponse :=
  mkChatResponse "Hello" [] ["b"; "c"] None.
Definition silent_response : AiChatResponse :=
  mkChatResponse "" [] [] None.

(** The strict failure policy, for a dispatch [d] over the providers
    [registered] for its kind, whose calls do what [call] says and whose
    results are combined by [merge]. The dispatch calls providers, in
    registration order from the first; it succeeds exactly when every call
    it made succeeds, and then it has called every registered provider and
    returns the merge of all their results; when a call it made fails, it
    rejects with the error of a call that failed, fires that error and
    nothing else, and the failing call is the first one: the call that
    threw, or else the promise that rejected before the others. *)
Definition all_or_nothing {R} (d : Dispatch R) (registered : list Provider)
    (call : Provider → ProviderCall.Call R) (merge : list R → R)
    (operation : string) : Prop :=
  invoked d ≠ []
  ∧ invoked d `prefix_of` registered
  ∧ ((∃ v, returned d = Js.Fulfilled v)
     ↔ Forall (λ p, is_Some (ProviderCall.succeeded (call p))) (invoked d))
  ∧ (∀ v, returned d = Js.Fulfilled v →
       invoked d = registered
       ∧ ∃ results, map (λ p, ProviderCall.succeeded (call p)) registered
                    = map Some results
                    ∧ v = merge results)
  ∧ (Exists (λ p, is_Some (ProviderCall.failed (call p))) (invoked d) →
       ∃ p e, p ∈ invoked d
              ∧ ProviderCall.failed (call p) = Some e
              ∧ returned d = Js.Rejected e
              ∧ fired d = [AiErrorEvent e operation]
              ∧ (call p = ProviderCall.Throws e
                 ∨ (∃ promise, call p = ProviderCall.Returns promise
                      ∧ ∀ q, q ∈ invoked d →
                             match call q with
                             | ProviderCall.Throws _ => False
                             | ProviderCall.Returns other =>
                                 ∀ e', Js.outcome other = Js.Rejected e' →
                                       Js.settle_time promise ≤ Js.settle_time other
                             end))).

(** Sample providers and registries. *)
Definition general_provider : Provider := mkProvider 1 "general" "General".
Definition chat_provider : Provider := mkProvider 2 "chat" "Chat".

Definition sample_range : IRange := mkRange 1 1 1 1.
Definition sample_request : AiCodeEditRequest :=
  mkCodeEditRequest "file:///a.ts" sample_range "rename" ∅.

(** Every provider fulfils at once, with an empty result. *)
Definition quiet_answers : Answers :=
  mkAnswers (λ _ _ _, Js.mkSettled 0 (Js.Fulfilled (mkCompletionResult [] None)))
            (λ _ _ _, Js.mkSettled 0 (Js.Fulfilled (mkChatResponse "" [] [] None)))
            (λ _ _, Js.mkSettled 0 (Js.Fulfilled (mkCodeEditResult [] None None))).

(** Only a general provider is registered. *)
Definition general_only : Registry :=
  (AiProviderManager.registerAiProvider general_provider empty_registry).1.

(** One provider registered for each kind, none as a general provider. *)
Definition kinds_only : Registry :=
  (AiProviderManager.registerCodeEditProvider chat_provider
     (AiProviderManager.registerChatProvider chat_provider
        (AiProviderManager.registerCodeCompletionProvider chat_provider
           empty_registry).1).1).1.

(** A general provider and one provider for each kind. *)
Definition full_registry : Registry :=
  (AiProviderManager.registerAiProvider general_provider kinds_only).1.

(** Three providers registered for every kind, behind a general one. *)
Definition steady_provider : Provider := mkProvider 3 "steady" "Steady".
Definition abrupt_provider : Provider := mkProvider 4 "abrupt" "Abrupt".
Definition faulty_provider : Provider := mkProvider 5 "faulty" "Faulty".

Definition crowded_registry : Registry :=
  mkRegistry {["general" := general_provider]}
             [steady_provider; abrupt_provider; faulty_provider]
             [steady_provider; abrupt_provider; faulty_provider]
             [steady_provider; abrupt_provider; faulty_provider].

(** For a completion the second provider throws; for a chat message the
    third provider rejects while the others fulfil later; for a code edit
    every provider fulfils. *)
Definition mixed_behaviour : ProviderCall.Behaviour :=
  ProviderCall.mkBehaviour
    (λ provider _ _,
       if decide (provider = abrupt_provider)
       then ProviderCall.Throws (Js.mkError "abrupt threw")
       else if decide (provider = faulty_provider)
       then ProviderCall.Returns (Js.mkSettled 0 (Js.Rejected (Js.mkError "faulty is down")))
       else ProviderCall.Returns
              (Js.mkSettled 1 (Js.Fulfilled (mkCompletionResult [] None))))
    (λ provider _ _,
       if decide (provider = faulty_provider)
       then ProviderCall.Returns (Js.mkSettled 1 (Js.Rejected (Js.mkError "faulty is down")))
       else ProviderCall.Returns
              (Js.mkSettled 2 (Js.Fulfilled (mkChatResponse (p_name provider) [] [] None))))
    (λ provider _,
       ProviderCall.Returns
         (Js.mkSettled 0 (Js.Fulfilled (mkCodeEditResult [] (Some (p_name provider)) None)))).

(** The identity of a completion: its text and the start of its range. *)
Definition identity (c : AiCompletion) : string * (N * N) :=
  (c_text c, (startLineNumber (c_range c), startColumn (c_range c))).

(** No character of [s] is a dash. *)
Fixpoint dash_free (s : string) : Prop :=
  match s with
  | EmptyString => True
  | String c s' => c ≠ "-"%char ∧ dash_free s'
  end.

(** [c] has score [s]. *)
Definition scored (s : Q) (c : AiCompletion) : Prop := (c_score c == s)%Q.

#[global] Instance scored_dec s c : Decision (scored s c) := Qeq_dec (c_score c) s.

(** [a] may stand before [b] in a list sorted by descending score. *)
Definition score_ge (a b : AiCompletion) : Prop := (c_score b <= c_score a)%Q.

Definition completion_X : AiCompletion :=
  mkCompletion "X" (mkRange 1 1 1 2) CK_Function (9 # 10) None.
Definition completion_Y : AiCompletion :=
  mkCompletion "Y" (mkRange 2 1 2 2) CK_Variable (9 # 10) None.
(** Same text and start as [completion_X], everything else different. *)
Definition completion_X_again : AiCompletion :=
  mkCompletion "X" (mkRange 1 1 3 9) CK_Snippet (1 # 2) (Some {["source" := Js.Str "second"]}).

(** The context [{ language: n }], and fifteen updates setting it to 1 ... 15. *)
Definition numbered (n : Z) : AiContext := {["language" := Js.Number n]}.
Definition fifteen_updates : list AiContext :=
  (λ n, numbered (Z.of_nat n)) <$> seq 1 15.

(** ** Request identifiers *)

Module RequestIdGenerator.

(** A digit of a number written in base 36, as [toString(36)] prints it. *)
Definition base36_char (d : N) : ascii :=
  match d with
  | 0 => "0" | 1 => "1" | 2 => "2" | 3 => "3" | 4 => "4" | 5 => "5"
  | 6 => "6" | 7 => "7" | 8 => "8" | 9 => "9" | 10 => "a" | 11 => "b"
  | 12 => "c" | 13 => "d" | 14 => "e" | 15 => "f" | 16 => "g" | 17 => "h"
  | 18 => "i" | 19 => "j" | 20 => "k" | 21 => "l" | 22 => "m" | 23 => "n"
  | 24 => "o" | 25 => "p" | 26 => "q" | 27 => "r" | 28 => "s" | 29 => "t"
  | 30 => "u" | 31 => "v" | 32 => "w" | 33 => "x" | 34 => "y" | _ => "z"
  end%char%N.

Fixpoint base36 (digits : list N) : string :=
  match digits with
  | [] => ""
  | d :: rest => String (base36_char d) (base36 rest)
  end.

(** [Math.random().toString(36).substr(2, 9)]: the number drawn prints as
    ["0."] followed by the digits of its fraction (as ["0"] when it is zero),
    of which at most nine are kept. *)
Definition random_part (fraction : list N) : string := base36 (take 9 fraction).

(** [this.counter++] on a number: above [2^53] the successor is not a double
    and the sum rounds back. *)
Definition increment (counter : N) : N :=
  if (counter <? 2 ^ 53)%N then (counter + 1)%N else counter.

(** [`${prefix}${Date.now()}-${this.counter++}-${random}`], with the counter
    after the call; [prefix] is ["ai-"] in the core service and ["assistant-"]
    in the assistant service. *)
Definition generate (prefix : string) (now : Z) (fraction : list N) (counter : N)
  : string * N :=
  (prefix +:+ pretty now +:+ "-" +:+ pretty counter +:+ "-" +:+ random_part fraction,
   increment counter).

(** The identifiers of successive calls, each with the clock reading and the
    random number of its own. *)
Fixpoint generate_all (prefix : string) (calls : list (Z * list N)) (counter : N)
  : list string :=
  match calls with
  | [] => []
  | (now, fraction) :: rest =>
      let '(id, counter') := generate prefix now fraction counter in
      id :: generate_all prefix rest counter'
  end.

End RequestIdGenerator.

(** ** Sequences of context operations *)

Module ContextOps.

Import AiContextManager.

Inductive Op :=
| SetContext (update : AiContext)
| ClearContext.

Definition step (s : State) (op : Op) : State :=
  match op with
  | SetContext update => (setContext update s).1
  | ClearContext => clearContext s
  end.

Definition run (ops : list Op) (s : State) : State := foldl step s ops.

End ContextOps.

(** A dispatch fired one event, which tells how it ended: a response event
    with the returned result, or an error event with the error thrown and the
    name of the operation. *)
Definition one_event {R} (d : Dispatch R) (type : string) (wrap : R → AiResult)
    (operation : string) : Prop :=
  match returned d with
  | Js.Fulfilled result => fired d = [AiResponseEvent type (wrap result)]
  | Js.Rejected error => fired d = [AiErrorEvent error operation]
  end.

(** ** The example providers *)

Module JsString.

(** A line feed, a tab and a double quote, as single-character strings. *)
Definition LF : string := String "010" "".
Definition TAB : string := String "009" "".
Definition DQUOTE : string := String "034" "".

(** [s.includes(sub)]: [sub] occurs somewhere in [s]. *)
Fixpoint includes (s sub : string) : bool :=
  String.prefix sub s
  || match s with
     | EmptyString => false
     | String _ s' => includes s' sub
     end.

End JsString.

(** What [ExampleAiProvider] and [AdvancedAiProvider] have in common: the
    constructor registers the provider for the three kinds and keeps the
    three capabilities in the store of its [Disposable] base class, whose
    [dispose()] runs them in the order they were kept. *)
Module ProviderLifecycle.

Definition construct (this : Provider) (r : Registry) : Registry * list IDisposable :=
  let '(r1, d1) := AiProviderManager.registerCodeCompletionProvider this r in
  let '(r2, d2) := AiProviderManager.registerChatProvider this r1 in
  let '(r3, d3) := AiProviderManager.registerCodeEditProvider this r2 in
  (r3, [d1; d2; d3]).

Definition dispose (store : list IDisposable) (r : Registry) : Registry :=
  foldl (λ r d, (AiProviderManager.dispose d r).1) r store.

Definition construct_all (ps : list Provider) (r : Registry) : Registry :=
  foldl (λ r p, (construct p r).1) r ps.

End ProviderLifecycle.

Module ExampleAiProvider.

Definition id : string := "example-ai-provider".
Definition name : string := "Example AI Provider".

(** An instance, as an object of identity [ref]. *)
Definition instance (ref : nat) : Provider := mkProvider ref id name.

(** [new Range(1, 1, 1, 1)] *)
Definition origin : IRange := mkRange 1 1 1 1.

Definition function_completion : AiCompletion :=
  mkCompletion
    ("function example() {" +:+ JsString.LF +:+ JsString.TAB
       +:+ "// TODO: Implement function" +:+ JsString.LF +:+ "}")
    origin CK_Function (9 # 10) (Some {["provider" := Js.Str id]}).

Definition class_completion : AiCompletion :=
  mkCompletion
    ("class ExampleClass {" +:+ JsString.LF +:+ JsString.TAB +:+ "constructor() {"
       +:+ JsString.LF +:+ JsString.TAB +:+ JsString.TAB +:+ "// TODO: Initialize class"
       +:+ JsString.LF +:+ JsString.TAB +:+ "}" +:+ JsString.LF +:+ "}")
    origin CK_Class (8 # 10) (Some {["provider" := Js.Str id]}).

Definition import_completion : AiCompletion :=
  mkCompletion "import { Component } from 'react';"
    origin CK_Import (7 # 10) (Some {["provider" := Js.Str id]}).

Definition generic_completion : AiCompletion :=
  mkCompletion
    ("console.log(" +:+ JsString.DQUOTE +:+ "Hello, World!" +:+ JsString.DQUOTE +:+ ");")
    origin CK_Snippet (5 # 10) (Some {["provider" := Js.Str id]}).

(** [provideCompletion(query, context, token)]; [now] is what [Date.now()]
    returns during the call. *)
Definition provideCompletion (query : string) (now : Z) : AiCompletionResult :=
  let completions :=
    (if JsString.includes query "function" then [function_completion] else [])
    ++ (if JsString.includes query "class" then [class_completion] else [])
    ++ (if JsString.includes query "import" then [import_completion] else [])
    ++ [generic_completion] in
  mkCompletionResult completions
    (Some ({["provider" := Js.Str id]} ∪ {["query" := Js.Str query]}
           ∪ {["timestamp" := Js.Number now]})).

End ExampleAiProvider.

(** ** Strings as the parser of the assistant reads them

    A JavaScript string is held by its UTF-8 encoding. Splitting at line
    feeds, searching an ASCII word and matching ASCII letters and digits act
    on the bytes as they act on the characters; the white space that [trim]
    and the class [\s] know is listed with its encodings. *)

Module JsText.

Definition code (c : ascii) : N := N_of_ascii c.

(** Tab, line feed, vertical tab, form feed, carriage return, space. *)
Definition ascii_white (c : ascii) : bool :=
  ((9 <=? code c) && (code c <=? 13) || (code c =? 32))%N.

(** The white space and line terminators of three bytes: U+1680,
    U+2000 to U+200A, U+2028, U+2029, U+202F, U+205F, U+3000, U+FEFF. *)
Definition white3 (a b c : N) : bool :=
  ((a =? 225) && (b =? 154) && (c =? 128)
   || (a =? 226) && (b =? 128)
      && ((128 <=? c) && (c <=? 138) || (c =? 168) || (c =? 169) || (c =? 175))
   || (a =? 226) && (b =? 129) && (c =? 159)
   || (a =? 227) && (b =? 128) && (c =? 128)
   || (a =? 239) && (b =? 187) && (c =? 191))%N.

(** Takes one white-space character off the front, if there is one
    (U+00A0 is the one of two bytes). *)
Definition strip_white (s : string) : option string :=
  match s with
  | String c1 r1 =>
      if ascii_white c1 then Some r1
      else match r1 with
           | String c2 r2 =>
               if ((code c1 =? 194) && (code c2 =? 160))%N then Some r2
               else match r2 with
                    | String c3 r3 =>
                        if white3 (code c1) (code c2) (code c3) then Some r3 else None
                    | EmptyString => None
                    end
           | EmptyString => None
           end
  | EmptyString => None
  end.

Fixpoint trimStart_go (fuel : nat) (s : string) : string :=
  match fuel with
  | O => s
  | S fuel' =>
      match strip_white s with
      | Some rest => trimStart_go fuel' rest
      | None => s
      end
  end.

(** [s.trimStart()] *)
Definition trimStart (s : string) : string := trimStart_go (String.length s) s.

(** [s] is white space from end to end. *)
Definition all_white (s : string) : bool :=
  match trimStart s with
  | EmptyString => true
  | String _ _ => false
  end.

(** [s.trimEnd()]: cut where only white space follows. *)
Fixpoint trimEnd (s : string) : string :=
  if all_white s then ""
  else match s with
       | EmptyString => ""
       | String c rest => String c (trimEnd rest)
       end.

(** [s.trim()] *)
Definition trim (s : string) : string := trimEnd (trimStart s).

(** [s.split('\n')], with the line being read passed along. *)
Fixpoint split_lines_go (current : string) (s : string) : list string :=
  match s with
  | EmptyString => [String.rev current]
  | String c rest =>
      if (code c =? 10)%N then String.rev current :: split_lines_go "" rest
      else split_lines_go (String c current) rest
  end.

Definition split_lines (s : string) : list string := split_lines_go "" s.

(** A whole number as JavaScript holds it: exactly below [2^53]; a larger
    numeral is rounded by [parseInt] to a number that is not kept here. *)
Inductive Whole :=
| Exactly (n : N)
| Rounded.

Definition is_digit (c : ascii) : bool := ((48 <=? code c) && (code c <=? 57))%N.

Fixpoint decimal_go (acc : N) (digits : string) : N :=
  match digits with
  | EmptyString => acc
  | String c rest => decimal_go (10 * acc + (code c - 48))%N rest
  end.

(** [parseInt(digits)] for a string of decimal digits. *)
Definition parseInt (digits : string) : Whole :=
  let value := decimal_go 0 digits in
  if (value <? 2 ^ 53)%N then Exactly value else Rounded.

(** The leading digits of [s]: what [(\d+)] captures when it matches. *)
Fixpoint leading_digits (s : string) : string :=
  match s with
  | String c rest => if is_digit c then String c (leading_digits rest) else ""
  | EmptyString => ""
  end.

(** The letter in lower case, for the ASCII letters that the flag [i] folds
    in a pattern of ASCII letters. *)
Definition fold_case (c : ascii) : ascii :=
  if ((65 <=? code c) && (code c <=? 90))%N then ascii_of_N (code c + 32) else c.

(** [s] begins with the letters of [word], in either case; what follows. *)
Fixpoint after_word (word s : string) : option string :=
  match word with
  | EmptyString => Some s
  | String w word' =>
      match s with
      | String c rest =>
          if decide (fold_case c = w) then after_word word' rest else None
      | EmptyString => None
      end
  end.

(** [[:\s]*]: colons and white space, as many as there are. *)
Fixpoint skip_separators_go (fuel : nat) (s : string) : string :=
  match fuel with
  | O => s
  | S fuel' =>
      match s with
      | String c rest =>
          if (code c =? 58)%N then skip_separators_go fuel' rest
          else match strip_white s with
               | Some rest' => skip_separators_go fuel' rest'
               | None => s
               end
      | EmptyString => s
      end
  end.

Definition skip_separators (s : string) : string := skip_separators_go (String.length s) s.

(** [/score[:\s]*(\d+)/i] tried at the front of [s]: the digits captured.
    Separators and digits share no character, so that giving back
    separators cannot turn a failure into a match. *)
Definition score_here (s : string) : option string :=
  match after_word "score" s with
  | Some rest =>
      match leading_digits (skip_separators rest) with
      | EmptyString => None
      | digits => Some digits
      end
  | None => None
  end.

(** [response.match(/score[:\s]*(\d+)/i)]: the capture of the leftmost match. *)
Fixpoint match_score (s : string) : option string :=
  match score_here s with
  | Some digits => Some digits
  | None =>
      match s with
      | EmptyString => None
      | String _ rest => match_score rest
      end
  end.

End JsText.

(** ** Parsing the answers of a review, a performance or a security analysis *)

Inductive ReviewSeverity := RS_Error | RS_Warning | RS_Info.
Inductive Priority := P_High | P_Medium | P_Low.
Inductive Level := L_Critical | L_High | L_Medium | L_Low.

Record AiReviewIssue := mkReviewIssue {
  ri_severity : ReviewSeverity;
  ri_message : string;
  ri_line : option N
}.

Record AiReviewSuggestion := mkReviewSuggestion {
  rs_message : string;
  rs_priority : Priority;
  rs_impact : string
}.

Record AiCodeReviewResult := mkCodeReview {
  review_score : JsText.Whole;
  review_issues : list AiReviewIssue;
  review_suggestions : list AiReviewSuggestion;
  review_summary : string
}.

Record AiPerformanceIssue := mkPerformanceIssue {
  pi_severity : Level;
  pi_message : string;
  pi_line : option N;
  pi_impact : string;
  pi_suggestion : string
}.

Record AiPerformanceOptimization := mkPerformanceOptimization {
  po_description : string;
  po_implementation : string;
  po_expectedImprovement : string
}.

Record AiPerformanceResult := mkPerformance {
  perf_score : JsText.Whole;
  perf_issues : list AiPerformanceIssue;
  perf_optimizations : list AiPerformanceOptimization;
  perf_summary : string
}.

Record AiSecurityVulnerability := mkVulnerability {
  sv_severity : Level;
  sv_type : string;
  sv_description : string;
  sv_line : option N;
  sv_mitigation : string
}.

Record AiSecurityRecommendation := mkRecommendation {
  sr_description : string;
  sr_implementation : string;
  sr_priority : Priority
}.

Record AiSecurityResult := mkSecurity {
  sec_score : JsText.Whole;
  sec_vulnerabilities : list AiSecurityVulnerability;
  sec_recommendations : list AiSecurityRecommendation;
  sec_summary : string
}.

Module ParserParts.

Import JsText JsString.

Definition extractScore (response : string) (defaultValue : Whole) : Whole :=
  match match_score response with
  | Some digits => parseInt digits
  | None => defaultValue
  end.

Definition isIssueLine (line : string) : bool :=
  includes line "error" || includes line "warning" || includes line "issue".

Definition isSuggestionLine (line : string) : bool :=
  includes line "suggestion" || includes line "recommendation".

Definition isPerformanceIssueLine (line : string) : bool :=
  includes line "performance" || includes line "slow" || includes line "inefficient".

Definition isOptimizationLine (line : string) : bool :=
  includes line "optimize" || includes line "improve".

Definition isVulnerabilityLine (line : string) : bool :=
  includes line "vulnerability" || includes line "security" || includes line "risk".

Definition isSecurityRecommendationLine (line : string) : bool :=
  includes line "secure" || includes line "protect".

Definition createReviewIssue (line : string) : AiReviewIssue :=
  mkReviewIssue (if includes line "error" then RS_Error else RS_Warning) line None.

Definition createReviewSuggestion (line : string) : AiReviewSuggestion :=
  mkReviewSuggestion line P_Medium "Improves code quality".

Definition createPerformanceIssue (line : string) : AiPerformanceIssue :=
  mkPerformanceIssue L_Medium line None "Reduces performance" "Consider optimization".

Definition createPerformanceOptimization (line : string) : AiPerformanceOptimization :=
  mkPerformanceOptimization line "Manual implementation required" "Performance improvement".

Definition createSecurityVulnerability (line : string) : AiSecurityVulnerability :=
  mkVulnerability L_Medium "General security issue" line None "Review and fix".

Definition createSecurityRecommendation (line : string) : AiSecurityRecommendation :=
  mkRecommendation line "Manual implementation required" P_Medium.

(** The loop shared by the three parsers:
    [lines.forEach(line => { if (first(probe)) as.push(mkA(probe, trimmed))
                             else if (second(probe)) bs.push(mkB(trimmed)) })],
    where [trimmed] is [line.trim()] and [probe] is the text the tests look
    at. *)
Definition sort_lines {A B} (probe : string → string) (first second : string → bool)
    (mkA : string → string → A) (mkB : string → B) (lines : list string)
  : list A * list B :=
  foldl (λ '(found, others) line,
           if first (probe line) then (found ++ [mkA (probe line) (trim line)], others)
           else if second (probe line) then (found, others ++ [mkB (trim line)])
           else (found, others))
        ([], []) lines.

End ParserParts.

(** The static class [AiResponseParser] of the refactored assistant service:
    the tests look at the trimmed line, and every parser reads the score. *)
Module AiResponseParser.

Import JsText ParserParts.

Definition parseCodeReviewResponse (response : string) : AiCodeReviewResult :=
  let lines := split_lines response in
  let score := extractScore response (Exactly 5) in
  let '(issues, suggestions) :=
    sort_lines trim isIssueLine isSuggestionLine
      (λ trimmedLine _, createReviewIssue trimmedLine) createReviewSuggestion lines in
  mkCodeReview score issues suggestions response.

Definition parsePerformanceResponse (response : string) : AiPerformanceResult :=
  let lines := split_lines response in
  let score := extractScore response (Exactly 5) in
  let '(issues, optimizations) :=
    sort_lines trim isPerformanceIssueLine isOptimizationLine
      (λ trimmedLine _, createPerformanceIssue trimmedLine)
      createPerformanceOptimization lines in
  mkPerformance score issues optimizations response.

Definition parseSecurityResponse (response : string) : AiSecurityResult :=
  let lines := split_lines response in
  let score := extractScore response (Exactly 5) in
  let '(vulnerabilities, recommendations) :=
    sort_lines trim isVulnerabilityLine isSecurityRecommendationLine
      (λ trimmedLine _, createSecurityVulnerability trimmedLine)
      createSecurityRecommendation lines in
  mkSecurity score vulnerabilities recommendations response.

End AiResponseParser.

(** The private parsers of the second version of [AiAssistantService]: the
    tests look at the line as it is, the message is the trimmed line, and
    only the review reads the score. *)
Module InlineParser.

Import JsText JsString ParserParts.

Definition parseCodeReviewResponse (response : string) : AiCodeReviewResult :=
  let lines := split_lines response in
  let score :=
    match match_score response with
    | Some digits => parseInt digits
    | None => Exactly 5
    end in
  let '(issues, suggestions) :=
    sort_lines (λ line, line)
      (λ line, includes line "error" || includes line "warning" || includes line "issue")
      (λ line, includes line "suggestion" || includes line "recommendation")
      (λ line trimmed, mkReviewIssue (if includes line "error" then RS_Error else RS_Warning)
                                     trimmed None)
      (λ trimmed, mkReviewSuggestion trimmed P_Medium "Improves code quality")
      lines in
  mkCodeReview score issues suggestions response.

Definition parsePerformanceResponse (response : string) : AiPerformanceResult :=
  let lines := split_lines response in
  let score := Exactly 5 in
  let '(issues, optimizations) :=
    sort_lines (λ line, line)
      (λ line, includes line "performance" || includes line "slow"
               || includes line "inefficient")
      (λ line, includes line "optimize" || includes line "improve")
      (λ _ trimmed, mkPerformanceIssue L_Medium trimmed None "Reduces performance"
                                       "Consider optimization")
      (λ trimmed, mkPerformanceOptimization trimmed "Manual implementation required"
                                            "Performance improvement")
      lines in
  mkPerformance score issues optimizations response.

Definition parseSecurityResponse (response : string) : AiSecurityResult :=
  let lines := split_lines response in
  let score := Exactly 5 in
  let '(vulnerabilities, recommendations) :=
    sort_lines (λ line, line)
      (λ line, includes line "vulnerability" || includes line "security"
               || includes line "risk")
      (λ line, includes line "secure" || includes line "protect")
      (λ _ trimmed, mkVulnerability L_Medium "General security issue" trimmed None
                                    "Review and fix")
      (λ trimmed, mkRecommendation trimmed "Manual implementation required" P_Medium)
      lines in
  mkSecurity score vulnerabilities recommendations response.

End InlineParser.

(** ** The assistant service on top of the core service *)

(** The part of [IAiCoreService] that the assistant service calls. *)
Record IAiCoreService := mkCore {
  core_getChatResponse : string → AiContext → Dispatch AiChatResponse;
  core_getCodeEdit : AiCodeEditRequest → Dispatch AiCodeEditResult;
  core_getWorkspaceContext : Js.Outcome Js.Value;
  core_getFileContext : string → Js.Outcome Js.Value;
  core_getSelectionContext : string → IRange → Js.Outcome Js.Value
}.

(** The refactored [AiCoreService] over a registry and the answers of its
    providers; its context methods are placeholders that throw. *)
Definition refactored_core (r : Registry) (a : Answers) : IAiCoreService :=
  mkCore (AiCoreService.getChatResponse r a) (AiCoreService.getCodeEdit r a)
         (Js.Rejected (Js.mkError "Workspace context not implemented"))
         (λ _, Js.Rejected (Js.mkError "File context not implemented"))
         (λ _ _, Js.Rejected (Js.mkError "Selection context not implemented")).

(** The first version of [AiCoreService]; its placeholders all throw
    ['Not implemented']. *)
Definition legacy_core (r : Registry) (a : Answers) : IAiCoreService :=
  mkCore (Legacy.getChatResponse r a) (Legacy.getCodeEdit r a)
         (Js.Rejected (Js.mkError "Not implemented"))
         (λ _, Js.Rejected (Js.mkError "Not implemented"))
         (λ _ _, Js.Rejected (Js.mkError "Not implemented")).

(** What an operation of the assistant returns to its caller. *)
Inductive AssistantResult :=
| TextResult (text : string)
| ChatResponseResult (response : AiChatResponse)
| EditResult (result : AiCodeEditResult)
| ReviewResult (review : AiCodeReviewResult)
| PerformanceResult (analysis : AiPerformanceResult)
| SecurityResult (analysis : AiSecurityResult).

(** Events fired on [onAssistantResponse] and [onAssistantError], without
    request id and duration. *)
Inductive AssistantEvent :=
| AssistantResponseEvent (type : string) (result : AssistantResult)
| AssistantErrorEvent (error : Js.Error) (context : string).

(** What one operation of the assistant did: how the promise it returned
    settled, the events the assistant fired, the events the core service
    fired and the providers the core service called meanwhile. *)
Record Operation (R : Type) := mkOperation {
  op_returned : Js.Outcome R;
  op_fired : list AssistantEvent;
  op_core_fired : list AiEvent;
  op_invoked : list Provider
}.
Arguments mkOperation {R} _ _ _ _.
Arguments op_returned {R} _.
Arguments op_fired {R} _.
Arguments op_core_fired {R} _.
Arguments op_invoked {R} _.

Module AiOperationExecutor.

(** [try { result = await operation(); fireResponse; return result }
     catch (error) { fireError; throw error }]; the operation comes with what
    it made the core service do. *)
Definition executeOperation {R} (operationType : string) (wrap : R → AssistantResult)
    (operation : Js.Outcome R * list AiEvent * list Provider) : Operation R :=
  let '(outcome, core_fired, called) := operation in
  match outcome with
  | Js.Fulfilled result =>
      mkOperation (Js.Fulfilled result) [AssistantResponseEvent operationType (wrap result)]
                  core_fired called
  | Js.Rejected error =>
      mkOperation (Js.Rejected error) [AssistantErrorEvent error operationType]
                  core_fired called
  end.

(** Whether [if (value)] takes the branch; [None] is a missing property. *)
Definition truthy (value : option Js.Value) : bool :=
  match value with
  | None | Some Js.Undefined | Some Js.Null | Some (Js.Bool false)
  | Some (Js.Number 0) | Some (Js.Str EmptyString) => false
  | Some _ => true
  end.

(** [buildContext(additionalContext?)]: the current context overlaid by the
    additional one; when it has no workspace, the one the core service
    returns is added, and a failure of the core service is logged and
    dropped. *)
Definition buildContext (core : IAiCoreService) (s : AiContextManager.State)
    (additionalContext : option AiContext) : Js.Outcome AiContext :=
  let context :=
    Js.spread2 (AiContextManager.getCurrentContext s) (default ∅ additionalContext) in
  if negb (truthy (context !! "workspace")) then
    match core_getWorkspaceContext core with
    | Js.Fulfilled workspace => Js.Fulfilled (<["workspace" := workspace]> context)
    | Js.Rejected _ => Js.Fulfilled context
    end
  else Js.Fulfilled context.

End AiOperationExecutor.

(** The operations of the refactored [AiAssistantService] (the class built
    on [AiOperationExecutor]). *)
Module AssistantOperations.

Import AiOperationExecutor.

(** [const aiContext = await buildContext(additional);
     const response = await getChatResponse(prompt, aiContext, None)] *)
Definition ask (core : IAiCoreService) (s : AiContextManager.State)
    (additional : option AiContext) (prompt : string)
  : Js.Outcome AiChatResponse * list AiEvent * list Provider :=
  match buildContext core s additional with
  | Js.Rejected error => (Js.Rejected error, [], [])
  | Js.Fulfilled aiContext =>
      let d := core_getChatResponse core prompt aiContext in
      (returned d, fired d, invoked d)
  end.

(** [return response.message] *)
Definition message_of (asked : Js.Outcome AiChatResponse * list AiEvent * list Provider)
  : Js.Outcome string * list AiEvent * list Provider :=
  let '(outcome, core_fired, called) := asked in
  (match outcome with
   | Js.Fulfilled response => Js.Fulfilled (chat_message response)
   | Js.Rejected error => Js.Rejected error
   end, core_fired, called).

(** An optional string argument is used when it is given and not empty. *)
Definition given (argument : option string) : option string :=
  match argument with
  | Some EmptyString | None => None
  | Some text => Some text
  end.

Definition refactorCode_prompt (code instruction : string) : string :=
  "Please refactor this code according to the following instruction: " +:+ instruction
    +:+ JsString.LF +:+ JsString.LF +:+ "Code:" +:+ JsString.LF +:+ code.

Definition refactorCode (core : IAiCoreService) (s : AiContextManager.State)
    (code instruction : string) : Operation string :=
  executeOperation "refactorCode" TextResult
    (message_of (ask core s None (refactorCode_prompt code instruction))).

Definition fixBug_prompt (code : string) (error : option string) : string :=
  match given error with
  | Some error =>
      "Please fix this bug in the code. Error: " +:+ error
        +:+ JsString.LF +:+ JsString.LF +:+ "Code:" +:+ JsString.LF +:+ code
  | None =>
      "Please identify and fix any bugs in this code:" +:+ JsString.LF +:+ JsString.LF +:+ code
  end.

Definition fixBug (core : IAiCoreService) (s : AiContextManager.State)
    (code : string) (error : option string) : Operation string :=
  executeOperation "fixBug" TextResult
    (message_of (ask core s None (fixBug_prompt code error))).

Definition generateTests_prompt (code : string) (framework : option string) : string :=
  match given framework with
  | Some framework =>
      "Please generate tests for this code using " +:+ framework +:+ ":"
        +:+ JsString.LF +:+ JsString.LF +:+ code
  | None =>
      "Please generate tests for this code:" +:+ JsString.LF +:+ JsString.LF +:+ code
  end.

Definition generateTests (core : IAiCoreService) (s : AiContextManager.State)
    (code : string) (framework : option string) : Operation string :=
  executeOperation "generateTests" TextResult
    (message_of (ask core s None (generateTests_prompt code framework))).

Definition generateDocumentation_prompt (code : string) (type : option string) : string :=
  match given type with
  | Some type =>
      "Please generate " +:+ type +:+ " documentation for this code:"
        +:+ JsString.LF +:+ JsString.LF +:+ code
  | None =>
      "Please generate documentation for this code:" +:+ JsString.LF +:+ JsString.LF +:+ code
  end.

Definition generateDocumentation (core : IAiCoreService) (s : AiContextManager.State)
    (code : string) (type : option string) : Operation string :=
  executeOperation "generateDocumentation" TextResult
    (message_of (ask core s None (generateDocumentation_prompt code type))).

(** [return AiResponseParser.parse...(response.message)] *)
Definition parsed_by {R} (parse : string → R)
    (asked : Js.Outcome AiChatResponse * list AiEvent * list Provider)
  : Js.Outcome R * list AiEvent * list Provider :=
  let '(outcome, core_fired, called) := asked in
  (match outcome with
   | Js.Fulfilled response => Js.Fulfilled (parse (chat_message response))
   | Js.Rejected error => Js.Rejected error
   end, core_fired, called).

Definition reviewCode_prompt (code : string) : string :=
  "Please review this code and provide a detailed analysis including issues, suggestions, and a score from 1-10:"
    +:+ JsString.LF +:+ JsString.LF +:+ code.

Definition reviewCode (core : IAiCoreService) (s : AiContextManager.State)
    (code : string) : Operation AiCodeReviewResult :=
  executeOperation "reviewCode" ReviewResult
    (parsed_by AiResponseParser.parseCodeReviewResponse
       (ask core s None (reviewCode_prompt code))).

Definition optimizePerformance_prompt (code : string) : string :=
  "Please analyze this code for performance issues and provide optimization suggestions:"
    +:+ JsString.LF +:+ JsString.LF +:+ code.

Definition optimizePerformance (core : IAiCoreService) (s : AiContextManager.State)
    (code : string) : Operation AiPerformanceResult :=
  executeOperation "optimizePerformance" PerformanceResult
    (parsed_by AiResponseParser.parsePerformanceResponse
       (ask core s None (optimizePerformance_prompt code))).

Definition analyzeSecurity_prompt (code : string) : string :=
  "Please analyze this code for security vulnerabilities and provide recommendations:"
    +:+ JsString.LF +:+ JsString.LF +:+ code.

Definition analyzeSecurity (core : IAiCoreService) (s : AiContextManager.State)
    (code : string) : Operation AiSecurityResult :=
  executeOperation "analyzeSecurity" SecurityResult
    (parsed_by AiResponseParser.parseSecurityResponse
       (ask core s None (analyzeSecurity_prompt code))).

Definition explainCode_prompt (code : string) : string :=
  "Please explain this code:" +:+ JsString.LF +:+ JsString.LF +:+ code.

(** [explainCode(code)] without the optional second argument, as the panel
    calls it: [buildContext(undefined)]. *)
Definition explainCode (core : IAiCoreService) (s : AiContextManager.State)
    (code : string) : Operation string :=
  executeOperation "explainCode" TextResult
    (message_of (ask core s None (explainCode_prompt code))).

Definition chat (core : IAiCoreService) (s : AiContextManager.State)
    (message : string) (context : option AiContext) : Operation AiChatResponse :=
  executeOperation "chat" ChatResponseResult (ask core s context message).

(** [const fileContext = await getFileContext(fileUri)] comes first: when it
    throws, nothing else of the operation runs. *)
Definition chatWithFile (core : IAiCoreService) (s : AiContextManager.State)
    (message fileUri : string) : Operation AiChatResponse :=
  executeOperation "chatWithFile" ChatResponseResult
    match core_getFileContext core fileUri with
    | Js.Rejected error => (Js.Rejected error, [], [])
    | Js.Fulfilled fileContext => ask core s (Some {["file" := fileContext]}) message
    end.

Definition chatWithSelection (core : IAiCoreService) (s : AiContextManager.State)
    (message fileUri : string) (range : IRange) : Operation AiChatResponse :=
  executeOperation "chatWithSelection" ChatResponseResult
    match core_getSelectionContext core fileUri range with
    | Js.Rejected error => (Js.Rejected error, [], [])
    | Js.Fulfilled selectionContext =>
        ask core s (Some {["selection" := selectionContext]}) message
    end.

End AssistantOperations.

(** An operation of the assistant that asks the chat providers relays the
    dispatch [d] of the core service: it called the providers that [d]
    called, the core service fired what [d] fired, and it settled as [d]
    did, with the result [result_of] makes of the merged response or with
    the very error of [d], firing one event of its own that says so. *)
Definition relays {R} (op : Operation R) (d : Dispatch AiChatResponse)
    (operationType : string) (result_of : AiChatResponse → R)
    (wrap : R → AssistantResult) : Prop :=
  op_invoked op = invoked d
  ∧ op_core_fired op = fired d
  ∧ match returned d with
    | Js.Fulfilled response =>
        op_returned op = Js.Fulfilled (result_of response)
        ∧ op_fired op = [AssistantResponseEvent operationType (wrap (result_of response))]
    | Js.Rejected error =>
        op_returned op = Js.Rejected error
        ∧ op_fired op = [AssistantErrorEvent error operationType]
    end.

(** Bytes that white space is made of: the ASCII white space and the bytes
    of characters beyond ASCII. *)
Definition whitish (c : ascii) : bool :=
  (JsText.ascii_white c || (128 <=? JsText.code c))%N.

Fixpoint blank (s : string) : Prop :=
  match s with
  | EmptyString => True
  | String c rest => whitish c = true ∧ blank rest
  end.

(** A word of ASCII characters none of which is white space. *)
Fixpoint solid (word : string) : bool :=
  match word with
  | EmptyString => true
  | String c rest => negb (whitish c) && solid rest
  end.

(** The last character of the string is none that white space is made of. *)
Fixpoint ends_solid (s : string) : Prop :=
  match s with
  | EmptyString => False
  | String c EmptyString => whitish c = false
  | String _ rest => ends_solid rest
  end.


(** The ASCII letters of [s] in lower case. *)
Fixpoint lower_ascii (s : string) : string :=
  match s with
  | EmptyString => ""
  | String c rest => String (JsText.fold_case c) (lower_ascii rest)
  end.

(** Every character of [s] is a decimal digit. *)
Fixpoint all_digits (s : string) : Prop :=
  match s with
  | EmptyString => True
  | String c rest => JsText.is_digit c = true ∧ all_digits rest
  end.

(** ** The panel widget

    The state of the widget that its operations read and write: the two
    flags and the message history. The DOM that mirrors them is left out, and
    so are time stamps and durations. What the widget fires on its four
    emitters is kept in one sequence, in the order of firing. *)

Inductive Sender := User | Assistant.

Record AiPanelMessage := mkMessage {
  m_type : Sender;
  m_content : string
}.

Record AiPanelResponse := mkPanelResponse {
  pr_type : string;
  pr_content : string;
  pr_codeBlocks : list string;
  pr_suggestions : list string
}.

Inductive PanelEvent :=
| PanelVisibilityChanged (visible : bool)
| MessageSent (message : string)
| ResponseReceived (response : AiPanelResponse)
| PanelError (message context : string).

Record Panel := mkPanel {
  isVisible : bool;
  isLoading : bool;
  messageHistory : list AiPanelMessage;
  panel_fired : list PanelEvent
}.

(** The operations of [IAiAssistantService] that the widget calls, each with
    the arguments the widget passes. *)
Record IAiAssistantService := mkAssistant {
  assistant_explainCode : string → Operation string;
  assistant_refactorCode : string → string → Operation string;
  assistant_fixBug : string → option string → Operation string;
  assistant_generateTests : string → option string → Operation string;
  assistant_reviewCode : string → Operation AiCodeReviewResult;
  assistant_optimizePerformance : string → Operation AiPerformanceResult;
  assistant_analyzeSecurity : string → Operation AiSecurityResult;
  assistant_chat : string → Operation AiChatResponse
}.

(** The refactored assistant service over a core service, with the context
    manager in state [s]. *)
Definition refactored_assistant (core : IAiCoreService) (s : AiContextManager.State)
  : IAiAssistantService :=
  mkAssistant (AssistantOperations.explainCode core s)
              (AssistantOperations.refactorCode core s)
              (AssistantOperations.fixBug core s)
              (AssistantOperations.generateTests core s)
              (AssistantOperations.reviewCode core s)
              (AssistantOperations.optimizePerformance core s)
              (AssistantOperations.analyzeSecurity core s)
              (λ message, AssistantOperations.chat core s message None).

(** What the two versions of the widget share word for word: the texts of
    the user messages, the responses, and the handlers of the events of the
    assistant. *)
Module PanelParts.

Definition explain_request (code : string) : string :=
  "Explain this code:" +:+ JsString.LF +:+ JsString.LF +:+ code.

Definition refactor_request (code instruction : string) : string :=
  "Refactor this code: " +:+ instruction +:+ JsString.LF +:+ JsString.LF +:+ code.

Definition fix_request (code : string) (error : option string) : string :=
  "Fix this bug"
    +:+ match AssistantOperations.given error with
        | Some error => ": " +:+ error
        | None => ""
        end
    +:+ JsString.LF +:+ JsString.LF +:+ code.

Definition test_request (code : string) (framework : option string) : string :=
  "Generate tests"
    +:+ match AssistantOperations.given framework with
        | Some framework => " using " +:+ framework
        | None => ""
        end
    +:+ " for this code:" +:+ JsString.LF +:+ JsString.LF +:+ code.

Definition review_request (code : string) : string :=
  "Review this code:" +:+ JsString.LF +:+ JsString.LF +:+ code.

Definition performance_request (code : string) : string :=
  "Optimize performance of this code:" +:+ JsString.LF +:+ JsString.LF +:+ code.

Definition security_request (code : string) : string :=
  "Analyze security of this code:" +:+ JsString.LF +:+ JsString.LF +:+ code.

Definition explain_response (explanation : string) : AiPanelResponse :=
  mkPanelResponse "explain" explanation [] [].

Definition refactor_response (refactoredCode : string) : AiPanelResponse :=
  mkPanelResponse "refactor" refactoredCode [refactoredCode] [].

Definition fix_response (fixedCode : string) : AiPanelResponse :=
  mkPanelResponse "fix" fixedCode [fixedCode] [].

Definition test_response (tests : string) : AiPanelResponse :=
  mkPanelResponse "test" tests [tests] [].

Definition review_response (review : AiCodeReviewResult) : AiPanelResponse :=
  mkPanelResponse "review" (review_summary review) []
                  (rs_message <$> review_suggestions review).

Definition performance_response (optimization : AiPerformanceResult) : AiPanelResponse :=
  mkPanelResponse "performance" (perf_summary optimization) []
                  (po_description <$> perf_optimizations optimization).

Definition security_response (security : AiSecurityResult) : AiPanelResponse :=
  mkPanelResponse "security" (sec_summary security) []
                  (sr_description <$> sec_recommendations security).

Definition chat_response (response : AiChatResponse) : AiPanelResponse :=
  mkPanelResponse "chat" (chat_message response)
                  (cb_code <$> chat_codeBlocks response) (chat_suggestions response).

Definition fire (event : PanelEvent) (s : Panel) : Panel :=
  mkPanel (isVisible s) (isLoading s) (messageHistory s) (panel_fired s ++ [event]).

Definition addMessage (message : AiPanelMessage) (s : Panel) : Panel :=
  mkPanel (isVisible s) (isLoading s) (messageHistory s ++ [message]) (panel_fired s).

Definition setLoading (loading : bool) (s : Panel) : Panel :=
  mkPanel (isVisible s) loading (messageHistory s) (panel_fired s).

Definition apology (error : Js.Error) : AiPanelMessage :=
  mkMessage Assistant ("Sorry, I encountered an error: " +:+ Js.message error).

(** [handleError(context, error)] of the widget: one event on [onError],
    then one message of the assistant. *)
Definition handleError (context : string) (error : Js.Error) (s : Panel) : Panel :=
  addMessage (apology error) (fire (PanelError (Js.message error) context) s).

(** The two handlers that the constructor subscribes to the assistant:
    [handleAssistantResponse] writes to the log, [handleAssistantError]
    calls [handleError(event.context, event.error)]. *)
Definition handleAssistantEvent (s : Panel) (event : AssistantEvent) : Panel :=
  match event with
  | AssistantResponseEvent _ _ => s
  | AssistantErrorEvent error context => handleError context error s
  end.

(** The handlers run as the assistant fires, before its promise settles. *)
Definition listen (events : list AssistantEvent) (s : Panel) : Panel :=
  foldl handleAssistantEvent s events.

End PanelParts.

(** The refactored widget ([AiPanelWidget] with [AiOperationManager] and
    [MessageHistoryManager]). *)
Module AiPanelWidget.

Import PanelParts.

(** [AiOperationManager.executeOperation]:
    [try { result = await operation(); onResponse(formatResponse(result)) }
     catch (error) { onError({ message, context: operationType }) }]. *)
Definition executeOperation {R} (operationType : string) (operation : Operation R)
    (formatResponse : R → AiPanelResponse) (s : Panel) : Panel :=
  let s := listen (op_fired operation) s in
  match op_returned operation with
  | Js.Fulfilled result => fire (ResponseReceived (formatResponse result)) s
  | Js.Rejected error => fire (PanelError (Js.message error) operationType) s
  end.

Definition addUserMessage (content : string) (s : Panel) : Panel :=
  addMessage (mkMessage User content) s.

(** [if (this.isLoading) return; setLoadingState(true); addUserMessage(...);
     await executeOperation(...); setLoadingState(false)] *)
Definition explainCode (assistant : IAiAssistantService) (code : string) (s : Panel) : Panel :=
  if isLoading s then s
  else
    let s := setLoading true s in
    let s := addUserMessage (explain_request code) s in
    let s := executeOperation "explainCode" (assistant_explainCode assistant code)
                              explain_response s in
    setLoading false s.

Definition refactorCode (assistant : IAiAssistantService) (code instruction : string)
    (s : Panel) : Panel :=
  if isLoading s then s
  else
    let s := setLoading true s in
    let s := addUserMessage (refactor_request code instruction) s in
    let s := executeOperation "refactorCode"
                              (assistant_refactorCode assistant code instruction)
                              refactor_response s in
    setLoading false s.

Definition fixBug (assistant : IAiAssistantService) (code : string) (error : option string)
    (s : Panel) : Panel :=
  if isLoading s then s
  else
    let s := setLoading true s in
    let s := addUserMessage (fix_request code error) s in
    let s := executeOperation "fixBug" (assistant_fixBug assistant code error)
                              fix_response s in
    setLoading false s.

Definition generateTests (assistant : IAiAssistantService) (code : string)
    (framework : option string) (s : Panel) : Panel :=
  if isLoading s then s
  else
    let s := setLoading true s in
    let s := addUserMessage (test_request code framework) s in
    let s := executeOperation "generateTests"
                              (assistant_generateTests assistant code framework)
                              test_response s in
    setLoading false s.

Definition reviewCode (assistant : IAiAssistantService) (code : string) (s : Panel) : Panel :=
  if isLoading s then s
  else
    let s := setLoading true s in
    let s := addUserMessage (review_request code) s in
    let s := executeOperation "reviewCode" (assistant_reviewCode assistant code)
                              review_response s in
    setLoading false s.

Definition optimizePerformance (assistant : IAiAssistantService) (code : string)
    (s : Panel) : Panel :=
  if isLoading s then s
  else
    let s := setLoading true s in
    let s := addUserMessage (performance_request code) s in
    let s := executeOperation "optimizePerformance"
                              (assistant_optimizePerformance assistant code)
                              performance_response s in
    setLoading false s.

Definition analyzeSecurity (assistant : IAiAssistantService) (code : string)
    (s : Panel) : Panel :=
  if isLoading s then s
  else
    let s := setLoading true s in
    let s := addUserMessage (security_request code) s in
    let s := executeOperation "analyzeSecurity" (assistant_analyzeSecurity assistant code)
                              security_response s in
    setLoading false s.

(** [if (this.isLoading || !message.trim()) return; ...;
     this._onMessageSent.fire(message); setLoadingState(false)] *)
Definition sendMessage (assistant : IAiAssistantService) (message : string) (s : Panel)
  : Panel :=
  if isLoading s || bool_decide (JsText.trim message = "") then s
  else
    let s := setLoading true s in
    let s := addUserMessage message s in
    let s := executeOperation "sendMessage" (assistant_chat assistant message)
                              chat_response s in
    let s := fire (MessageSent message) s in
    setLoading false s.

Definition clearHistory (s : Panel) : Panel :=
  mkPanel (isVisible s) (isLoading s) [] (panel_fired s).

End AiPanelWidget.

(** The first version of the widget, which keeps flags and history in its
    own fields. *)
Module LegacyPanel.

Import PanelParts.

(** The body that its operations repeat:
    [try { result = await ...; addMessage(user); addMessage(assistant);
           fire } catch (error) { handleError(operationType, error) }
     finally { this._isLoading = false }];
    [sent] is the message that [sendMessage] fires on [onMessageSent] before
    the response. *)
Definition attempt {R} (operationType : string) (operation : Operation R)
    (request : string) (formatResponse : R → AiPanelResponse) (sent : option string)
    (s : Panel) : Panel :=
  let s := setLoading true s in
  let s := listen (op_fired operation) s in
  let s :=
    match op_returned operation with
    | Js.Fulfilled result =>
        let response := formatResponse result in
        let s := addMessage (mkMessage User request) s in
        let s := addMessage (mkMessage Assistant (pr_content response)) s in
        let s := match sent with
                 | Some message => fire (MessageSent message) s
                 | None => s
                 end in
        fire (ResponseReceived response) s
    | Js.Rejected error => handleError operationType error s
    end in
  setLoading false s.

Definition explainCode (assistant : IAiAssistantService) (code : string) (s : Panel) : Panel :=
  if isLoading s then s
  else attempt "explainCode" (assistant_explainCode assistant code)
               (explain_request code) explain_response None s.

Definition refactorCode (assistant : IAiAssistantService) (code instruction : string)
    (s : Panel) : Panel :=
  if isLoading s then s
  else attempt "refactorCode" (assistant_refactorCode assistant code instruction)
               (refactor_request code instruction) refactor_response None s.

Definition fixBug (assistant : IAiAssistantService) (code : string) (error : option string)
    (s : Panel) : Panel :=
  if isLoading s then s
  else attempt "fixBug" (assistant_fixBug assistant code error)
               (fix_request code error) fix_response None s.

Definition generateTests (assistant : IAiAssistantService) (code : string)
    (framework : option string) (s : Panel) : Panel :=
  if isLoading s then s
  else attempt "generateTests" (assistant_generateTests assistant code framework)
               (test_request code framework) test_response None s.

Definition reviewCode (assistant : IAiAssistantService) (code : string) (s : Panel) : Panel :=
  if isLoading s then s
  else attempt "reviewCode" (assistant_reviewCode assistant code)
               (review_request code) review_response None s.

Definition optimizePerformance (assistant : IAiAssistantService) (code : string)
    (s : Panel) : Panel :=
  if isLoading s then s
  else attempt "optimizePerformance" (assistant_optimizePerformance assistant code)
               (performance_request code) performance_response None s.

Definition analyzeSecurity (assistant : IAiAssistantService) (code : string)
    (s : Panel) : Panel :=
  if isLoading s then s
  else attempt "analyzeSecurity" (assistant_analyzeSecurity assistant code)
               (security_request code) security_response None s.

Definition sendMessage (assistant : IAiAssistantService) (message : string) (s : Panel)
  : Panel :=
  if isLoading s || bool_decide (JsText.trim message = "") then s
  else attempt "sendMessage" (assistant_chat assistant message)
               message chat_response (Some message) s.

Definition clearHistory (s : Panel) : Panel :=
  mkPanel (isVisible s) (isLoading s) [] (panel_fired s).

End LegacyPanel.

(** The errors among the events of the assistant, in the order fired. *)
Definition error_events (events : list AssistantEvent) : list (Js.Error * string) :=
  omap (λ event, match event with
                 | AssistantErrorEvent error context => Some (error, context)
                 | AssistantResponseEvent _ _ => None
                 end) events.

(** The history after an operation of the refactored widget: the request of
    the user, then one apology for every error event of the assistant. *)
Definition request_and_apologies {R} (before after : Panel) (request : string)
    (operation : Operation R) : Prop :=
  messageHistory after
  = messageHistory before
    ++ mkMessage User request
       :: (PanelParts.apology ∘ fst <$> error_events (op_fired operation))
  ∧ isLoading after = false
  ∧ isVisible after = isVisible before.

(** The history after an operation of the first widget: one apology for
    every error event of the assistant, then request and answer when the
    assistant fulfilled, and one more apology when it rejected. *)
Definition answer_or_apologies {R} (before after : Panel) (request : string)
    (operation : Operation R) (content : R → string) : Prop :=
  messageHistory after
  = messageHistory before
    ++ (PanelParts.apology ∘ fst <$> error_events (op_fired operation))
    ++ match op_returned operation with
       | Js.Fulfilled result =>
           [mkMessage User request; mkMessage Assistant (content result)]
       | Js.Rejected error => [PanelParts.apology error]
       end
  ∧ isLoading after = false
  ∧ isVisible after = isVisible before.

(** ** Formatting a message for display

    [formatMessageContent] is the same in both versions of the widget: four
    global replacements by regular expression, one after the other. A
    replacement scans the text from the left; where the expression matches,
    the match is replaced and the scan goes on behind it, elsewhere one
    character is kept. *)

Module MessageFormat.

Import JsText.

(** What follows [word] at the front of [s], when [s] starts with it. *)
Fixpoint strip_prefix (word s : string) : option string :=
  match word with
  | EmptyString => Some s
  | String a word' =>
      match s with
      | String b s' => if Ascii.eqb a b then strip_prefix word' s' else None
      | EmptyString => None
      end
  end.

(** A line terminator stands at the front of [s]: line feed, carriage
    return, U+2028 or U+2029, the characters that [.] does not match. *)
Definition line_end (s : string) : bool :=
  match s with
  | String c1 rest =>
      (code c1 =? 10)%N || (code c1 =? 13)%N
      || match rest with
         | String c2 (String c3 _) =>
             (code c1 =? 226)%N && (code c2 =? 128)%N
             && ((code c3 =? 168)%N || (code c3 =? 169)%N)
         | _ => false
         end
  | EmptyString => false
  end.

(** [(.*?)D] at the front of [s]: the shortest run of characters other than
    line terminators that [D] follows, with what comes after that [D]. *)
Fixpoint lazy_until (delimiter s : string) : option (string * string) :=
  match strip_prefix delimiter s with
  | Some tail => Some (EmptyString, tail)
  | None =>
      match s with
      | String c rest =>
          if line_end s then None
          else match lazy_until delimiter rest with
               | Some (run, tail) => Some (String c run, tail)
               | None => None
               end
      | EmptyString => None
      end
  end.

(** [s.replace(/D(.*?)D/g, 'before$1after')] for a delimiter [D] of plain
    characters. *)
Fixpoint replace_delimited_go (fuel : nat) (delimiter before after s : string) : string :=
  match fuel with
  | O => s
  | S fuel' =>
      match s with
      | String c rest =>
          match strip_prefix delimiter s with
          | Some inner =>
              match lazy_until delimiter inner with
              | Some (run, tail) =>
                  before +:+ run +:+ after
                    +:+ replace_delimited_go fuel' delimiter before after tail
              | None => String c (replace_delimited_go fuel' delimiter before after rest)
              end
          | None => String c (replace_delimited_go fuel' delimiter before after rest)
          end
      | EmptyString => EmptyString
      end
  end.

Definition replace_delimited (delimiter before after s : string) : string :=
  replace_delimited_go (String.length s) delimiter before after s.

(** [\w]: a letter, a digit or the underscore. *)
Definition is_word (c : ascii) : bool :=
  ((48 <=? code c) && (code c <=? 57) || (65 <=? code c) && (code c <=? 90)
   || (97 <=? code c) && (code c <=? 122) || (code c =? 95))%N.

(** [(\w+)?] takes the longest run of word characters. *)
Fixpoint skip_word (s : string) : string :=
  match s with
  | String c rest => if is_word c then skip_word rest else s
  | EmptyString => EmptyString
  end.

(** [([\s\S]*?)D]: the shortest run of any characters that [D] follows. *)
Fixpoint lazy_any_until (delimiter s : string) : option (string * string) :=
  match strip_prefix delimiter s with
  | Some tail => Some (EmptyString, tail)
  | None =>
      match s with
      | String c rest =>
          match lazy_any_until delimiter rest with
          | Some (run, tail) => Some (String c run, tail)
          | None => None
          end
      | EmptyString => None
      end
  end.

(** The fence expression at the front of [s]: three backquotes, word
    characters if there are any, a line feed, then the shortest text that
    three backquotes follow; gives that text and what comes after. *)
Definition fence_here (s : string) : option (string * string) :=
  match strip_prefix "```" s with
  | Some opened =>
      match skip_word opened with
      | String c body => if (code c =? 10)%N then lazy_any_until "```" body else None
      | EmptyString => None
      end
  | None => None
  end.

Fixpoint replace_fences_go (fuel : nat) (s : string) : string :=
  match fuel with
  | O => s
  | S fuel' =>
      match s with
      | String c rest =>
          match fence_here s with
          | Some (block, tail) =>
              "<pre><code>" +:+ block +:+ "</code></pre>" +:+ replace_fences_go fuel' tail
          | None => String c (replace_fences_go fuel' rest)
          end
      | EmptyString => EmptyString
      end
  end.

Definition replace_fences (s : string) : string := replace_fences_go (String.length s) s.

Definition strong (s : string) : string := replace_delimited "**" "<strong>" "</strong>" s.
Definition emphasis (s : string) : string := replace_delimited "*" "<em>" "</em>" s.
Definition code_spans (s : string) : string := replace_delimited "`" "<code>" "</code>" s.

Definition formatMessageContent (content : string) : string :=
  replace_fences (code_spans (emphasis (strong content))).

End MessageFormat.

(** The character [c] occurs in [s]. *)
Fixpoint occurs (c : ascii) (s : string) : bool :=
  match s with
  | EmptyString => false
  | String a rest => Ascii.eqb c a || occurs c rest
  end.

(** No two backquotes of [s] stand side by side. *)
Fixpoint apart (s : string) : Prop :=
  match s with
  | String a rest =>
      match rest with
      | String b _ => ¬ (a = "`"%char ∧ b = "`"%char)
      | EmptyString => True
      end ∧ apart rest
  | EmptyString => True
  end.

(** No line terminator stands anywhere in [s]. *)
Fixpoint on_one_line (s : string) : bool :=
  match s with
  | EmptyString => true
  | String _ rest => negb (MessageFormat.line_end s) && on_one_line rest
  end.
(** * Properties *)

(** ** The accumulation loops of the merger *)

Section MergeLoops.

Lemma completion_loop (results : list AiCompletionResult) (acc : list AiCompletion)
    (m : Js.Target) :
  foldl (λ '(allCompletions, metadata) result,
           (allCompletions ++ cr_completions result,
            assign_metadata metadata (cr_metadata result)))
        (acc, m) results
  = (acc ++ concat (map cr_completions results),
     foldl assign_metadata m (map cr_metadata results)).
Proof.
  revert acc m. induction results as [|r rs IH]; intros acc m; simpl.
  - by rewrite app_nil_r.
  - rewrite IH. by rewrite <-app_assoc.
Qed.

Lemma chat_loop (results : list AiChatResponse) (blocks : list AiCodeBlock)
    (sugg : list string) (m : Js.Target) :
  foldl (λ '(allCodeBlocks, allSuggestions, metadata) result,
           (allCodeBlocks ++ chat_codeBlocks result,
            allSuggestions ++ chat_suggestions result,
            assign_metadata metadata (chat_metadata result)))
        (blocks, sugg, m) results
  = (blocks ++ concat (map chat_codeBlocks results),
     sugg ++ concat (map chat_suggestions results),
     foldl assign_metadata m (map chat_metadata results)).
Proof.
  revert blocks sugg m. induction results as [|r rs IH]; intros blocks sugg m; simpl.
  - by rewrite !app_nil_r.
  - rewrite IH. by rewrite <-!app_assoc.
Qed.

Lemma edit_loop (results : list AiCodeEditResult) (acc : list AiCodeEdit)
    (m : Js.Target) :
  foldl (λ '(allEdits, metadata) result,
           (allEdits ++ er_edits result,
            assign_metadata metadata (er_metadata result)))
        (acc, m) results
  = (acc ++ concat (map er_edits results),
     foldl assign_metadata m (map er_metadata results)).
Proof.
  revert acc m. induction results as [|r rs IH]; intros acc m; simpl.
  - by rewrite app_nil_r.
  - rewrite IH. by rewrite <-app_assoc.
Qed.

Lemma mergeCompletionResults_unfold (results : list AiCompletionResult) :
  mergeCompletionResults results
  = mkCompletionResult
      (Js.sort by_score
         (deduplicateCompletions (concat (map cr_completions results))))
      (Some (collect_metadata (map cr_metadata results))).
Proof. unfold mergeCompletionResults. by rewrite completion_loop. Qed.

Lemma mergeChatResults_unfold (results : list AiChatResponse) :
  mergeChatResults results
  = mkChatResponse (first_message results)
      (concat (map chat_codeBlocks results))
      (Js.set_of (concat (map chat_suggestions results)))
      (Some (collect_metadata (map chat_metadata results))).
Proof. unfold mergeChatResults. by rewrite chat_loop. Qed.

Lemma mergeCodeEditResults_unfold (results : list AiCodeEditResult) :
  mergeCodeEditResults results
  = mkCodeEditResult (concat (map er_edits results))
      (Some (first_explanation results))
      (Some (collect_metadata (map er_metadata results))).
Proof. unfold mergeCodeEditResults. by rewrite edit_loop. Qed.

End MergeLoops.

(** ** Metadata: key-wise union, the later provider wins *)

Section MetadataUnion.

Lemma last_writer_cons k (m : option Metadata) metas :
  last_writer k (m :: metas)
  = match last_writer k metas with
    | Some v => Some v
    | None => m ≫= (λ md, md !! k)
    end.
Proof.
  unfold last_writer, supplied. simpl.
  destruct (m ≫= _) as [v|] eqn:Hm; simpl.
  - rewrite last_cons. by destruct (last _).
  - by destruct (last _).
Qed.

(** A key other than [__proto__] is written as a property of the target's
    own, whatever the prototype of the target. *)
Lemma object_assign_lookup (target : Js.Target) (source : Metadata) k :
  k ≠ "__proto__" →
  Js.own (Js.object_assign target source) !! k
  = match source !! k with
    | Some v => Some v
    | None => Js.own target !! k
    end.
Proof.
  intros Hk.
  assert (Hwritten : (delete "__proto__" source ∪ Js.own target) !! k
                     = match source !! k with
                       | Some v => Some v
                       | None => Js.own target !! k
                       end).
  { rewrite lookup_union, lookup_delete_ne by done.
    destruct (source !! k), (Js.own target !! k); done. }
  unfold Js.object_assign. cbv zeta.
  destruct (source !! "__proto__") as [value|]; [|done].
  destruct (decide (is_Some (Js.own target !! "__proto__"))).
  { cbn [Js.own]. by rewrite lookup_insert_ne. }
  destruct (Js.prototype target), value; cbn [Js.own];
    rewrite ?lookup_insert_ne by done; done.
Qed.


Lemma assign_metadata_lookup (m : Js.Target) (o : option Metadata) k :
  k ≠ "__proto__" →
  Js.own (assign_metadata m o) !! k
  = match o ≫= (λ md, md !! k) with
    | Some v => Some v
    | None => Js.own m !! k
    end.
Proof.
  intros Hk. destruct o as [md|]; simpl; [|done]. by apply object_assign_lookup.
Qed.

Lemma foldl_assign_lookup metas (m : Js.Target) k :
  k ≠ "__proto__" →
  Js.own (foldl assign_metadata m metas) !! k
  = match last_writer k metas with
    | Some v => Some v
    | None => Js.own m !! k
    end.
Proof.
  intros Hk. revert m. induction metas as [|o metas IH]; intros m; simpl; [done|].
  rewrite IH, last_writer_cons, assign_metadata_lookup by done.
  by destruct (last_writer k metas).
Qed.

Lemma collect_metadata_lookup metas k :
  k ≠ "__proto__" → collect_metadata metas !! k = last_writer k metas.
Proof.
  intros Hk. unfold collect_metadata. rewrite foldl_assign_lookup by done.
  cbn [Js.own Js.empty_object]. rewrite lookup_empty.
  by destruct (last_writer k metas).
Qed.

(** Under the key [__proto__] a value that is neither an object nor [null]
    is dropped: the merged metadata has no such property, and its prototype
    stays [Object.prototype]. *)
Lemma proto_key_dropped metas :
  Forall (λ m : option Metadata,
            ∀ md v, m = Some md → md !! "__proto__" = Some v →
                    v ≠ Js.Null ∧ ∀ ref, v ≠ Js.Object ref) metas →
  collect_metadata metas !! "__proto__" = None
  ∧ Js.prototype (foldl assign_metadata Js.empty_object metas) = Js.ObjectPrototype.
Proof.
  unfold collect_metadata.
  assert (Hgen : ∀ target,
             Js.own target !! "__proto__" = None →
             Js.prototype target = Js.ObjectPrototype →
             Forall (λ m : option Metadata,
                       ∀ md v, m = Some md → md !! "__proto__" = Some v →
                               v ≠ Js.Null ∧ ∀ ref, v ≠ Js.Object ref) metas →
             Js.own (foldl assign_metadata target metas) !! "__proto__" = None
             ∧ Js.prototype (foldl assign_metadata target metas) = Js.ObjectPrototype).
  { induction metas as [|m metas IH]; intros target Hown Hproto Hall; [done|].
    apply Forall_cons in Hall as [Hm Hall]. cbn [foldl].
    assert (Hstep : Js.own (assign_metadata target m) !! "__proto__" = None
                    ∧ Js.prototype (assign_metadata target m) = Js.ObjectPrototype).
    { destruct m as [md|]; cbn [assign_metadata]; [|done].
      unfold Js.object_assign. cbv zeta.
      assert (Hwritten : (delete "__proto__" md ∪ Js.own target) !! "__proto__" = None)
        by by rewrite lookup_union, lookup_delete_eq, Hown.
      destruct (md !! "__proto__") as [v|] eqn:Hv; [|done].
      rewrite decide_False by (rewrite Hown; by intros [? [=]]).
      rewrite Hproto. destruct (Hm md v eq_refl Hv) as [Hnull Hobject].
      destruct v; try done. by destruct (Hobject ref). }
    destruct Hstep as [Hown' Hproto']. by apply IH. }
  intros Hall. by apply Hgen.
Qed.

End MetadataUnion.

(** C10, as stated, fails: a provider whose metadata has the key
    [__proto__] of its own, here with a string as its value, supplies that
    key last, and the merged metadata does not have it: the assignment hands
    the value to the accessor of [Object.prototype], which drops it. *)
Lemma merged_metadata_drops_proto_key :
  last_writer "__proto__" (map cr_metadata [proto_result]) = Some (Js.Str "x")
  ∧ cr_metadata (mergeCompletionResults [proto_result]) = Some ∅
  ∧ ¬ (∃ md, cr_metadata (mergeCompletionResults [proto_result]) = Some md
             ∧ ∀ k, md !! k = last_writer k (map cr_metadata [proto_result])).
Proof.
  assert (Hmerged : cr_metadata (mergeCompletionResults [proto_result]) = Some ∅)
    by by vm_compute.
  split; [by vm_compute|]. split; [done|].
  intros (md & Hmd & Hkeys). rewrite Hmerged in Hmd. injection Hmd as <-.
  specialize (Hkeys "__proto__"). rewrite lookup_empty in Hkeys.
  by vm_compute in Hkeys.
Qed.

(** C10, amended. In each of the three merges, when no provider supplies an
    object under the key [__proto__], the merged metadata is an object whose
    value at every key other than [__proto__] is the one supplied by the
    provider latest in registration order among those supplying that key,
    and such a key is absent when no provider supplies it; providers without
    metadata supply nothing. *)
Theorem merged_metadata_last_writer_wins :
  (∀ (results : list AiCompletionResult),
      no_object_prototype (map cr_metadata results) →
      ∃ md, cr_metadata (mergeCompletionResults results) = Some md
            ∧ ∀ k, k ≠ "__proto__" → md !! k = last_writer k (map cr_metadata results))
  ∧ (∀ (results : list AiChatResponse),
      no_object_prototype (map chat_metadata results) →
      ∃ md, chat_metadata (mergeChatResults results) = Some md
            ∧ ∀ k, k ≠ "__proto__" → md !! k = last_writer k (map chat_metadata results))
  ∧ (∀ (results : list AiCodeEditResult),
      no_object_prototype (map er_metadata results) →
      ∃ md, er_metadata (mergeCodeEditResults results) = Some md
            ∧ ∀ k, k ≠ "__proto__" → md !! k = last_writer k (map er_metadata results)).
Proof.
  split; [|split]; intros results _; eexists; split.
  - by rewrite mergeCompletionResults_unfold.
  - apply collect_metadata_lookup.
  - by rewrite mergeChatResults_unfold.
  - apply collect_metadata_lookup.
  - by rewrite mergeCodeEditResults_unfold.
  - apply collect_metadata_lookup.
Qed.

(** Two providers that both supply [provider], the second one also a number
    under [__proto__]: the later value of [provider] is the merged one. *)
Lemma merged_metadata_last_writer_wins_witness :
  ∃ md, cr_metadata (mergeCompletionResults [named_result; renamed_result]) = Some md
        ∧ md !! "provider" = Some (Js.Str "second")
        ∧ md !! "model" = Some (Js.Str "m1").
Proof.
  destruct merged_metadata_last_writer_wins as [Hcompletion _].
  destruct (Hcompletion [named_result; renamed_result]) as (md & Hmd & Hkeys).
  { repeat constructor; intros md ref [= <-]; by vm_compute. }
  exists md. split; [exact Hmd|].
  split; (rewrite Hkeys by done; by vm_compute).
Defined.

(** ** AiContextManager: overlay and bounded history *)

Section ContextManager.

Import AiContextManager.

Lemma copy_object (o : AiContext) : Js.spread1 o = o.
Proof. unfold Js.spread1. apply (right_id_L ∅ (∪)). Qed.

Lemma spread2_lookup (a b : AiContext) k :
  Js.spread2 a b !! k
  = match b !! k with
    | Some v => Some v
    | None => a !! k
    end.
Proof.
  unfold Js.spread2. rewrite copy_object, lookup_union.
  destruct (b !! k), (a !! k); done.
Qed.

Lemma getCurrentContext_copy (s : State) : getCurrentContext s = currentContext s.
Proof. apply copy_object. Qed.

Lemma assistant_setContext_same context s :
  AiAssistantService.setContext context s = setContext context s.
Proof. reflexivity. Qed.

Lemma addToHistory_drop (c : AiContext) (h : list AiContext) :
  length h ≤ maxHistorySize →
  addToHistory c h = drop (length (h ++ [c]) - maxHistorySize) (h ++ [c]).
Proof.
  intros Hlen. unfold addToHistory. cbv zeta.
  rewrite length_app. simpl length.
  destruct (decide (maxHistorySize < length h + 1)) as [Hgt|Hle].
  - replace (length h + 1 - maxHistorySize) with 1 by lia.
    by destruct (h ++ [c]).
  - replace (length h + 1 - maxHistorySize) with 0 by lia. done.
Qed.

Lemma addToHistory_length (c : AiContext) (h : list AiContext) :
  length h ≤ maxHistorySize → length (addToHistory c h) ≤ maxHistorySize.
Proof.
  intros Hlen. rewrite addToHistory_drop by done.
  rewrite length_drop, length_app. simpl. lia.
Qed.

Lemma setContexts_history (updates : list AiContext) (s : State) :
  length (contextHistory s) ≤ maxHistorySize →
  contextHistory (setContexts updates s)
  = drop (length (contextHistory s ++ snapshots updates s) - maxHistorySize)
         (contextHistory s ++ snapshots updates s).
Proof.
  revert s. induction updates as [|u us IH]; intros s Hlen.
  - simpl. rewrite app_nil_r.
    replace (length (contextHistory s) - maxHistorySize) with 0 by lia. done.
  - change (setContexts (u :: us) s) with (setContexts us (setContext u s).1).
    change (snapshots (u :: us) s)
      with (currentContext s :: snapshots us (setContext u s).1).
    set (s1 := (setContext u s).1).
    assert (Hh1 : contextHistory s1
                  = drop (length (contextHistory s ++ [currentContext s]) - maxHistorySize)
                         (contextHistory s ++ [currentContext s])).
    { subst s1. simpl. rewrite copy_object. by apply addToHistory_drop. }
    assert (Hl1 : length (contextHistory s1) ≤ maxHistorySize).
    { subst s1. simpl. by apply addToHistory_length. }
    rewrite (IH s1 Hl1), Hh1.
    set (d := length (contextHistory s ++ [currentContext s]) - maxHistorySize).
    assert (Hd : d ≤ length (contextHistory s ++ [currentContext s])) by (subst d; lia).
    rewrite <-(drop_app_le _ (snapshots us s1) d) by done.
    rewrite drop_drop, <-app_assoc. simpl.
    f_equal. rewrite length_drop. rewrite !length_app in *. simpl in *. subst d.
    rewrite !length_app. simpl. lia.
Qed.

Lemma snapshots_length (updates : list AiContext) (s : State) :
  length (snapshots updates s) = length updates.
Proof. revert s. induction updates; intros s; simpl; auto. Qed.

End ContextManager.

(** C7. [setContext] is a shallow field-wise overlay, in the context manager
    and in the second version of the assistant service alike: a field present
    in the update takes the update's value, a field absent from it keeps its
    prior value. Setting [language] and then [framework] leaves both set,
    and every other field as it was. *)
Theorem setContext_shallow_overlay :
  (∀ (s : AiContextManager.State) (update : AiContext) (k : string),
      AiContextManager.currentContext (AiContextManager.setContext update s).1 !! k
      = match update !! k with
        | Some v => Some v
        | None => AiContextManager.currentContext s !! k
        end)
  ∧ (∀ (s : AiContextManager.State) (update : AiContext) (k : string),
      AiContextManager.currentContext (AiAssistantService.setContext update s).1 !! k
      = match update !! k with
        | Some v => Some v
        | None => AiContextManager.currentContext s !! k
        end)
  ∧ (∀ (s : AiContextManager.State),
      let s2 := (AiContextManager.setContext {["framework" := Js.Str "react"]}
                  (AiContextManager.setContext {["language" := Js.Str "ts"]} s).1).1 in
      AiContextManager.currentContext s2 !! "language" = Some (Js.Str "ts")
      ∧ AiContextManager.currentContext s2 !! "framework" = Some (Js.Str "react")
      ∧ ∀ k, k ∉ ["language"; "framework"] →
             AiContextManager.currentContext s2 !! k
             = AiContextManager.currentContext s !! k).
Proof.
  split; [|split].
  - intros s update k. simpl. apply spread2_lookup.
  - intros s update k. simpl. apply spread2_lookup.
  - intros s. cbn zeta. simpl. repeat split.
    + rewrite !spread2_lookup.
      by rewrite (lookup_singleton_ne "framework" "language"), lookup_singleton_eq.
    + rewrite spread2_lookup. by rewrite lookup_singleton_eq.
    + intros k Hk. rewrite !spread2_lookup.
      rewrite !lookup_singleton_ne; [done|set_solver..].
Qed.

(** C8. Starting from a fresh or a cleared context, after [n] calls of
    [setContext] the history holds [min n 10] entries: the snapshots taken
    before the most recent calls, in call order, the oldest ones evicted.
    After fifteen calls these are the snapshots taken before calls 6 to 15. *)
Theorem history_bounded_fifo (updates : list AiContext) (s0 : AiContextManager.State) :
  AiContextManager.clearContext s0 = AiContextManager.fresh
  ∧ AiAssistantService.clearContext s0 = AiContextManager.fresh
  ∧ (∀ update s, AiAssistantService.setContext update s
                 = AiContextManager.setContext update s)
  ∧ (let s := AiContextManager.setContexts updates AiContextManager.fresh in
     length (AiContextManager.contextHistory s) = length updates `min` 10
     ∧ AiContextManager.contextHistory s
       = drop (length updates - 10)
              (AiContextManager.snapshots updates AiContextManager.fresh))
  ∧ AiContextManager.contextHistory
      (AiContextManager.setContexts fifteen_updates AiContextManager.fresh)
    = (λ n, numbered (Z.of_nat n)) <$> seq 5 10.
Proof.
  split; [done|]. split; [done|]. split; [done|]. split; [|by vm_compute].
  intros s.
  assert (Hh := setContexts_history updates AiContextManager.fresh).
  simpl in Hh. rewrite snapshots_length in Hh.
  specialize (Hh ltac:(unfold AiContextManager.maxHistorySize; lia)).
  subst s. rewrite Hh. split; [|done].
  rewrite length_drop, snapshots_length. unfold AiContextManager.maxHistorySize. lia.
Qed.

(** ** Ordered sets: [new Set(items)] keeps first occurrences *)

Section OrderedSetFacts.
Context {A : Type} `{EqDecision A}.

Lemma set_of_from (acc l : list A) :
  foldl Js.set_add acc l = acc ++ filter (λ y, y ∉ acc) (first_occurrences l).
Proof.
  revert acc. induction l as [|x l IH]; intros acc; simpl.
  - by rewrite app_nil_r.
  - rewrite IH. unfold Js.set_add. destruct (decide (x ∈ acc)) as [Hin|Hnin].
    + rewrite filter_cons_False by (intros ?; done).
      f_equal. rewrite list_filter_filter_l; [done|]. intros y Hy ->. done.
    + rewrite filter_cons_True by done. rewrite <-app_assoc. simpl. do 2 f_equal.
      rewrite list_filter_filter. apply list_filter_iff. intros y.
      rewrite elem_of_app, list_elem_of_singleton. tauto.
Qed.

Lemma set_of_first_occurrences (l : list A) : Js.set_of l = first_occurrences l.
Proof.
  unfold Js.set_of. rewrite set_of_from. simpl.
  rewrite (list_filter_iff _ (λ _, True)); [|intros y; split; [done|intros _; apply not_elem_of_nil]].
  induction (first_occurrences l) as [|y ys IHy]; [done|].
  rewrite filter_cons_True by done. by f_equal.
Qed.

Lemma first_occurrences_elem_of (l : list A) x : x ∈ first_occurrences l ↔ x ∈ l.
Proof.
  induction l as [|z l IH]; simpl; [done|].
  rewrite !elem_of_cons, list_elem_of_filter, IH.
  destruct (decide (x = z)); tauto.
Qed.

Lemma first_occurrences_NoDup (l : list A) : NoDup (first_occurrences l).
Proof.
  induction l as [|z l IH]; simpl; [constructor|].
  apply NoDup_cons. split.
  - rewrite list_elem_of_filter. by intros [? _].
  - by apply NoDup_filter.
Qed.

Lemma filter_split (P : A → Prop) `{!∀ x, Decision (P x)} (l a b : list A) x :
  filter P l = a ++ x :: b →
  ∃ a' b', l = a' ++ x :: b' ∧ filter P a' = a ∧ filter P b' = b.
Proof.
  revert a. induction l as [|z l IH]; intros a Hf.
  - by destruct a.
  - rewrite filter_cons in Hf. destruct (decide (P z)) as [HP|HP].
    + destruct a as [|a0 a]; simpl in Hf; simplify_eq.
      * exists [], l. by rewrite filter_nil.
      * destruct (IH a) as (a' & b' & -> & <- & <-); [done|].
        exists (a0 :: a'), b'. by rewrite filter_cons_True.
    + destruct (IH a Hf) as (a' & b' & -> & <- & <-).
      exists (z :: a'), b'. by rewrite filter_cons_False.
Qed.

Lemma first_occurrences_order (l : list A) x y :
  stands_before x y (first_occurrences l) → first_occurs_before x y l.
Proof.
  revert x y. induction l as [|z l IH]; intros x y (o1 & o2 & Ho & Hy).
  - by destruct o1.
  - simpl in Ho. destruct o1 as [|o0 o1]; simpl in Ho; simplify_eq.
    + apply list_elem_of_filter in Hy as [Hne Hy].
      rewrite first_occurrences_elem_of in Hy.
      exists [], l. repeat split; try done; apply not_elem_of_nil.
    + assert (Hx : x ∈ filter (λ y0, y0 ≠ o0) (first_occurrences l)).
      { rewrite H0. apply elem_of_app. right. by left. }
      apply list_elem_of_filter in Hx as [Hxz _].
      apply filter_split in H0 as (a' & b' & Hfo & <- & <-).
      apply list_elem_of_filter in Hy as [Hyz Hy].
      destruct (IH x y) as (l1 & l2 & -> & Hx1 & Hy1 & Hxy & Hy2).
      { by exists a', b'. }
      exists (o0 :: l1), l2. repeat split; try done.
      * apply not_elem_of_cons. done.
      * apply not_elem_of_cons. done.
Qed.

End OrderedSetFacts.

Lemma elem_of_concat_map {A B} (f : A → list B) (l : list A) (x : B) :
  x ∈ concat (map f l) ↔ ∃ r, r ∈ l ∧ x ∈ f r.
Proof.
  induction l as [|a l IH]; simpl.
  - split; [by intros ?%elem_of_nil|]. by intros (r & ?%elem_of_nil & _).
  - rewrite elem_of_app, IH. split.
    + intros [Hx|(r & Hr & Hx)]; [exists a|exists r]; split; try done; [by left|by right].
    + intros (r & [->|Hr]%elem_of_cons & Hx); [by left|right; by exists r].
Qed.

(** ** Chat merge *)

(** C3, as stated, fails: when the first provider answers with an empty
    message and the second with "Hello", the merged message is empty, not
    the first non-empty one. *)
Lemma chat_message_first_nonempty_fails :
  first_nonempty_message [silent_response; P2_response] = "Hello"
  ∧ chat_message (mergeChatResults [silent_response; P2_response]) = ""
  ∧ chat_message (mergeChatResults [silent_response; P2_response])
    ≠ first_nonempty_message [silent_response; P2_response].
Proof. vm_compute. repeat split; done. Qed.

(** C3, amended. For the responses [first :: others] of the chat providers in
    registration order, the merged response has the message of the first
    provider (empty when that one is empty), the code blocks of all
    providers concatenated in registration order, and as suggestions the
    suggestions of all providers without duplicates, each standing where it
    first occurs. With P1 = ("Hi", [a, b]) and P2 = ("Hello", [b, c]) the
    merged message is "Hi" and the suggestions are [a, b, c]. *)
Theorem mergeChatResults_registration_order :
  (∀ (first : AiChatResponse) (others : list AiChatResponse),
      let results := first :: others in
      let merged := mergeChatResults results in
      let allSuggestions := concat (map chat_suggestions results) in
      chat_message merged = chat_message first
      ∧ chat_codeBlocks merged = concat (map chat_codeBlocks results)
      ∧ chat_suggestions merged = first_occurrences allSuggestions
      ∧ NoDup (chat_suggestions merged)
      ∧ (∀ x, x ∈ chat_suggestions merged
              ↔ ∃ r, r ∈ results ∧ x ∈ chat_suggestions r)
      ∧ (∀ x y, stands_before x y (chat_suggestions merged)
                → first_occurs_before x y allSuggestions))
  ∧ chat_message (mergeChatResults [P1_response; P2_response]) = "Hi"
  ∧ chat_suggestions (mergeChatResults [P1_response; P2_response]) = ["a"; "b"; "c"].
Proof.
  split; [|by vm_compute].
  intros first others results merged allSuggestions.
  subst merged. rewrite mergeChatResults_unfold.
  cbn [chat_message chat_codeBlocks chat_suggestions].
  fold allSuggestions. rewrite set_of_first_occurrences.
  repeat split.
  - apply first_occurrences_NoDup.
  - rewrite first_occurrences_elem_of. apply elem_of_concat_map.
  - rewrite first_occurrences_elem_of. apply elem_of_concat_map.
  - apply first_occurrences_order.
Qed.

(** ** Promise.all *)

Section PromiseAll.
Context {T : Type}.

Lemma first_rejection_None (ps : list (Js.Settled T)) :
  Js.first_rejection ps = None
  ↔ Forall (λ p, ∃ v, Js.outcome p = Js.Fulfilled v) ps.
Proof.
  induction ps as [|p ps IH]; simpl.
  - split; [constructor|done].
  - rewrite Forall_cons. destruct (Js.outcome p) as [v|e] eqn:Hp.
    + rewrite IH. split; [|tauto]. intros H. split; [by exists v|done].
    + split.
      * destruct (Js.first_rejection ps) as [[t' e']|]; [|done].
        by destruct (_ <=? _).
      * by intros [[v [=]] _].
Qed.

Lemma first_rejection_Some (ps : list (Js.Settled T)) t e :
  Js.first_rejection ps = Some (t, e) →
  ∃ p, p ∈ ps ∧ Js.outcome p = Js.Rejected e ∧ Js.settle_time p = t
       ∧ ∀ q e', q ∈ ps → Js.outcome q = Js.Rejected e' → t ≤ Js.settle_time q.
Proof.
  revert t e. induction ps as [|p ps IH]; intros t e; simpl; [done|].
  destruct (Js.outcome p) as [v|e0] eqn:Hp.
  - intros (p' & Hin & Ho & Ht & Hmin)%IH. exists p'.
    split; [by right|]. do 2 (split; [done|]).
    intros q e' [->|Hq]%elem_of_cons Hq'; [congruence|by eapply Hmin].
  - destruct (Js.first_rejection ps) as [[t' e']|] eqn:Hfr.
    + destruct (IH _ _ eq_refl) as (p' & Hin & Ho & Ht & Hmin).
      destruct (Js.settle_time p <=? t') eqn:Hle; intros [= <- <-].
      * apply Nat.leb_le in Hle. exists p. split; [by left|]. do 2 (split; [done|]).
        intros q e'' [->|Hq]%elem_of_cons Hq'; [done|].
        etrans; [exact Hle|by eapply Hmin].
      * apply Nat.leb_gt in Hle. exists p'. split; [by right|]. do 2 (split; [done|]).
        intros q e'' [->|Hq]%elem_of_cons Hq'; [lia|by eapply Hmin].
    + intros [= <- <-]. exists p. split; [by left|]. do 2 (split; [done|]).
      intros q e'' [->|Hq]%elem_of_cons Hq'; [done|].
      apply first_rejection_None in Hfr.
      rewrite Forall_forall in Hfr. destruct (Hfr q Hq) as [v Hv]. congruence.
Qed.

Lemma all_fulfilled_values (ps : list (Js.Settled T)) :
  Forall (λ p, ∃ v, Js.outcome p = Js.Fulfilled v) ps →
  map Js.outcome ps = map Js.Fulfilled (omap Js.fulfilled_value ps).
Proof.
  induction 1 as [|p ps [v Hv] _ IH]; [done|].
  simpl. unfold Js.fulfilled_value at 1. rewrite Hv. simpl. by rewrite IH.
Qed.

Lemma map_Fulfilled_inj (l1 l2 : list T) :
  map Js.Fulfilled l1 = map (@Js.Fulfilled T) l2 → l1 = l2.
Proof.
  revert l2. induction l1 as [|x l1 IH]; intros [|y l2]; simpl; try done.
  intros [= -> H]. f_equal. by apply IH.
Qed.

End PromiseAll.

(** ** The dispatch skeleton *)

Section TryDispatch.
Context {R : Type}.
Implicit Types (guard : option Js.Error) (registered : list Provider)
  (call : Provider → Js.Settled R) (merge : list R → R).

Lemma try_dispatch_guard guard registered call merge type wrap operation error :
  guard = Some error →
  try_dispatch guard registered call merge type wrap operation
  = mkDispatch (Js.Rejected error) [] [AiErrorEvent error operation].
Proof. by intros ->. Qed.

Lemma try_dispatch_invoked guard registered call merge type wrap operation :
  invoked (try_dispatch guard registered call merge type wrap operation)
  = match guard with Some _ => [] | None => registered end.
Proof.
  unfold try_dispatch. destruct guard; [done|]. by destruct (Js.promise_all _).
Qed.

End TryDispatch.

(** ** Dispatch with no provider of the requested kind *)

(** In the first version of the service each operation looks at the list of
    its own kind: with that list empty the dispatch rejects at once with the
    no-providers error of the kind, calls no provider, and fires one error
    event; whatever the other collections hold. *)
Lemma legacy_dispatch_no_providers (r : Registry) (a : Answers)
    (query message : string) (context : AiContext) (request : AiCodeEditRequest) :
  (completionProviders r = [] →
     Legacy.getCompletion r a query context
     = mkDispatch (Js.Rejected (Js.mkError "No code completion providers registered")) []
         [AiErrorEvent (Js.mkError "No code completion providers registered") "getCompletion"])
  ∧ (chatProviders r = [] →
     Legacy.getChatResponse r a message context
     = mkDispatch (Js.Rejected (Js.mkError "No chat providers registered")) []
         [AiErrorEvent (Js.mkError "No chat providers registered") "getChatResponse"])
  ∧ (codeEditProviders r = [] →
     Legacy.getCodeEdit r a request
     = mkDispatch (Js.Rejected (Js.mkError "No code edit providers registered")) []
         [AiErrorEvent (Js.mkError "No code edit providers registered") "getCodeEdit"]).
Proof.
  unfold Legacy.getCompletion, Legacy.getChatResponse, Legacy.getCodeEdit.
  repeat split; intros ->; done.
Qed.

(** The refactored service gates every operation on the map of general
    providers: a registry without general providers rejects every dispatch
    without calling a provider, also when providers of the kind are
    registered. *)
Lemma refactored_dispatch_gate (r : Registry) (a : Answers)
    (query message : string) (context : AiContext) (request : AiCodeEditRequest) :
  providers r = ∅ →
  AiCoreService.getCompletion r a query context
  = mkDispatch (Js.Rejected (Js.mkError "No AI providers registered for completion")) []
      [AiErrorEvent (Js.mkError "No AI providers registered for completion") "getCompletion"]
  ∧ AiCoreService.getChatResponse r a message context
    = mkDispatch (Js.Rejected (Js.mkError "No AI providers registered for chat")) []
        [AiErrorEvent (Js.mkError "No AI providers registered for chat") "getChatResponse"]
  ∧ AiCoreService.getCodeEdit r a request
    = mkDispatch (Js.Rejected (Js.mkError "No AI providers registered for code edit")) []
        [AiErrorEvent (Js.mkError "No AI providers registered for code edit") "getCodeEdit"].
Proof.
  intros Hr.
  unfold AiCoreService.getCompletion, AiCoreService.getChatResponse,
    AiCoreService.getCodeEdit, AiCoreService.validateProvidersExist,
    AiProviderManager.isEnabled.
  rewrite Hr, map_size_empty. done.
Qed.

(** C1 at the failing input: with one general provider registered and no
    provider of any kind, the three operations of the refactored service pass
    their check, call no provider, and return an empty merged result instead
    of the no-providers error. *)
Theorem dispatch_with_general_provider_only (a : Answers)
    (query message : string) (context : AiContext) (request : AiCodeEditRequest) :
  completionProviders general_only = []
  ∧ chatProviders general_only = []
  ∧ codeEditProviders general_only = []
  ∧ AiCoreService.getCompletion general_only a query context
    = mkDispatch (Js.Fulfilled (mkCompletionResult [] (Some ∅))) []
        [AiResponseEvent "completion" (CompletionResult (mkCompletionResult [] (Some ∅)))]
  ∧ AiCoreService.getChatResponse general_only a message context
    = mkDispatch (Js.Fulfilled (mkChatResponse "" [] [] (Some ∅))) []
        [AiResponseEvent "chat" (ChatResult (mkChatResponse "" [] [] (Some ∅)))]
  ∧ AiCoreService.getCodeEdit general_only a request
    = mkDispatch (Js.Fulfilled (mkCodeEditResult [] (Some "") (Some ∅))) []
        [AiResponseEvent "codeEdit" (CodeEditResult (mkCodeEditResult [] (Some "") (Some ∅)))].
Proof. repeat split. Qed.

(** ** Strict failure policy *)

Section ThrowingCalls.

Import ProviderCall.
Context {R : Type}.
Implicit Types (call : Provider → Call R) (merge : list R → R).

Lemma map_calls_thrown call registered called error :
  map_calls call registered = (called, inl error) →
  ∃ before p, called = before ++ [p]
              ∧ called `prefix_of` registered
              ∧ call p = Throws error.
Proof.
  revert called. induction registered as [|q rest IH]; intros called; [done|].
  cbn [map_calls]. destruct (call q) as [e|promise] eqn:Hq.
  - intros [= <- <-]. exists [], q. split; [done|]. split; [|done].
    by exists rest.
  - destruct (map_calls call rest) as [called' [e|promises]]; [|done].
    intros [= <- <-]. destruct (IH called' eq_refl) as (before & p & -> & Hpre & Hp).
    exists (q :: before), p. split; [done|]. split; [|done].
    by apply prefix_cons.
Qed.

Lemma map_calls_returned call registered called promises :
  map_calls call registered = (called, inr promises) →
  called = registered ∧ map call registered = map Returns promises.
Proof.
  revert called promises.
  induction registered as [|q rest IH]; intros called promises.
  { by intros [= <- <-]. }
  cbn [map_calls]. destruct (call q) as [e|promise] eqn:Hq; [done|].
  destruct (map_calls call rest) as [called' [e|promises']]; [done|].
  intros [= <- <-]. destruct (IH called' promises' eq_refl) as [-> Hmap].
  split; [done|]. cbn [map]. by rewrite Hq, Hmap.
Qed.

Lemma returned_calls call registered (promises : list (Js.Settled R)) :
  map call registered = map Returns promises →
  (∀ q, q ∈ registered → ∃ promise, promise ∈ promises ∧ call q = Returns promise)
  ∧ (∀ promise, promise ∈ promises → ∃ q, q ∈ registered ∧ call q = Returns promise)
  ∧ map (λ p, succeeded (call p)) registered = map Js.fulfilled_value promises.
Proof.
  revert promises. induction registered as [|q rest IH]; intros [|promise promises];
    try done.
  { intros _. split; [by intros ? ?%elem_of_nil|]. split; [|done].
    by intros ? ?%elem_of_nil. }
  cbn [map]. intros [= Hq Hrest]. destruct (IH promises Hrest) as (Hto & Hfrom & Hvalues).
  split; [|split].
  - intros q' [->|Hq']%elem_of_cons.
    + exists promise. split; [by left|done].
    + destruct (Hto q' Hq') as (promise' & Hin & Hcall).
      exists promise'. split; [by right|done].
  - intros promise' [->|Hin]%elem_of_cons.
    + exists q. split; [by left|done].
    + destruct (Hfrom promise' Hin) as (q' & Hq' & Hcall).
      exists q'. split; [by right|done].
  - by rewrite Hq, Hvalues.
Qed.

Lemma fulfilled_values (promises : list (Js.Settled R)) :
  Forall (λ p, ∃ v, Js.outcome p = Js.Fulfilled v) promises →
  map Js.fulfilled_value promises = map Some (omap Js.fulfilled_value promises).
Proof.
  induction 1 as [|p ps [v Hv] _ IH]; [done|].
  assert (Hp : Js.fulfilled_value p = Some v) by (unfold Js.fulfilled_value; by rewrite Hv).
  simpl. rewrite Hp. simpl. by rewrite IH.
Qed.

Lemma succeeded_failed (c : Call R) : is_Some (succeeded c) ↔ failed c = None.
Proof.
  destruct c as [e|promise]; cbn [succeeded failed].
  - split; [intros [? [=]]|intros [=]].
  - unfold Js.fulfilled_value. destruct (Js.outcome promise) as [v|e].
    + split; [done|]. intros _. by exists v.
    + split; [intros [? [=]]|intros [=]].
Qed.

(** The first version: the providers are called one after the other until
    one throws. *)
Lemma dispatch_direct_all_or_nothing registered call merge type wrap operation :
  registered ≠ [] →
  all_or_nothing (dispatch_direct None registered call merge type wrap operation)
                 registered call merge operation.
Proof.
  intros Hsome. unfold all_or_nothing, dispatch_direct.
  destruct (map_calls call registered) as [called [error|promises]] eqn:Hmap.
  - apply map_calls_thrown in Hmap as (before & p & -> & Hprefix & Hp).
    cbn [invoked returned fired].
    assert (Hin : p ∈ before ++ [p]) by (apply elem_of_app; right; by left).
    split; [by destruct before|]. split; [done|]. split; [|split].
    + split; [by intros [? [=]]|].
      intros Hall. rewrite Forall_forall in Hall.
      specialize (Hall p Hin). rewrite Hp in Hall. by destruct Hall.
    + by intros v [=].
    + intros _. exists p, error. rewrite Hp. split; [done|]. split; [done|].
      split; [done|]. split; [done|]. by left.
  - apply map_calls_returned in Hmap as [-> Hmap].
    destruct (returned_calls _ _ _ Hmap) as (Hto & Hfrom & Hvalues).
    unfold Js.promise_all.
    destruct (Js.first_rejection promises) as [[t e]|] eqn:Hfr.
    + apply first_rejection_Some in Hfr as (promise & Hin & Ho & Ht & Hmin).
      destruct (Hfrom promise Hin) as (p & Hp & Hcall).
      cbn [invoked returned fired].
      split; [done|]. split; [done|]. split; [|split].
      * split; [by intros [? [=]]|].
        intros Hall. rewrite Forall_forall in Hall.
        specialize (Hall p Hp). rewrite Hcall in Hall. cbn in Hall.
        unfold Js.fulfilled_value in Hall. rewrite Ho in Hall. by destruct Hall.
      * by intros v [=].
      * intros _. exists p, e. split; [done|]. split.
        { rewrite Hcall. cbn. by rewrite Ho. }
        split; [done|]. split; [done|]. right. exists promise. split; [done|].
        intros q Hq. destruct (Hto q Hq) as (other & Hother & ->).
        intros e' He'. subst t. by eapply Hmin.
    + pose proof (proj1 (first_rejection_None _) Hfr) as Hall.
      cbn [invoked returned fired].
      split; [done|]. split; [done|]. split; [|split].
      * split; [|by eexists]. intros _. apply Forall_forall. intros q Hq.
        destruct (Hto q Hq) as (other & Hother & ->). cbn.
        rewrite Forall_forall in Hall. destruct (Hall other Hother) as [v Hv].
        unfold Js.fulfilled_value. by rewrite Hv.
      * intros v [= <-]. split; [done|]. eexists. split; [|done].
        rewrite Hvalues. by apply fulfilled_values.
      * intros (q & Hq & Hfailed)%Exists_exists.
        destruct (Hto q Hq) as (other & Hother & Hcall). rewrite Hcall in Hfailed.
        rewrite Forall_forall in Hall. destruct (Hall other Hother) as [v Hv].
        cbn in Hfailed. rewrite Hv in Hfailed. by destruct Hfailed.
Qed.

Lemma wrapped_outcome (c : Call R) :
  Js.outcome (wrapped c)
  = match c with
    | Throws error => Js.Rejected error
    | Returns promise => Js.outcome promise
    end.
Proof. by destruct c. Qed.

Lemma wrapped_value (c : Call R) : Js.fulfilled_value (wrapped c) = succeeded c.
Proof. by destruct c. Qed.

(** The refactored version: every provider is called, and a throw counts as
    the earliest rejection. *)
Lemma dispatch_wrapped_all_or_nothing registered call merge type wrap operation :
  registered ≠ [] →
  all_or_nothing (dispatch_wrapped None registered call merge type wrap operation)
                 registered call merge operation.
Proof.
  intros Hsome. unfold all_or_nothing, dispatch_wrapped, executeWithProviders.
  unfold Js.promise_all.
  destruct (Js.first_rejection (map (λ provider, wrapped (call provider)) registered))
    as [[t e]|] eqn:Hfr.
  - apply first_rejection_Some in Hfr as (w & Hin & Ho & Ht & Hmin).
    apply list_elem_of_In, in_map_iff in Hin as (p & <- & Hp%list_elem_of_In).
    rewrite wrapped_outcome in Ho.
    cbn [invoked returned fired].
    split; [done|]. split; [done|]. split; [|split].
    + split; [by intros [? [=]]|].
      intros Hall. rewrite Forall_forall in Hall.
      specialize (Hall p Hp). apply succeeded_failed in Hall.
      destruct (call p) as [e0|promise]; [done|]. cbn in Hall. by rewrite Ho in Hall.
    + by intros v [=].
    + intros _. exists p, e. split; [done|].
      destruct (call p) as [e0|promise] eqn:Hcall.
      * injection Ho as ->. do 3 (split; [done|]). by left.
      * split; [cbn; by rewrite Ho|]. do 2 (split; [done|]).
        right. exists promise. split; [done|].
        intros q Hq.
        assert (Hwq : wrapped (call q) ∈ map (λ provider, wrapped (call provider)) registered).
        { apply list_elem_of_In, in_map_iff. exists q. split; [done|].
          by apply list_elem_of_In. }
        destruct (call q) as [e1|other] eqn:Hcq.
        -- specialize (Hmin _ e1 Hwq eq_refl). cbn in Ht, Hmin. lia.
        -- intros e' He'. specialize (Hmin _ e' Hwq He'). cbn in Ht, Hmin. lia.
  - pose proof (proj1 (first_rejection_None _) Hfr) as Hall.
    rewrite Forall_forall in Hall.
    assert (Hok : ∀ q, q ∈ registered → is_Some (succeeded (call q))).
    { intros q Hq.
      destruct (Hall (wrapped (call q))) as [v Hv].
      { apply list_elem_of_In, in_map_iff. exists q. split; [done|].
        by apply list_elem_of_In. }
      rewrite <-wrapped_value. unfold Js.fulfilled_value. by rewrite Hv. }
    cbn [invoked returned fired].
    split; [done|]. split; [done|]. split; [|split].
    + split; [|by eexists]. intros _. by apply Forall_forall.
    + intros v [= <-]. split; [done|]. eexists. split; [|done].
      rewrite <-fulfilled_values by by apply Forall_forall.
      rewrite <-list_fmap_compose. apply list_fmap_ext. intros i q _. cbn.
      by rewrite wrapped_value.
    + intros (q & Hq & Hfailed)%Exists_exists.
      apply Hok, succeeded_failed in Hq. rewrite Hq in Hfailed. by destruct Hfailed.
Qed.

(** Over providers whose methods always return their promise, both bodies
    are the one of [try_dispatch]. *)
Lemma dispatch_direct_returning guard registered (answer : Provider → Js.Settled R)
    merge type wrap operation :
  dispatch_direct guard registered (λ p, Returns (answer p)) merge type wrap operation
  = try_dispatch guard registered answer merge type wrap operation.
Proof.
  unfold dispatch_direct, try_dispatch. destruct guard; [done|].
  assert (Hmap : map_calls (λ p, Returns (answer p)) registered
                 = (registered, inr (map answer registered))).
  { induction registered as [|q rest IH]; [done|]. cbn [map_calls map]. by rewrite IH. }
  by rewrite Hmap.
Qed.

Lemma first_rejection_later (promises : list (Js.Settled R)) :
  Js.first_rejection
    (map (λ p, Js.mkSettled (S (Js.settle_time p)) (Js.outcome p)) promises)
  = (λ '(t, e), (S t, e)) <$> Js.first_rejection promises.
Proof.
  induction promises as [|p promises IH]; [done|].
  cbn [map Js.first_rejection Js.outcome Js.settle_time]. rewrite IH.
  destruct (Js.outcome p) as [v|e]; [done|].
  destruct (Js.first_rejection promises) as [[t' e']|]; [|done].
  cbn. by destruct (Js.settle_time p <=? t').
Qed.

Lemma later_values (promises : list (Js.Settled R)) :
  omap Js.fulfilled_value
       (map (λ p, Js.mkSettled (S (Js.settle_time p)) (Js.outcome p)) promises)
  = omap Js.fulfilled_value promises.
Proof.
  assert (Hcons : ∀ (f : Js.Settled R → option R) x l,
             omap f (x :: l)
             = match f x with Some y => y :: omap f l | None => omap f l end)
    by reflexivity.
  induction promises as [|p promises IH]; [done|].
  cbn [map]. rewrite !Hcons, IH. done.
Qed.

Lemma dispatch_wrapped_returning guard registered (answer : Provider → Js.Settled R)
    merge type wrap operation :
  dispatch_wrapped guard registered (λ p, Returns (answer p)) merge type wrap operation
  = try_dispatch guard registered answer merge type wrap operation.
Proof.
  unfold dispatch_wrapped, try_dispatch, executeWithProviders. destruct guard; [done|].
  assert (Hall : Js.promise_all (map (λ p, wrapped (Returns (answer p))) registered)
                 = Js.promise_all (map answer registered)).
  { unfold Js.promise_all.
    change (map (λ p, wrapped (Returns (answer p))) registered)
      with (map (λ p, (λ s, Js.mkSettled (S (Js.settle_time s)) (Js.outcome s)) (answer p))
                registered).
    rewrite <-(map_map answer), first_rejection_later.
    destruct (Js.first_rejection (map answer registered)) as [[t e]|]; [done|].
    cbn [fmap option_fmap option_map]. f_equal. apply later_values. }
  by rewrite Hall.
Qed.

End ThrowingCalls.

(** Over providers that never throw, the operations with calls that may
    throw are the operations of [Legacy] and [AiCoreService]. *)
Lemma calls_returning (r : Registry) (a : Answers)
    (query message : string) (context : AiContext) (request : AiCodeEditRequest) :
  LegacyCalls.getCompletion r (ProviderCall.returning a) query context
  = Legacy.getCompletion r a query context
  ∧ LegacyCalls.getChatResponse r (ProviderCall.returning a) message context
    = Legacy.getChatResponse r a message context
  ∧ LegacyCalls.getCodeEdit r (ProviderCall.returning a) request
    = Legacy.getCodeEdit r a request
  ∧ AiCoreServiceCalls.getCompletion r (ProviderCall.returning a) query context
    = AiCoreService.getCompletion r a query context
  ∧ AiCoreServiceCalls.getChatResponse r (ProviderCall.returning a) message context
    = AiCoreService.getChatResponse r a message context
  ∧ AiCoreServiceCalls.getCodeEdit r (ProviderCall.returning a) request
    = AiCoreService.getCodeEdit r a request.
Proof.
  split; [|split; [|split; [|split; [|split]]]];
    (apply dispatch_direct_returning || apply dispatch_wrapped_returning).
Qed.

(** C2. In either version of the service and for each of the three kinds, a
    dispatch that gets past its check with providers registered for the kind
    calls them in registration order, and succeeds exactly when every call
    it made succeeds; then it has called every registered provider and
    returns the merge of all their results. When a call it made fails, by
    throwing or by a promise that rejects, the dispatch rejects with the
    error of the call that failed first, fires that error only and returns
    no merged result, whatever the other providers answer. *)
Theorem dispatch_all_or_nothing (r : Registry) (b : ProviderCall.Behaviour)
    (query message : string) (context : AiContext) (request : AiCodeEditRequest) :
  (completionProviders r ≠ [] →
     all_or_nothing (LegacyCalls.getCompletion r b query context)
       (completionProviders r)
       (λ p, ProviderCall.callCompletion b p query context)
       mergeCompletionResults "getCompletion")
  ∧ (chatProviders r ≠ [] →
     all_or_nothing (LegacyCalls.getChatResponse r b message context)
       (chatProviders r)
       (λ p, ProviderCall.callChatResponse b p message context)
       mergeChatResults "getChatResponse")
  ∧ (codeEditProviders r ≠ [] →
     all_or_nothing (LegacyCalls.getCodeEdit r b request)
       (codeEditProviders r)
       (λ p, ProviderCall.callCodeEdit b p request)
       mergeCodeEditResults "getCodeEdit")
  ∧ (AiProviderManager.isEnabled r = true → completionProviders r ≠ [] →
     all_or_nothing (AiCoreServiceCalls.getCompletion r b query context)
       (completionProviders r)
       (λ p, ProviderCall.callCompletion b p query context)
       mergeCompletionResults "getCompletion")
  ∧ (AiProviderManager.isEnabled r = true → chatProviders r ≠ [] →
     all_or_nothing (AiCoreServiceCalls.getChatResponse r b message context)
       (chatProviders r)
       (λ p, ProviderCall.callChatResponse b p message context)
       mergeChatResults "getChatResponse")
  ∧ (AiProviderManager.isEnabled r = true → codeEditProviders r ≠ [] →
     all_or_nothing (AiCoreServiceCalls.getCodeEdit r b request)
       (codeEditProviders r)
       (λ p, ProviderCall.callCodeEdit b p request)
       mergeCodeEditResults "getCodeEdit").
Proof.
  assert (Hlegacy : ∀ registered what,
             registered ≠ [] → Legacy.no_providers registered what = None).
  { intros registered what Hsome. unfold Legacy.no_providers.
    rewrite decide_False; [done|]. by destruct registered. }
  assert (Hgate : ∀ operationType,
             AiProviderManager.isEnabled r = true →
             AiCoreService.validateProvidersExist r operationType = None).
  { intros operationType Hen. unfold AiCoreService.validateProvidersExist.
    by rewrite Hen. }
  unfold LegacyCalls.getCompletion, LegacyCalls.getChatResponse, LegacyCalls.getCodeEdit,
    AiCoreServiceCalls.getCompletion, AiCoreServiceCalls.getChatResponse,
    AiCoreServiceCalls.getCodeEdit, AiProviderManager.getCompletionProviders,
    AiProviderManager.getChatProviders, AiProviderManager.getCodeEditProviders.
  split; [|split; [|split; [|split; [|split]]]].
  1-3: intros Hsome; rewrite Hlegacy by done;
       by apply dispatch_direct_all_or_nothing.
  all: intros Hen Hsome; rewrite Hgate by done;
       by apply dispatch_wrapped_all_or_nothing.
Qed.

(** The policy at work on three providers per kind. For a completion the
    second provider throws: the first version stops calling there, the
    refactored one calls all three, and both reject with what was thrown,
    although the third provider's promise is rejected as well. For a chat
    message the third provider rejects and the dispatch rejects with its
    error, although the first two fulfil. For a code edit all fulfil, and
    the dispatch returns the merge of the three results. *)
Lemma dispatch_all_or_nothing_witness :
  (invoked (LegacyCalls.getCompletion crowded_registry mixed_behaviour "q" ∅)
   = [steady_provider; abrupt_provider]
   ∧ returned (LegacyCalls.getCompletion crowded_registry mixed_behaviour "q" ∅)
     = Js.Rejected (Js.mkError "abrupt threw")
   ∧ invoked (AiCoreServiceCalls.getCompletion crowded_registry mixed_behaviour "q" ∅)
     = [steady_provider; abrupt_provider; faulty_provider]
   ∧ returned (AiCoreServiceCalls.getCompletion crowded_registry mixed_behaviour "q" ∅)
     = Js.Rejected (Js.mkError "abrupt threw")
   ∧ returned (LegacyCalls.getChatResponse crowded_registry mixed_behaviour "m" ∅)
     = Js.Rejected (Js.mkError "faulty is down")
   ∧ returned (AiCoreServiceCalls.getChatResponse crowded_registry mixed_behaviour "m" ∅)
     = Js.Rejected (Js.mkError "faulty is down")
   ∧ returned (LegacyCalls.getCodeEdit crowded_registry mixed_behaviour sample_request)
     = Js.Fulfilled (mkCodeEditResult [] (Some "Steady") (Some ∅)))
  ∧ all_or_nothing (LegacyCalls.getCompletion crowded_registry mixed_behaviour "q" ∅)
      (completionProviders crowded_registry)
      (λ p, ProviderCall.callCompletion mixed_behaviour p "q" ∅)
      mergeCompletionResults "getCompletion"
  ∧ all_or_nothing (LegacyCalls.getChatResponse crowded_registry mixed_behaviour "m" ∅)
      (chatProviders crowded_registry)
      (λ p, ProviderCall.callChatResponse mixed_behaviour p "m" ∅)
      mergeChatResults "getChatResponse"
  ∧ all_or_nothing (LegacyCalls.getCodeEdit crowded_registry mixed_behaviour sample_request)
      (codeEditProviders crowded_registry)
      (λ p, ProviderCall.callCodeEdit mixed_behaviour p sample_request)
      mergeCodeEditResults "getCodeEdit"
  ∧ all_or_nothing (AiCoreServiceCalls.getCompletion crowded_registry mixed_behaviour "q" ∅)
      (completionProviders crowded_registry)
      (λ p, ProviderCall.callCompletion mixed_behaviour p "q" ∅)
      mergeCompletionResults "getCompletion"
  ∧ all_or_nothing (AiCoreServiceCalls.getChatResponse crowded_registry mixed_behaviour "m" ∅)
      (chatProviders crowded_registry)
      (λ p, ProviderCall.callChatResponse mixed_behaviour p "m" ∅)
      mergeChatResults "getChatResponse"
  ∧ all_or_nothing (AiCoreServiceCalls.getCodeEdit crowded_registry mixed_behaviour
                      sample_request)
      (codeEditProviders crowded_registry)
      (λ p, ProviderCall.callCodeEdit mixed_behaviour p sample_request)
      mergeCodeEditResults "getCodeEdit".
Proof.
  destruct (dispatch_all_or_nothing crowded_registry mixed_behaviour "q" "m" ∅
              sample_request) as (H1 & H2 & H3 & H4 & H5 & H6).
  split; [by vm_compute|].
  split; [|split; [|split; [|split; [|split]]]].
  - by apply H1.
  - by apply H2.
  - by apply H3.
  - apply H4; [by vm_compute|done].
  - apply H5; [by vm_compute|done].
  - apply H6; [by vm_compute|done].
Defined.

(** ** isEnabled *)

Lemma isEnabled_general_map (r : Registry) :
  AiProviderManager.isEnabled r = true ↔ providers r ≠ ∅.
Proof.
  unfold AiProviderManager.isEnabled. rewrite bool_decide_eq_true.
  rewrite <-map_size_non_empty_iff. lia.
Qed.

(** C6 at the failing input: after a provider has been registered through a
    kind-specific operation only, [isEnabled] still answers [false], in the
    manager, in the refactored service and in the first version alike. *)
Theorem isEnabled_ignores_kind_providers (provider : Provider) :
  let completion := (AiProviderManager.registerCodeCompletionProvider provider empty_registry).1 in
  let chat := (AiProviderManager.registerChatProvider provider empty_registry).1 in
  let edit := (AiProviderManager.registerCodeEditProvider provider empty_registry).1 in
  (completionProviders completion = [provider]
   ∧ AiProviderManager.isEnabled completion = false
   ∧ AiCoreService.isEnabled completion = false
   ∧ Legacy.isEnabled completion = false)
  ∧ (chatProviders chat = [provider]
     ∧ AiProviderManager.isEnabled chat = false
     ∧ AiCoreService.isEnabled chat = false
     ∧ Legacy.isEnabled chat = false)
  ∧ (codeEditProviders edit = [provider]
     ∧ AiProviderManager.isEnabled edit = false
     ∧ AiCoreService.isEnabled edit = false
     ∧ Legacy.isEnabled edit = false).
Proof. repeat split. Qed.

(** ** Unregistering *)

Section RemoveFirst.
Context {A : Type} `{EqDecision A}.

Lemma indexOf_bounds (l : list A) x : (-1 ≤ JsArray.indexOf l x)%Z.
Proof.
  induction l as [|y l IH]; simpl; [done|].
  destruct (decide (y = x)); [lia|].
  destruct (Z.leb_spec 0 (JsArray.indexOf l x)); lia.
Qed.


Lemma indexOf_first (l1 l2 : list A) x :
  x ∉ l1 → JsArray.indexOf (l1 ++ x :: l2) x = Z.of_nat (length l1).
Proof.
  induction l1 as [|y l1 IH]; simpl.
  - intros _. by rewrite decide_True.
  - intros [Hne Hnin]%not_elem_of_cons.
    rewrite decide_False by done. rewrite IH by done.
    destruct (Z.leb_spec 0 (Z.of_nat (length l1))); lia.
Qed.


Lemma remove_first_first (l1 l2 : list A) x :
  x ∉ l1 → JsArray.remove_first (l1 ++ x :: l2) x = l1 ++ l2.
Proof.
  intros Hx. unfold JsArray.remove_first, JsArray.splice1.
  rewrite indexOf_first by done.
  destruct (Z.leb_spec 0 (Z.of_nat (length l1))) as [_|Hlt]; [|exfalso; lia].
  rewrite Nat2Z.id. clear. induction l1 as [|y l1 IH]; simpl; [done|].
  by rewrite IH.
Qed.

End RemoveFirst.




(** ** The deduplication key determines text and start position *)

Section CompletionKey.

Lemma string_cons_app (c : ascii) (s1 s2 : string) :
  String c s1 +:+ s2 = String c (s1 +:+ s2).
Proof. reflexivity. Qed.

Lemma string_nil_app (s : string) : "" +:+ s = s.
Proof. reflexivity. Qed.

Lemma dash_free_app (s1 s2 : string) :
  dash_free (s1 +:+ s2) ↔ dash_free s1 ∧ dash_free s2.
Proof.
  induction s1 as [|c s1 IH]; [rewrite string_nil_app; simpl; tauto|].
  rewrite string_cons_app. simpl. rewrite IH. tauto.
Qed.

Lemma pretty_N_char_no_dash (x : N) : pretty_N_char x ≠ "-"%char.
Proof. unfold pretty_N_char. by repeat case_match. Qed.

Lemma pretty_N_go_dash_free (x : N) (s : string) :
  dash_free s → dash_free (pretty_N_go x s).
Proof.
  revert s. induction (N.lt_wf_0 x) as [x _ IH]; intros s Hs.
  destruct (decide (x = 0)%N) as [->|Hx]; [by rewrite pretty_N_go_0|].
  rewrite pretty_N_go_step by lia. apply IH.
  - apply N.div_lt; lia.
  - split; [apply pretty_N_char_no_dash|done].
Qed.

Lemma pretty_N_dash_free (x : N) : dash_free (pretty x).
Proof.
  unfold pretty, pretty_N. case_decide.
  - simpl. split; [discriminate|done].
  - by apply pretty_N_go_dash_free.
Qed.

(** A string is cut at its last dash in one way only. *)
Lemma last_dash_split (a1 a2 b1 b2 : string) :
  dash_free b1 → dash_free b2 →
  a1 +:+ String "-" b1 = a2 +:+ String "-" b2 → a1 = a2 ∧ b1 = b2.
Proof.
  intros Hb1 Hb2. revert a2. induction a1 as [|c a1 IH]; intros [|c2 a2];
    rewrite ?string_cons_app, ?string_nil_app.
  - by intros [= ->].
  - intros [= <- ->]. apply dash_free_app in Hb1 as [_ [? _]]. done.
  - intros [= -> <-]. apply dash_free_app in Hb2 as [_ [? _]]. done.
  - intros [= -> Heq]. destruct (IH _ Heq) as [-> ->]. done.
Qed.

Lemma string_app_assoc (s1 s2 s3 : string) : (s1 +:+ s2) +:+ s3 = s1 +:+ s2 +:+ s3.
Proof.
  induction s1 as [|c s1 IH]; [done|].
  rewrite !string_cons_app. by rewrite IH.
Qed.

Lemma completion_key_eq (text : string) (line column : N) :
  text +:+ "-" +:+ pretty line +:+ "-" +:+ pretty column
  = (text +:+ String "-" (pretty line)) +:+ String "-" (pretty column).
Proof. by rewrite !string_app_assoc. Qed.

Lemma completion_key_identity (c1 c2 : AiCompletion) :
  completion_key c1 = completion_key c2 ↔ identity c1 = identity c2.
Proof.
  unfold completion_key, identity. split.
  - rewrite !completion_key_eq. intros Hk.
    apply last_dash_split in Hk as [Hk Hcol]; [|apply pretty_N_dash_free..].
    apply last_dash_split in Hk as [Htext Hline]; [|apply pretty_N_dash_free..].
    apply (inj pretty) in Hcol, Hline. congruence.
  - by intros [= -> -> ->].
Qed.

End CompletionKey.

(** ** Deduplication keeps the first completion of every key *)

Section Dedup.

Lemma dedup_filter_by_key (k : string) (seen : gset string) (l : list AiCompletion) :
  filter (λ c, completion_key c = k) (dedup_filter seen l)
  = if decide (k ∈ seen) then []
    else option_list (head (filter (λ c, completion_key c = k) l)).
Proof.
  revert seen. induction l as [|c l IH]; intros seen; simpl.
  - by destruct (decide (k ∈ seen)).
  - destruct (decide (completion_key c ∈ seen)) as [Hseen|Hnew].
    + rewrite IH. destruct (decide (k ∈ seen)) as [|Hk]; [done|].
      rewrite (filter_cons_False _ c); [done|]. intros <-. done.
    + rewrite filter_cons, (filter_cons _ c l).
      destruct (decide (completion_key c = k)) as [<-|Hne].
      * rewrite IH, decide_True by (apply elem_of_union_l; by apply elem_of_singleton).
        by rewrite decide_False.
      * rewrite IH. destruct (decide (k ∈ seen)) as [Hk|Hk].
        -- rewrite decide_True by (by apply elem_of_union_r). done.
        -- rewrite decide_False; [done|].
           intros [Hin%elem_of_singleton|Hin]%elem_of_union; done.
Qed.

Lemma filter_identity_key (id : AiCompletion) (l : list AiCompletion) :
  filter (λ c, identity c = identity id) l
  = filter (λ c, completion_key c = completion_key id) l.
Proof. apply list_filter_iff. intros c. symmetry. apply completion_key_identity. Qed.

Lemma dedup_filter_sublist (seen : gset string) (l : list AiCompletion) :
  sublist (dedup_filter seen l) l.
Proof.
  revert seen. induction l as [|c l IH]; intros seen; simpl; [done|].
  destruct (decide (completion_key c ∈ seen)).
  - by apply sublist_cons.
  - by apply sublist_skip.
Qed.

(** One entry at most per identity, and the one that arrived first. *)
Lemma deduplicateCompletions_by_identity (id : string * (N * N)) (l : list AiCompletion) :
  filter (λ c, identity c = id) (deduplicateCompletions l)
  = option_list (head (filter (λ c, identity c = id) l)).
Proof.
  destruct id as [text [line column]].
  set (probe := mkCompletion text (mkRange line column 0 0) CK_Function 0 None).
  change (text, (line, column)) with (identity probe).
  rewrite !filter_identity_key. unfold deduplicateCompletions.
  rewrite dedup_filter_by_key. by rewrite decide_False by apply not_elem_of_empty.
Qed.

End Dedup.

(** ** [Array.prototype.sort] with the score comparator *)

Section SortByScore.

Lemma by_score_le (a b : AiCompletion) :
  Qle_bool (by_score a b) 0 = true ↔ score_ge a b.
Proof.
  unfold by_score, score_ge. rewrite Qle_bool_iff.
  rewrite (Qle_minus_iff (c_score b - c_score a) 0), (Qle_minus_iff (c_score b) (c_score a)).
  assert (Heq : (0 + - (c_score b - c_score a) == c_score a + - c_score b)%Q) by ring.
  by rewrite Heq.
Qed.

Lemma sort_insert_perm {A} (cmp : A → A → Q) (x : A) (l : list A) :
  Js.sort_insert cmp x l ≡ₚ x :: l.
Proof.
  induction l as [|y l IH]; simpl; [done|].
  destruct (Qle_bool (cmp x y) 0); [done|].
  rewrite IH. apply Permutation_swap.
Qed.

Lemma sort_perm {A} (cmp : A → A → Q) (l : list A) : Js.sort cmp l ≡ₚ l.
Proof.
  induction l as [|x l IH]; simpl; [done|].
  rewrite sort_insert_perm. by rewrite IH.
Qed.

Lemma score_ge_trans (a b c : AiCompletion) : score_ge a b → score_ge b c → score_ge a c.
Proof. unfold score_ge. intros Hab Hbc. by eapply Qle_trans. Qed.

Lemma score_ge_total (a b : AiCompletion) : ¬ score_ge a b → score_ge b a.
Proof. unfold score_ge. intros H. apply Qlt_le_weak. by apply Qnot_le_lt. Qed.

Lemma sort_insert_sorted (x : AiCompletion) (l : list AiCompletion) :
  StronglySorted score_ge l → StronglySorted score_ge (Js.sort_insert by_score x l).
Proof.
  induction 1 as [|y l Hsorted IH Hy]; simpl.
  - by repeat constructor.
  - destruct (Qle_bool (by_score x y) 0) eqn:Hcmp.
    + apply by_score_le in Hcmp. constructor; [by constructor|].
      constructor; [done|]. eapply Forall_impl; [exact Hy|].
      intros z Hz. by eapply score_ge_trans.
    + assert (Hyx : score_ge y x).
      { apply score_ge_total. intros Hxy%by_score_le. congruence. }
      constructor; [done|]. rewrite sort_insert_perm. by constructor.
Qed.

Lemma sort_sorted (l : list AiCompletion) : StronglySorted score_ge (Js.sort by_score l).
Proof.
  induction l as [|x l IH]; simpl; [constructor|]. by apply sort_insert_sorted.
Qed.

Lemma sort_insert_stable (s : Q) (x : AiCompletion) (l : list AiCompletion) :
  filter (scored s) (Js.sort_insert by_score x l) = filter (scored s) (x :: l).
Proof.
  induction l as [|y l IH]; simpl; [done|].
  destruct (Qle_bool (by_score x y) 0) eqn:Hcmp; [done|].
  assert (Hlt : ¬ score_ge x y) by (intros Hxy%by_score_le; congruence).
  rewrite (filter_cons _ y), IH, !(filter_cons _ x), (filter_cons _ y).
  destruct (decide (scored s y)) as [Hy|Hy]; [|done].
  destruct (decide (scored s x)) as [Hx|Hx]; [|done].
  exfalso. apply Hlt. unfold score_ge, scored in *. rewrite Hx, Hy. apply Qle_refl.
Qed.

(** Completions of equal score keep their order. *)
Lemma sort_stable (s : Q) (l : list AiCompletion) :
  filter (scored s) (Js.sort by_score l) = filter (scored s) l.
Proof.
  induction l as [|x l IH]; simpl; [done|].
  rewrite sort_insert_stable, !filter_cons. by rewrite IH.
Qed.

Lemma scored_self (c : AiCompletion) : scored (c_score c) c.
Proof. unfold scored. reflexivity. Qed.

Lemma filter_scored_tail (s : Q) (a : AiCompletion) (l1 l2 : list AiCompletion) :
  filter (scored s) (a :: l1) = filter (scored s) (a :: l2) →
  filter (scored s) l1 = filter (scored s) l2.
Proof.
  rewrite !filter_cons. destruct (decide (scored s a)); [|done]. by intros [= ->].
Qed.

(** A list sorted by descending score is determined by the order within
    each class of equal score: every stable sort returns what [Js.sort]
    returns. *)
Lemma sorted_stable_unique (l1 l2 : list AiCompletion) :
  StronglySorted score_ge l1 → StronglySorted score_ge l2 →
  (∀ s, filter (scored s) l1 = filter (scored s) l2) →
  l1 = l2.
Proof.
  intros Hs1. revert l2. induction Hs1 as [|a l1 Hs1 IH Ha]; intros l2 Hs2 Hf.
  - destruct l2 as [|b l2]; [done|]. specialize (Hf (c_score b)).
    rewrite filter_cons_True in Hf by apply scored_self. done.
  - destruct Hs2 as [|b l2 Hs2 Hb].
    { specialize (Hf (c_score a)).
      rewrite filter_cons_True in Hf by apply scored_self. done. }
    assert (Hab : scored (c_score a) b).
    { destruct (decide (scored (c_score a) b)) as [|Hne]; [done|exfalso].
      assert (Ha2 : a ∈ l2).
      { pose proof (Hf (c_score a)) as Hfa.
        rewrite filter_cons_True, (filter_cons_False _ b) in Hfa by (done || apply scored_self).
        assert (Hin : a ∈ filter (scored (c_score a)) l2) by (rewrite <-Hfa; by left).
        by apply list_elem_of_filter in Hin as [_ ?]. }
      assert (Hb1 : b ∈ l1).
      { pose proof (Hf (c_score b)) as Hfb.
        rewrite (filter_cons_True _ b), (filter_cons_False _ a) in Hfb.
        - assert (Hin : b ∈ filter (scored (c_score b)) l1) by (rewrite Hfb; by left).
          by apply list_elem_of_filter in Hin as [_ ?].
        - intros Hsa. apply Hne. unfold scored in *. by symmetry.
        - apply scored_self. }
      rewrite Forall_forall in Ha, Hb.
      apply Hne. unfold scored. apply Qle_antisym; [apply Ha|apply Hb]; done. }
    assert (a = b) as <-.
    { specialize (Hf (c_score a)).
      rewrite !filter_cons_True in Hf by (done || apply scored_self). congruence. }
    f_equal. apply IH; [done|]. intros s. eapply filter_scored_tail, Hf.
Qed.

End SortByScore.

(** ** Completion merge *)

Section CompletionMerge.

Lemma at_most_one_NoDup (l : list AiCompletion) :
  (∀ id, length (filter (λ c, identity c = id) l) ≤ 1) → NoDup (identity <$> l).
Proof.
  induction l as [|c l IH]; intros Hone; [constructor|].
  rewrite fmap_cons. apply NoDup_cons. split.
  - intros (c' & Hid & Hin)%list_elem_of_fmap.
    specialize (Hone (identity c)). rewrite filter_cons_True in Hone by done.
    assert (Hc' : c' ∈ filter (λ c0, identity c0 = identity c) l).
    { apply list_elem_of_filter. by split. }
    destruct (filter _ l); [by apply elem_of_nil in Hc'|simpl in Hone; lia].
  - apply IH. intros id. specialize (Hone id). rewrite filter_cons in Hone.
    destruct (decide (identity c = id)); simpl in Hone; lia.
Qed.

Lemma merged_by_identity (results : list AiCompletionResult) (id : string * (N * N)) :
  filter (λ c, identity c = id) (cr_completions (mergeCompletionResults results))
  = option_list (head (filter (λ c, identity c = id)
                              (concat (map cr_completions results)))).
Proof.
  rewrite mergeCompletionResults_unfold. cbn [cr_completions].
  rewrite <-deduplicateCompletions_by_identity.
  set (kept := deduplicateCompletions _).
  assert (Hperm : filter (λ c, identity c = id) (Js.sort by_score kept)
                  ≡ₚ filter (λ c, identity c = id) kept)
    by (by rewrite sort_perm).
  subst kept. rewrite deduplicateCompletions_by_identity in Hperm |- *.
  destruct (head _) as [c|]; simpl in *.
  - by apply Permutation_singleton_r.
  - by apply Permutation_nil_r.
Qed.

End CompletionMerge.

(** C4. In the merged list every identity (text, start of range) that
    arrived has exactly one completion, and it is the completion that arrived
    first with that identity, as it arrived (score, kind and metadata
    included); an identity that did not arrive has none. Merging two
    completions of the same text and start yields one entry, the first. *)
Theorem merged_completions_one_per_identity (results : list AiCompletionResult) :
  let arrived := concat (map cr_completions results) in
  let merged := cr_completions (mergeCompletionResults results) in
  (∀ id, filter (λ c, identity c = id) merged
         = option_list (head (filter (λ c, identity c = id) arrived)))
  ∧ NoDup (identity <$> merged)
  ∧ (∀ c, c ∈ arrived → ∃ kept, kept ∈ merged ∧ identity kept = identity c)
  ∧ (∀ kept, kept ∈ merged →
       head (filter (λ c, identity c = identity kept) arrived) = Some kept)
  ∧ cr_completions (mergeCompletionResults
                      [mkCompletionResult [completion_X] None;
                       mkCompletionResult [completion_X_again] None])
    = [completion_X].
Proof.
  intros arrived merged.
  assert (Hid : ∀ id, filter (λ c, identity c = id) merged
                      = option_list (head (filter (λ c, identity c = id) arrived)))
    by (intros id; apply merged_by_identity).
  split; [exact Hid|]. split; [|split; [|split]].
  - apply at_most_one_NoDup. intros id. rewrite Hid. destruct (head _); simpl; lia.
  - intros c Hc. specialize (Hid (identity c)).
    assert (Hin : c ∈ filter (λ c0, identity c0 = identity c) arrived)
      by (by apply list_elem_of_filter).
    destruct (filter _ arrived) as [|kept rest] eqn:Hf; [by apply elem_of_nil in Hin|].
    simpl in Hid. exists kept.
    assert (Hk : kept ∈ filter (λ c0, identity c0 = identity c) merged)
      by (rewrite Hid; by left).
    apply list_elem_of_filter in Hk as [? ?]. done.
  - intros kept Hkept. specialize (Hid (identity kept)).
    assert (Hin : kept ∈ filter (λ c, identity c = identity kept) merged)
      by (by apply list_elem_of_filter).
    rewrite Hid in Hin. destruct (head _) as [first|]; simpl in Hin.
    + apply list_elem_of_singleton in Hin. by subst.
    + by apply elem_of_nil in Hin.
  - by vm_compute.
Qed.

(** The identity of a completion that arrived second has its entry. *)
Lemma merged_completions_one_per_identity_witness :
  ∃ kept, kept ∈ cr_completions (mergeCompletionResults
                                   [mkCompletionResult [completion_X; completion_Y] None;
                                    mkCompletionResult [completion_X_again] None])
          ∧ identity kept = identity completion_X_again.
Proof.
  destruct (merged_completions_one_per_identity
              [mkCompletionResult [completion_X; completion_Y] None;
               mkCompletionResult [completion_X_again] None])
    as (_ & _ & Hsome & _).
  apply Hsome. simpl. right. right. left.
Defined.

(** C5. The merged list is sorted by descending score, it is a rearrangement
    of the completions kept by the deduplication, which stand in arrival
    order, and completions of equal score stand in the merged list in that
    same order; these properties leave one list only, whatever the sorting
    algorithm. Two completions "X" and "Y" of score 0.9 at different ranges
    are merged as [X, Y]. *)
Theorem merged_completions_sorted_stable (results : list AiCompletionResult) :
  let arrived := concat (map cr_completions results) in
  let kept := deduplicateCompletions arrived in
  let merged := cr_completions (mergeCompletionResults results) in
  StronglySorted score_ge merged
  ∧ sublist kept arrived
  ∧ merged ≡ₚ kept
  ∧ (∀ s, filter (scored s) merged = filter (scored s) kept)
  ∧ (∀ other, StronglySorted score_ge other →
              (∀ s, filter (scored s) other = filter (scored s) kept) →
              other = merged)
  ∧ c_text <$> cr_completions (mergeCompletionResults
                                 [mkCompletionResult [completion_X; completion_Y] None])
    = ["X"; "Y"].
Proof.
  intros arrived kept merged. subst merged.
  rewrite mergeCompletionResults_unfold. cbn [cr_completions].
  fold arrived. fold kept.
  split; [apply sort_sorted|]. split; [apply dedup_filter_sublist|].
  split; [apply sort_perm|]. split; [intros s; apply sort_stable|].
  split; [|by vm_compute].
  intros other Hsorted Hstable. apply sorted_stable_unique; [done|apply sort_sorted|].
  intros s. by rewrite Hstable, sort_stable.
Qed.

(** [X, Y] is the one list sorted by descending score that keeps the
    arrival order of the two completions of score 0.9. *)
Lemma merged_completions_sorted_stable_witness :
  [completion_X; completion_Y]
  = cr_completions (mergeCompletionResults
                      [mkCompletionResult [completion_X; completion_Y] None]).
Proof.
  destruct (merged_completions_sorted_stable
              [mkCompletionResult [completion_X; completion_Y] None])
    as (_ & _ & _ & _ & Hunique & _).
  apply Hunique.
  - repeat constructor; unfold score_ge; simpl; apply Qle_refl.
  - intros s. reflexivity.
Defined.

(** ** Request identifiers are not repeated *)

Section RequestIds.

Import RequestIdGenerator.

Lemma base36_dash_free (digits : list N) : dash_free (base36 digits).
Proof.
  induction digits as [|d digits IH]; simpl; [done|]. split; [|done].
  unfold base36_char. by repeat case_match.
Qed.

Lemma generate_shape prefix now fraction counter :
  (generate prefix now fraction counter).1
  = ((prefix +:+ pretty now) +:+ String "-" (pretty counter))
      +:+ String "-" (random_part fraction).
Proof. unfold generate. simpl. by rewrite !string_app_assoc. Qed.

(** The identifier determines the counter it was made from, whatever the
    prefix, the clock and the random number. *)
Lemma generate_counter_inj prefix1 prefix2 now1 now2 fraction1 fraction2 counter1 counter2 :
  (generate prefix1 now1 fraction1 counter1).1 = (generate prefix2 now2 fraction2 counter2).1 →
  counter1 = counter2.
Proof.
  rewrite !generate_shape. intros Hid.
  apply last_dash_split in Hid as [Hid _]; [|apply base36_dash_free..].
  apply last_dash_split in Hid as [_ Hc]; [|apply pretty_N_dash_free..].
  by apply (inj pretty) in Hc.
Qed.

Lemma increment_below (counter : N) : (counter < 2 ^ 53)%N → increment counter = (counter + 1)%N.
Proof. intros H. unfold increment. by rewrite (proj2 (N.ltb_lt _ _) H). Qed.

Lemma generate_all_counters prefix calls counter id :
  (counter + N.of_nat (length calls) ≤ 2 ^ 53)%N →
  id ∈ generate_all prefix calls counter →
  ∃ now fraction c, (counter ≤ c)%N ∧ id = (generate prefix now fraction c).1.
Proof.
  pose proof increment_below as Hinc. revert Hinc.
  generalize (2 ^ 53)%N. intros bound Hinc.
  revert counter. induction calls as [|[now fraction] calls IH]; intros counter Hb; simpl.
  - by intros ?%elem_of_nil.
  - simpl length in Hb. intros [->|Hin]%elem_of_cons.
    + exists now, fraction, counter. split; [lia|done].
    + rewrite Hinc in Hin by lia.
      assert (Hb' : (counter + 1 + N.of_nat (length calls) ≤ bound)%N) by lia.
      destruct (IH _ Hb' Hin) as (now' & fraction' & c & Hc & ->).
      exists now', fraction', c. split; [lia|done].
Qed.

Lemma generate_all_NoDup prefix calls counter :
  (counter + N.of_nat (length calls) ≤ 2 ^ 53)%N →
  NoDup (generate_all prefix calls counter).
Proof.
  pose proof increment_below as Hinc. pose proof generate_all_counters as Hcs.
  revert Hinc Hcs. generalize (2 ^ 53)%N. intros bound Hinc Hcs.
  revert counter. induction calls as [|[now fraction] calls IH]; intros counter Hb; simpl.
  - constructor.
  - simpl length in Hb. apply NoDup_cons. split.
    + rewrite Hinc by lia. intros Hin.
      apply Hcs in Hin as (now' & fraction' & c & Hc & Hid); [|lia].
      apply generate_counter_inj in Hid. lia.
    + apply IH. rewrite Hinc by lia. lia.
Qed.

End RequestIds.

(** X1. Successive calls of [generate] never return the same identifier,
    whatever the clock shows and the random source draws, as long as the
    counter stays within the whole numbers a double holds exactly. *)
Theorem request_ids_distinct (prefix : string) (calls : list (Z * list N)) (counter : N) :
  (counter + N.of_nat (length calls) ≤ 2 ^ 53)%N →
  NoDup (RequestIdGenerator.generate_all prefix calls counter).
Proof. apply generate_all_NoDup. Qed.

(** Two calls in the same millisecond drawing the same random number. *)
Lemma request_ids_distinct_witness :
  NoDup (RequestIdGenerator.generate_all "ai-"
           [(1700000000000%Z, [3; 17; 35]%N); (1700000000000%Z, [3; 17; 35]%N)] 0).
Proof. apply request_ids_distinct. vm_compute. discriminate. Defined.

(** ** More on the context manager *)

Section ContextAlgebra.

Import AiContextManager.

Lemma spread2_union (a b : AiContext) : Js.spread2 a b = b ∪ a.
Proof. unfold Js.spread2. by rewrite copy_object. Qed.

Lemma setContext_current (update : AiContext) (s : State) :
  currentContext (setContext update s).1 = update ∪ currentContext s.
Proof. simpl. apply spread2_union. Qed.

Lemma setContext_history (update : AiContext) (s : State) :
  contextHistory (setContext update s).1
  = addToHistory (currentContext s) (contextHistory s).
Proof. simpl. by rewrite copy_object. Qed.

Lemma addToHistory_last (c : AiContext) (h : list AiContext) :
  last (addToHistory c h) = Some c.
Proof.
  unfold addToHistory. cbv zeta. case_decide as Hlen.
  - rewrite length_app in Hlen. simpl in Hlen. unfold maxHistorySize in Hlen.
    destruct h as [|x h]; simpl in *; [lia|]. apply last_snoc.
  - apply last_snoc.
Qed.

Lemma addToHistory_bound (c : AiContext) (h : list AiContext) :
  length (addToHistory c h) ≤ maxHistorySize `max` length h.
Proof.
  unfold addToHistory. cbv zeta. case_decide as Hlen.
  - destruct (h ++ [c]) eqn:Hp; simpl in *; [lia|].
    assert (Hl : length (h ++ [c]) = S (length l)) by (by rewrite Hp).
    rewrite length_app in Hl. simpl in Hl. lia.
  - lia.
Qed.

Lemma setContexts_current (updates : list AiContext) (s : State) k :
  currentContext (setContexts updates s) !! k
  = match last_writer k (Some <$> updates) with
    | Some v => Some v
    | None => currentContext s !! k
    end.
Proof.
  revert s. induction updates as [|u us IH]; intros s; [done|].
  change (setContexts (u :: us) s) with (setContexts us (setContext u s).1).
  rewrite IH, fmap_cons, last_writer_cons, setContext_current, lookup_union.
  simpl. destruct (last_writer k (Some <$> us)); [done|].
  by destruct (u !! k), (currentContext s !! k).
Qed.

End ContextAlgebra.

(** X2. After any sequence of [setContext] calls every field holds the value
    given by the last update that mentions it, or the value it had before
    when no update does; no field that was set is ever removed. *)
Theorem setContexts_last_update_wins (updates : list AiContext)
    (s : AiContextManager.State) :
  (∀ k, AiContextManager.currentContext (AiContextManager.setContexts updates s) !! k
        = match last_writer k (Some <$> updates) with
          | Some v => Some v
          | None => AiContextManager.currentContext s !! k
          end)
  ∧ dom (AiContextManager.currentContext s)
    ⊆ dom (AiContextManager.currentContext (AiContextManager.setContexts updates s)).
Proof.
  split; [apply setContexts_current|].
  intros k [v Hk]%elem_of_dom. apply elem_of_dom.
  rewrite setContexts_current, Hk. by destruct (last_writer _ _).
Qed.

(** X3. Two calls of [setContext] leave the context that one call with the
    second update laid over the first leaves; a repeated update changes the
    context no further; an empty update leaves the context as it is and
    still records a snapshot of it. *)
Theorem setContext_composes (u1 u2 : AiContext) (s : AiContextManager.State) :
  AiContextManager.currentContext
    (AiContextManager.setContext u2 (AiContextManager.setContext u1 s).1).1
  = AiContextManager.currentContext (AiContextManager.setContext (Js.spread2 u1 u2) s).1
  ∧ AiContextManager.currentContext
      (AiContextManager.setContext u1 (AiContextManager.setContext u1 s).1).1
    = AiContextManager.currentContext (AiContextManager.setContext u1 s).1
  ∧ AiContextManager.currentContext (AiContextManager.setContext ∅ s).1
    = AiContextManager.currentContext s
  ∧ last (AiContextManager.contextHistory (AiContextManager.setContext ∅ s).1)
    = Some (AiContextManager.currentContext s).
Proof.
  rewrite !setContext_current, !spread2_union, setContext_history.
  split; [by rewrite (assoc_L (∪))|]. split; [|split].
  - by rewrite (assoc_L (∪)), (idemp_L (∪)).
  - by rewrite (left_id_L ∅ (∪)).
  - apply addToHistory_last.
Qed.

Lemma run_history_bound (ops : list ContextOps.Op) (s : AiContextManager.State) :
  length (AiContextManager.contextHistory s) ≤ AiContextManager.maxHistorySize →
  length (AiContextManager.contextHistory (ContextOps.run ops s))
  ≤ AiContextManager.maxHistorySize.
Proof.
  revert s. induction ops as [|op ops IH]; intros s Hs; [done|].
  apply IH. destruct op as [update|]; simpl.
  - rewrite copy_object. by apply addToHistory_length.
  - lia.
Qed.

(** X4. Whatever [setContext] and [clearContext] calls a fresh manager
    receives, in whatever order, its history never holds more than ten
    snapshots; and after every [setContext] the newest snapshot is the
    context that the call replaced, so that laying the update over it gives
    the current context. *)
Theorem context_history_invariant (ops : list ContextOps.Op) (update : AiContext) :
  let s := ContextOps.run ops AiContextManager.fresh in
  let s' := (AiContextManager.setContext update s).1 in
  length (AiContextManager.contextHistory s) ≤ 10
  ∧ length (AiContextManager.contextHistory s') ≤ 10
  ∧ last (AiContextManager.contextHistory s') = Some (AiContextManager.currentContext s)
  ∧ AiContextManager.currentContext s'
    = Js.spread2 (default ∅ (last (AiContextManager.contextHistory s'))) update.
Proof.
  intros s s'.
  assert (Hs : length (AiContextManager.contextHistory s) ≤ 10).
  { apply run_history_bound. simpl. lia. }
  assert (Hlast : last (AiContextManager.contextHistory s')
                  = Some (AiContextManager.currentContext s)).
  { subst s'. rewrite setContext_history. apply addToHistory_last. }
  split; [done|]. split; [|split; [done|]].
  - subst s'. rewrite setContext_history. by apply addToHistory_length.
  - by rewrite Hlast.
Qed.

(** ** More on merging *)

Section MergeAlgebra.

Lemma dedup_filter_app (seen : gset string) (l1 l2 : list AiCompletion) :
  dedup_filter seen (l1 ++ l2)
  = dedup_filter seen l1
    ++ dedup_filter (list_to_set (completion_key <$> l1) ∪ seen) l2.
Proof.
  revert seen. induction l1 as [|c l1 IH]; intros seen.
  - simpl. by rewrite (left_id_L ∅ (∪)).
  - rewrite <-app_comm_cons, fmap_cons, list_to_set_cons. cbn [dedup_filter].
    destruct (decide (completion_key c ∈ seen)) as [Hin|Hnin]; rewrite IH.
    + f_equal. f_equal. apply set_eq. intros k.
      rewrite !elem_of_union, elem_of_singleton. split; [tauto|].
      intros [[->|?]|?]; tauto.
    + rewrite <-app_comm_cons. f_equal. f_equal. f_equal. apply set_eq. intros k.
      rewrite !elem_of_union, elem_of_singleton. tauto.
Qed.

Lemma dedup_filter_all_seen (seen : gset string) (l : list AiCompletion) :
  (∀ c, c ∈ l → completion_key c ∈ seen) → dedup_filter seen l = [].
Proof.
  induction l as [|c l IH]; intros Hl; simpl; [done|].
  rewrite decide_True by (apply Hl; by left).
  apply IH. intros c' Hc'. apply Hl. by right.
Qed.






End MergeAlgebra.


(** After a provider has set the prototype of the merged metadata to [null],
    the key [__proto__] of a later provider becomes a property of the merged
    metadata; merged again, that property is handed to the accessor and is
    gone. *)
Lemma remerge_drops_proto_property :
  cr_metadata (mergeCompletionResults null_prototype_results)
  = Some {["__proto__" := Js.Number 5]}
  ∧ cr_metadata (mergeCompletionResults [mergeCompletionResults null_prototype_results])
    = Some ∅.
Proof. split; by vm_compute. Qed.



(** X6. A provider that only offers completions whose text and start were
    already offered by providers registered before it adds nothing to the
    merged completions. *)
Theorem merge_absorbs_repeats (results : list AiCompletionResult) (r : AiCompletionResult) :
  (∀ c, c ∈ cr_completions r →
        ∃ c', c' ∈ concat (map cr_completions results) ∧ identity c' = identity c) →
  cr_completions (mergeCompletionResults (results ++ [r]))
  = cr_completions (mergeCompletionResults results).
Proof.
  intros Hrep. rewrite !mergeCompletionResults_unfold. cbn [cr_completions].
  rewrite map_app, concat_app. simpl. rewrite app_nil_r.
  unfold deduplicateCompletions. rewrite dedup_filter_app.
  rewrite (dedup_filter_all_seen _ (cr_completions r)); [by rewrite app_nil_r|].
  intros c Hc. destruct (Hrep c Hc) as (c' & Hc' & Hid).
  apply elem_of_union_l, elem_of_list_to_set, list_elem_of_fmap.
  exists c'. split; [|done]. symmetry. by apply completion_key_identity.
Qed.

(** The same completion, offered a second time with another score, kind and
    metadata. *)
Lemma merge_absorbs_repeats_witness :
  cr_completions (mergeCompletionResults
                    ([mkCompletionResult [completion_X; completion_Y] None]
                     ++ [mkCompletionResult [completion_X_again] None]))
  = cr_completions (mergeCompletionResults
                      [mkCompletionResult [completion_X; completion_Y] None]).
Proof.
  apply merge_absorbs_repeats. intros c Hc. exists completion_X.
  apply list_elem_of_singleton in Hc as ->. split; [by left|reflexivity].
Defined.

(** X7. The merge of code-edit results keeps every edit of every provider,
    in registration order, dropping and reordering none; its explanation is
    always defined and comes from the first provider alone: it is empty when
    the first provider gives none, whatever the others explain. *)
Theorem mergeCodeEditResults_rule (first : AiCodeEditResult)
    (others others' : list AiCodeEditResult) :
  let merged := mergeCodeEditResults (first :: others) in
  er_edits merged = er_edits first ++ concat (map er_edits others)
  ∧ length (er_edits merged) = sum_list (length ∘ er_edits <$> first :: others)
  ∧ er_explanation merged = Some (default "" (er_explanation first))
  ∧ er_explanation merged = er_explanation (mergeCodeEditResults (first :: others')).
Proof.
  intros merged. subst merged. rewrite !mergeCodeEditResults_unfold.
  cbn [er_edits er_explanation]. split; [done|]. split; [|done].
  simpl. rewrite length_app. f_equal.
  induction others as [|o others IH]; simpl; [done|]. by rewrite length_app, IH.
Qed.

(** ** Events of a dispatch *)

Lemma try_dispatch_one_event {R} guard registered (call : Provider → Js.Settled R)
    merge type wrap operation :
  one_event (try_dispatch guard registered call merge type wrap operation)
            type wrap operation.
Proof.
  unfold one_event, try_dispatch. destruct guard; [done|].
  by destruct (Js.promise_all _).
Qed.

(** X8. Every dispatch, of either version of the service and of each kind,
    fires exactly one event: a response event carrying the result it
    returns when it succeeds, an error event carrying the error it throws
    and the name of the operation when it fails. *)
Theorem dispatch_fires_one_event (r : Registry) (a : Answers)
    (query message : string) (context : AiContext) (request : AiCodeEditRequest) :
  one_event (AiCoreService.getCompletion r a query context)
            "completion" CompletionResult "getCompletion"
  ∧ one_event (AiCoreService.getChatResponse r a message context)
              "chat" ChatResult "getChatResponse"
  ∧ one_event (AiCoreService.getCodeEdit r a request)
              "codeEdit" CodeEditResult "getCodeEdit"
  ∧ one_event (Legacy.getCompletion r a query context)
              "completion" CompletionResult "getCompletion"
  ∧ one_event (Legacy.getChatResponse r a message context)
              "chat" ChatResult "getChatResponse"
  ∧ one_event (Legacy.getCodeEdit r a request)
              "codeEdit" CodeEditResult "getCodeEdit".
Proof.
  split; [|split; [|split; [|split; [|split]]]]; apply try_dispatch_one_event.
Qed.

(** ** More on the registry *)

Section RegistryEdges.

Lemma remove_first_reregistered {A} `{EqDecision A} (before after : list A) x :
  x ∉ before →
  JsArray.remove_first ((before ++ x :: after) ++ [x]) x = before ++ after ++ [x].
Proof.
  intros Hx. rewrite <-app_assoc. simpl. by rewrite remove_first_first.
Qed.

Lemma construct_all_lists (ps : list Provider) (r : Registry) :
  ProviderLifecycle.construct_all ps r
  = mkRegistry (providers r) (completionProviders r ++ ps)
               (chatProviders r ++ ps) (codeEditProviders r ++ ps).
Proof.
  revert r. induction ps as [|p ps IH]; intros r.
  - simpl. rewrite !app_nil_r. by destruct r.
  - change (ProviderLifecycle.construct_all (p :: ps) r)
      with (ProviderLifecycle.construct_all ps (ProviderLifecycle.construct p r).1).
    rewrite IH. simpl. by rewrite <-!app_assoc.
Qed.

End RegistryEdges.

(** X9. Registering for a kind a provider that is already registered for it,
    and then invoking the capability of that second registration, removes
    the earlier entry: the provider stays registered, at the end of the
    list, and loses its place in the registration order. *)
Theorem reregistration_moves_provider (r : Registry) (provider : Provider)
    (before after : list Provider) :
  provider ∉ before →
  (completionProviders r = before ++ provider :: after →
   let registration := AiProviderManager.registerCodeCompletionProvider provider r in
   completionProviders (AiProviderManager.dispose registration.2 registration.1).1
   = before ++ after ++ [provider])
  ∧ (chatProviders r = before ++ provider :: after →
     let registration := AiProviderManager.registerChatProvider provider r in
     chatProviders (AiProviderManager.dispose registration.2 registration.1).1
     = before ++ after ++ [provider])
  ∧ (codeEditProviders r = before ++ provider :: after →
     let registration := AiProviderManager.registerCodeEditProvider provider r in
     codeEditProviders (AiProviderManager.dispose registration.2 registration.1).1
     = before ++ after ++ [provider]).
Proof.
  intros Hb. split; [|split]; intros Hl; simpl; rewrite Hl;
    by apply remove_first_reregistered.
Qed.

(** [chat_provider], registered before [general_provider] for every kind and
    then once more. *)
Lemma reregistration_moves_provider_witness :
  let r := ProviderLifecycle.construct_all [chat_provider; general_provider] empty_registry in
  let registration := AiProviderManager.registerChatProvider chat_provider r in
  chatProviders r = [chat_provider; general_provider]
  ∧ chatProviders (AiProviderManager.dispose registration.2 registration.1).1
    = [general_provider; chat_provider].
Proof.
  split; [reflexivity|].
  destruct (reregistration_moves_provider
              (ProviderLifecycle.construct_all [chat_provider; general_provider] empty_registry)
              chat_provider [] [general_provider]) as (_ & Hchat & _).
  - apply not_elem_of_nil.
  - apply Hchat. reflexivity.
Defined.

(** X10. A general provider registered under an id that is already taken
    replaces the provider registered before. The capability of the first
    registration then removes the entry of the second provider and calls
    the [dispose] of the first: the second provider is no longer registered
    and was not told. *)
Theorem general_id_clash (r : Registry) (first second : Provider) :
  p_id first = p_id second →
  let registration1 := AiProviderManager.registerAiProvider first r in
  let registration2 := AiProviderManager.registerAiProvider second registration1.1 in
  let unregistered := AiProviderManager.dispose registration1.2 registration2.1 in
  providers registration2.1 !! p_id second = Some second
  ∧ providers registration2.1 = <[p_id second := second]> (providers r)
  ∧ providers unregistered.1 !! p_id second = None
  ∧ unregistered.2 = [first].
Proof.
  intros Hid. simpl. rewrite Hid. split; [by rewrite lookup_insert_eq|].
  split; [by rewrite insert_insert_eq|]. split; [by rewrite lookup_delete_eq|done].
Qed.

Lemma general_id_clash_witness :
  let first := mkProvider 7 "assistant" "First" in
  let second := mkProvider 8 "assistant" "Second" in
  let registration1 := AiProviderManager.registerAiProvider first empty_registry in
  let registration2 := AiProviderManager.registerAiProvider second registration1.1 in
  let unregistered := AiProviderManager.dispose registration1.2 registration2.1 in
  providers unregistered.1 !! "assistant" = None ∧ unregistered.2 = [first].
Proof.
  intros first second registration1 registration2 unregistered.
  destruct (general_id_clash empty_registry first second eq_refl) as (_ & _ & H1 & H2).
  split; [exact H1|exact H2].
Defined.

(** X11. [isEnabled] follows the general providers alone: it is true right
    after [registerAiProvider], and no registration for a kind and no
    capability returned by one ever changes its answer. *)
Theorem isEnabled_frame (r : Registry) (provider : Provider) :
  AiProviderManager.isEnabled (AiProviderManager.registerAiProvider provider r).1 = true
  ∧ AiProviderManager.isEnabled
      (AiProviderManager.registerCodeCompletionProvider provider r).1
    = AiProviderManager.isEnabled r
  ∧ AiProviderManager.isEnabled (AiProviderManager.registerChatProvider provider r).1
    = AiProviderManager.isEnabled r
  ∧ AiProviderManager.isEnabled (AiProviderManager.registerCodeEditProvider provider r).1
    = AiProviderManager.isEnabled r
  ∧ AiProviderManager.isEnabled
      (AiProviderManager.dispose (UnregisterCodeCompletionProvider provider) r).1
    = AiProviderManager.isEnabled r
  ∧ AiProviderManager.isEnabled
      (AiProviderManager.dispose (UnregisterChatProvider provider) r).1
    = AiProviderManager.isEnabled r
  ∧ AiProviderManager.isEnabled
      (AiProviderManager.dispose (UnregisterCodeEditProvider provider) r).1
    = AiProviderManager.isEnabled r.
Proof.
  split; [|by repeat split].
  apply isEnabled_general_map. simpl. apply insert_non_empty.
Qed.

(** ** Strings *)

Section JsStrings.

Lemma prefix_spec (sub s : string) :
  String.prefix sub s = true ↔ ∃ rest, s = sub +:+ rest.
Proof.
  revert s. induction sub as [|a sub IH]; intros s.
  - split; [intros _; by exists s|]. by destruct s.
  - destruct s as [|b s]; simpl.
    + split; [done|]. by intros [rest [=]].
    + destruct (Ascii.ascii_dec a b) as [->|Hne].
      * rewrite IH. split.
        -- intros [rest ->]. by exists rest.
        -- intros [rest Heq]. rewrite string_cons_app in Heq.
           injection Heq as ->. by exists rest.
      * split; [done|]. intros [rest Heq]. rewrite string_cons_app in Heq.
        by injection Heq as -> _.
Qed.

Lemma includes_nil (sub : string) :
  JsString.includes "" sub = String.prefix sub "".
Proof. unfold JsString.includes. apply orb_false_r. Qed.

Lemma includes_cons (c : ascii) (s sub : string) :
  JsString.includes (String c s) sub
  = String.prefix sub (String c s) || JsString.includes s sub.
Proof. reflexivity. Qed.

(** [includes] finds exactly the strings that occur inside. *)
Lemma includes_spec (s sub : string) :
  JsString.includes s sub = true ↔ ∃ before after, s = before +:+ sub +:+ after.
Proof.
  induction s as [|c s IH].
  - rewrite includes_nil, prefix_spec. split.
    + intros [rest ->]. by exists "", rest.
    + intros ([|c pre] & post & Heq); [by exists post|].
      by rewrite string_cons_app in Heq.
  - rewrite includes_cons, orb_true_iff, prefix_spec, IH. split.
    + intros [[rest ->]|(pre & post & ->)]; [by exists "", rest|].
      by exists (String c pre), post.
    + intros ([|c' pre] & post & Heq); [left; by exists post|].
      rewrite string_cons_app in Heq. injection Heq as Hc Hs. subst.
      right. by exists pre, post.
Qed.

End JsStrings.

(** ** The example providers and the service *)

Section Providers.

Lemma dispose_store_lists (this : Provider) (r : Registry)
    (comp chat edit later : list Provider) :
  (this ∉ comp) → (this ∉ chat) → (this ∉ edit) →
  ProviderLifecycle.dispose
    [UnregisterCodeCompletionProvider this; UnregisterChatProvider this;
     UnregisterCodeEditProvider this]
    (mkRegistry (providers r) ((comp ++ [this]) ++ later) ((chat ++ [this]) ++ later)
                ((edit ++ [this]) ++ later))
  = mkRegistry (providers r) (comp ++ later) (chat ++ later) (edit ++ later).
Proof.
  intros Hc Hm He. unfold ProviderLifecycle.dispose. simpl.
  rewrite <-!app_assoc. simpl. by rewrite !remove_first_first.
Qed.

End Providers.

(** X12. The example providers register for the three kinds and never as
    general providers. In the refactored service a registry filled by their
    constructors alone is not enabled, and every dispatch is rejected with
    the no-providers error without any provider being called; in the first
    version every dispatch calls the constructed providers, in the order of
    their construction. *)
Theorem constructed_providers_dispatch (ps : list Provider) (a : Answers)
    (query message : string) (context : AiContext) (request : AiCodeEditRequest) :
  let r := ProviderLifecycle.construct_all ps empty_registry in
  AiCoreService.isEnabled r = false
  ∧ AiCoreService.getCompletion r a query context
    = mkDispatch (Js.Rejected (Js.mkError "No AI providers registered for completion")) []
        [AiErrorEvent (Js.mkError "No AI providers registered for completion") "getCompletion"]
  ∧ AiCoreService.getChatResponse r a message context
    = mkDispatch (Js.Rejected (Js.mkError "No AI providers registered for chat")) []
        [AiErrorEvent (Js.mkError "No AI providers registered for chat") "getChatResponse"]
  ∧ AiCoreService.getCodeEdit r a request
    = mkDispatch (Js.Rejected (Js.mkError "No AI providers registered for code edit")) []
        [AiErrorEvent (Js.mkError "No AI providers registered for code edit") "getCodeEdit"]
  ∧ invoked (Legacy.getCompletion r a query context) = ps
  ∧ invoked (Legacy.getChatResponse r a message context) = ps
  ∧ invoked (Legacy.getCodeEdit r a request) = ps.
Proof.
  intros r. subst r. rewrite construct_all_lists. simpl.
  split; [done|].
  destruct (refactored_dispatch_gate (mkRegistry ∅ ps ps ps) a query message context request
              eq_refl) as (H1 & H2 & H3).
  do 3 (split; [done|]).
  unfold Legacy.getCompletion, Legacy.getChatResponse, Legacy.getCodeEdit.
  rewrite !try_dispatch_invoked. simpl. unfold Legacy.no_providers.
  destruct ps; done.
Qed.

(** X13. Disposing a provider built by the example constructor takes it out
    of all three lists again and leaves the providers constructed after it
    registered, in their order, provided it was not registered before. *)
Theorem provider_dispose_unregisters (r : Registry) (this : Provider)
    (later : list Provider) :
  this ∉ completionProviders r → this ∉ chatProviders r → this ∉ codeEditProviders r →
  let constructed := ProviderLifecycle.construct this r in
  ProviderLifecycle.dispose constructed.2
    (ProviderLifecycle.construct_all later constructed.1)
  = ProviderLifecycle.construct_all later r.
Proof.
  intros Hc Hm He constructed. subst constructed.
  rewrite !construct_all_lists. simpl. by apply dispose_store_lists.
Qed.

Lemma provider_dispose_unregisters_witness :
  ProviderLifecycle.dispose (ProviderLifecycle.construct chat_provider empty_registry).2
    (ProviderLifecycle.construct_all [general_provider]
       (ProviderLifecycle.construct chat_provider empty_registry).1)
  = ProviderLifecycle.construct_all [general_provider] empty_registry.
Proof.
  apply (provider_dispose_unregisters empty_registry chat_provider [general_provider]);
    apply not_elem_of_nil.
Defined.

(** Whether a completion is among those listed, decided on its text. *)
Ltac offered_or_not :=
  split;
  [ first [ done
          | let Hin := fresh "Hin" in
            intros Hin; apply (list_elem_of_fmap_2 c_text) in Hin;
            vm_compute in Hin;
            repeat (apply elem_of_cons in Hin as [Hin|Hin]; [discriminate Hin|]);
            by apply elem_of_nil in Hin ]
  | first [ discriminate
          | intros _; simpl;
            repeat first [ apply list_elem_of_here | apply list_elem_of_further ] ] ].

(** X14. Whatever the query, the example provider offers between one and
    four completions, the generic snippet last and the others exactly when
    the query contains their keyword; they come ranked and distinct, so that
    the merge returns them as they are, also when a second instance of the
    provider offers the same ones. *)
Theorem example_completions_merge (query : string) (now later : Z) :
  let offered := cr_completions (ExampleAiProvider.provideCompletion query now) in
  1 ≤ length offered ≤ 4
  ∧ last offered = Some ExampleAiProvider.generic_completion
  ∧ (ExampleAiProvider.function_completion ∈ offered
     ↔ ∃ before after, query = before +:+ "function" +:+ after)
  ∧ (ExampleAiProvider.class_completion ∈ offered
     ↔ ∃ before after, query = before +:+ "class" +:+ after)
  ∧ (ExampleAiProvider.import_completion ∈ offered
     ↔ ∃ before after, query = before +:+ "import" +:+ after)
  ∧ cr_completions (mergeCompletionResults [ExampleAiProvider.provideCompletion query now])
    = offered
  ∧ cr_completions (mergeCompletionResults
                      [ExampleAiProvider.provideCompletion query now;
                       ExampleAiProvider.provideCompletion query later])
    = offered.
Proof.
  intros offered. subst offered. rewrite !mergeCompletionResults_unfold.
  rewrite <-!includes_spec.
  cbn [cr_completions ExampleAiProvider.provideCompletion map concat].
  destruct (JsString.includes query "function"),
    (JsString.includes query "class"), (JsString.includes query "import");
    (split; [simpl; lia|]); (split; [reflexivity|]);
    repeat (split; [solve [offered_or_not]|]);
    split; by vm_compute.
Qed.

(** ** The assistant service *)

Section Assistant.

Import AiOperationExecutor AssistantOperations.

Lemma buildContext_fulfils (core : IAiCoreService) (s : AiContextManager.State)
    (additional : option AiContext) :
  ∃ context, buildContext core s additional = Js.Fulfilled context
             ∧ ∀ k, k ≠ "workspace" →
                    context !! k
                    = (default ∅ additional ∪ AiContextManager.currentContext s) !! k.
Proof.
  unfold buildContext. cbv zeta.
  rewrite getCurrentContext_copy, spread2_union.
  destruct (negb _); [destruct (core_getWorkspaceContext core) as [workspace|error]|];
    eexists; (split; [reflexivity|]); intros k Hk; [|done..].
  by rewrite lookup_insert_ne.
Qed.

Lemma buildContext_without_workspace (core : IAiCoreService) (s : AiContextManager.State)
    (additional : option AiContext) error :
  core_getWorkspaceContext core = Js.Rejected error →
  buildContext core s additional
  = Js.Fulfilled (default ∅ additional ∪ AiContextManager.currentContext s).
Proof.
  intros Hws. unfold buildContext. cbv zeta.
  rewrite getCurrentContext_copy, spread2_union, Hws. by destruct (negb _).
Qed.

Lemma ask_relays (core : IAiCoreService) (s : AiContextManager.State)
    (additional : option AiContext) (prompt operationType : string)
    (wrap : AiChatResponse → AssistantResult) context :
  buildContext core s additional = Js.Fulfilled context →
  relays (executeOperation operationType wrap (ask core s additional prompt))
         (core_getChatResponse core prompt context) operationType id wrap.
Proof.
  intros Hctx. unfold ask, relays. rewrite Hctx. cbv zeta.
  by destruct (returned _).
Qed.

Lemma message_relays (core : IAiCoreService) (s : AiContextManager.State)
    (additional : option AiContext) (prompt operationType : string) context :
  buildContext core s additional = Js.Fulfilled context →
  relays (executeOperation operationType TextResult
            (message_of (ask core s additional prompt)))
         (core_getChatResponse core prompt context) operationType chat_message TextResult.
Proof.
  intros Hctx. unfold ask, message_of, relays. rewrite Hctx. cbv zeta.
  by destruct (returned _).
Qed.

End Assistant.

(** X15. [buildContext] never fails, whatever the core service does: it
    returns the current context overlaid by the additional one, to which at
    most a workspace is added. With either version of the core service of
    the repository, whose [getWorkspaceContext] always throws, it returns
    that overlay itself. *)
Theorem buildContext_never_fails (core : IAiCoreService) (r : Registry) (a : Answers)
    (s : AiContextManager.State) (additional : option AiContext) :
  (∃ context,
      AiOperationExecutor.buildContext core s additional = Js.Fulfilled context
      ∧ ∀ k, k ≠ "workspace" →
             context !! k
             = (default ∅ additional ∪ AiContextManager.currentContext s) !! k)
  ∧ AiOperationExecutor.buildContext (refactored_core r a) s additional
    = Js.Fulfilled (default ∅ additional ∪ AiContextManager.currentContext s)
  ∧ AiOperationExecutor.buildContext (legacy_core r a) s additional
    = Js.Fulfilled (default ∅ additional ∪ AiContextManager.currentContext s).
Proof.
  split; [apply buildContext_fulfils|].
  split; by eapply buildContext_without_workspace.
Qed.

(** X16. The operations of the assistant that ask the chat providers
    ([refactorCode], [fixBug], [generateTests], [generateDocumentation],
    [chat]) add nothing to the failure policy of the core service: each one
    makes one dispatch, returns the merged message (the merged response for
    [chat]) when the dispatch succeeds and throws the very error of the
    dispatch when it fails, and fires exactly one event of its own, named
    after the operation. *)
Theorem assistant_relays_dispatch (core : IAiCoreService) (s : AiContextManager.State)
    (code instruction message : string) (error framework type : option string)
    (context : option AiContext) :
  (∃ aiContext,
      AiOperationExecutor.buildContext core s None = Js.Fulfilled aiContext
      ∧ relays (AssistantOperations.refactorCode core s code instruction)
               (core_getChatResponse core
                  (AssistantOperations.refactorCode_prompt code instruction) aiContext)
               "refactorCode" chat_message TextResult
      ∧ relays (AssistantOperations.fixBug core s code error)
               (core_getChatResponse core
                  (AssistantOperations.fixBug_prompt code error) aiContext)
               "fixBug" chat_message TextResult
      ∧ relays (AssistantOperations.generateTests core s code framework)
               (core_getChatResponse core
                  (AssistantOperations.generateTests_prompt code framework) aiContext)
               "generateTests" chat_message TextResult
      ∧ relays (AssistantOperations.generateDocumentation core s code type)
               (core_getChatResponse core
                  (AssistantOperations.generateDocumentation_prompt code type) aiContext)
               "generateDocumentation" chat_message TextResult)
  ∧ (∃ aiContext,
        AiOperationExecutor.buildContext core s context = Js.Fulfilled aiContext
        ∧ relays (AssistantOperations.chat core s message context)
                 (core_getChatResponse core message aiContext)
                 "chat" id ChatResponseResult).
Proof.
  split.
  - destruct (buildContext_fulfils core s None) as (aiContext & Hctx & _).
    exists aiContext. split; [done|].
    split; [|split; [|split]]; by apply message_relays.
  - destruct (buildContext_fulfils core s context) as (aiContext & Hctx & _).
    exists aiContext. split; [done|]. by apply ask_relays.
Qed.

(** X17. With either version of the core service of the repository,
    [chatWithFile] and [chatWithSelection] always fail: the file or selection
    context they ask for first is a placeholder that throws, so they reject
    with its not-implemented error, fire one error event, and never reach
    the chat providers. *)
Theorem chat_with_file_always_fails (r : Registry) (a : Answers)
    (s : AiContextManager.State) (message fileUri : string) (range : IRange) :
  AssistantOperations.chatWithFile (refactored_core r a) s message fileUri
  = mkOperation (Js.Rejected (Js.mkError "File context not implemented"))
      [AssistantErrorEvent (Js.mkError "File context not implemented") "chatWithFile"] [] []
  ∧ AssistantOperations.chatWithSelection (refactored_core r a) s message fileUri range
    = mkOperation (Js.Rejected (Js.mkError "Selection context not implemented"))
        [AssistantErrorEvent (Js.mkError "Selection context not implemented")
           "chatWithSelection"] [] []
  ∧ AssistantOperations.chatWithFile (legacy_core r a) s message fileUri
    = mkOperation (Js.Rejected (Js.mkError "Not implemented"))
        [AssistantErrorEvent (Js.mkError "Not implemented") "chatWithFile"] [] []
  ∧ AssistantOperations.chatWithSelection (legacy_core r a) s message fileUri range
    = mkOperation (Js.Rejected (Js.mkError "Not implemented"))
        [AssistantErrorEvent (Js.mkError "Not implemented") "chatWithSelection"] [] [].
Proof. repeat split. Qed.

(** X18. End to end, in the first version of the service: when chat
    providers are registered and all of them answer, [refactorCode] calls
    every one of them with the refactoring prompt and the current context,
    and returns the message of the provider registered first. *)
Theorem refactorCode_returns_first_message (r : Registry) (a : Answers)
    (s : AiContextManager.State) (code instruction : string)
    (first : Provider) (others : list Provider) :
  let prompt := AssistantOperations.refactorCode_prompt code instruction in
  let context := AiContextManager.currentContext s in
  chatProviders r = first :: others →
  (∀ p, p ∈ first :: others →
        ∃ v, Js.outcome (provideChatResponse a p prompt context) = Js.Fulfilled v) →
  ∃ answer,
    Js.outcome (provideChatResponse a first prompt context) = Js.Fulfilled answer
    ∧ op_returned (AssistantOperations.refactorCode (legacy_core r a) s code instruction)
      = Js.Fulfilled (chat_message answer)
    ∧ op_invoked (AssistantOperations.refactorCode (legacy_core r a) s code instruction)
      = first :: others.
Proof.
  intros prompt context Hreg Hall.
  destruct (Hall first) as [answer Hanswer]; [by left|].
  exists answer. split; [done|].
  unfold AssistantOperations.refactorCode, AssistantOperations.ask.
  rewrite (buildContext_without_workspace _ _ _ (Js.mkError "Not implemented")) by done.
  simpl default. rewrite (left_id_L ∅ (∪)). fold prompt. fold context.
  cbn [core_getChatResponse legacy_core]. unfold Legacy.getChatResponse.
  rewrite Hreg. unfold Legacy.no_providers. simpl length.
  rewrite decide_False by done. unfold try_dispatch, Js.promise_all.
  assert (Hnone : Js.first_rejection
                    (map (λ provider, provideChatResponse a provider prompt context)
                         (first :: others)) = None).
  { apply first_rejection_None. apply Forall_forall. intros p' Hp'.
    apply list_elem_of_In, in_map_iff in Hp' as (p & <- & Hp).
    apply Hall. by apply list_elem_of_In. }
  rewrite Hnone. cbn [returned invoked AssistantOperations.message_of
                      AiOperationExecutor.executeOperation op_returned op_invoked].
  rewrite mergeChatResults_unfold. cbn [chat_message].
  split; [|done]. simpl. unfold Js.fulfilled_value at 1. rewrite Hanswer. done.
Qed.

(** A general provider and one provider of each kind registered, each
    answering at once. *)
Lemma refactorCode_returns_first_message_witness :
  op_returned (AssistantOperations.refactorCode (legacy_core full_registry quiet_answers)
                 AiContextManager.fresh "x = 1" "rename x")
  = Js.Fulfilled "".
Proof.
  destruct (refactorCode_returns_first_message full_registry quiet_answers
              AiContextManager.fresh "x = 1" "rename x" chat_provider [])
    as (answer & Hanswer & Hreturned & _).
  - reflexivity.
  - intros p _. by eexists.
  - rewrite Hreturned. by injection Hanswer as <-.
Defined.

(** ** Trimming and searching *)

Section Trim.

Import JsText.

Lemma blank_app (s1 s2 : string) : blank (s1 +:+ s2) ↔ blank s1 ∧ blank s2.
Proof.
  induction s1 as [|c s1 IH]; [rewrite string_nil_app; simpl; tauto|].
  rewrite string_cons_app. simpl. rewrite IH. tauto.
Qed.

Lemma white3_whitish (c1 c2 c3 : ascii) :
  white3 (code c1) (code c2) (code c3) = true →
  whitish c1 = true ∧ whitish c2 = true ∧ whitish c3 = true.
Proof.
  unfold white3, whitish. intros H.
  repeat (setoid_rewrite orb_true_iff in H || setoid_rewrite andb_true_iff in H
          || setoid_rewrite N.eqb_eq in H || setoid_rewrite N.leb_le in H).
  assert (128 ≤ code c1 ∧ 128 ≤ code c2 ∧ 128 ≤ code c3)%N as (H1 & H2 & H3) by lia.
  repeat split; apply orb_true_iff; right; by apply N.leb_le.
Qed.

Lemma strip_white_split (s rest : string) :
  strip_white s = Some rest →
  ∃ white, s = white +:+ rest ∧ blank white ∧ String.length rest < String.length s.
Proof.
  destruct s as [|c1 r1]; [done|]. simpl.
  destruct (ascii_white c1) eqn:H1.
  { intros [= <-]. exists (String c1 ""). repeat split; [|simpl; lia].
    unfold whitish. by rewrite H1. }
  destruct r1 as [|c2 r2]; [done|].
  destruct ((code c1 =? 194) && (code c2 =? 160))%N eqn:H2.
  { intros [= <-]. exists (String c1 (String c2 "")).
    rewrite andb_true_iff, !N.eqb_eq in H2.
    repeat split; [..|simpl; lia]; unfold whitish; apply orb_true_iff; right;
      apply N.leb_le; lia. }
  destruct r2 as [|c3 r3]; [done|].
  destruct (white3 _ _ _) eqn:H3; [|done].
  intros [= <-]. apply white3_whitish in H3 as (? & ? & ?).
  exists (String c1 (String c2 (String c3 ""))). repeat split; [done..|simpl; lia].
Qed.

Lemma trimStart_go_split (fuel : nat) (s : string) :
  ∃ white, s = white +:+ trimStart_go fuel s ∧ blank white.
Proof.
  revert s. induction fuel as [|fuel IH]; intros s; simpl.
  - by exists "".
  - destruct (strip_white s) as [rest|] eqn:Hs; [|by exists ""].
    apply strip_white_split in Hs as (w1 & -> & Hw1 & _).
    destruct (IH rest) as (w2 & Hrest & Hw2).
    exists (w1 +:+ w2). split; [|by apply blank_app].
    rewrite string_app_assoc. by rewrite <-Hrest.
Qed.

Lemma trimStart_split (s : string) : ∃ white, s = white +:+ trimStart s ∧ blank white.
Proof. apply trimStart_go_split. Qed.

Lemma all_white_blank (s : string) : all_white s = true → blank s.
Proof.
  unfold all_white. destruct (trimStart_split s) as (white & Hs & Hw).
  destruct (trimStart s); [|done]. intros _. rewrite Hs. apply blank_app. done.
Qed.

Lemma string_app_nil (s : string) : s +:+ "" = s.
Proof. induction s as [|c s IH]; [done|]. rewrite string_cons_app. by rewrite IH. Qed.

Lemma trimEnd_split (s : string) : ∃ white, s = trimEnd s +:+ white ∧ blank white.
Proof.
  induction s as [|c s IH]; simpl.
  - destruct (all_white ""); by exists "".
  - destruct (all_white (String c s)) eqn:Hall.
    + exists (String c s). split; [done|]. by apply all_white_blank.
    + destruct IH as (white & Hs & Hw). exists white. split; [|done].
      rewrite string_cons_app. by rewrite <-Hs.
Qed.

Lemma trim_split (s : string) :
  ∃ before after, s = before +:+ trim s +:+ after ∧ blank before ∧ blank after.
Proof.
  destruct (trimStart_split s) as (w1 & Hs & Hw1).
  destruct (trimEnd_split (trimStart s)) as (w2 & Ht & Hw2).
  exists w1, w2. split; [|done]. unfold trim. by rewrite <-Ht.
Qed.

Lemma strip_left (white core a word b : string) c :
  blank white → whitish c = false →
  white +:+ core = a +:+ String c word +:+ b →
  ∃ a', core = a' +:+ String c word +:+ b.
Proof.
  revert a. induction white as [|w white IH]; intros a Hw Hc Heq.
  - by exists a.
  - destruct Hw as [Hw Hwhite]. destruct a as [|a0 a].
    + rewrite string_nil_app, !string_cons_app in Heq. injection Heq as -> _. congruence.
    + rewrite !string_cons_app in Heq. injection Heq as _ Heq. by apply (IH a).
Qed.

Lemma blank_not_ends_solid (s : string) : blank s → ¬ ends_solid s.
Proof.
  induction s as [|c s IH]; [by intros _ []|].
  intros [Hc Hs]. destruct s as [|c' s]; simpl; [congruence|]. by apply IH.
Qed.

Lemma strip_right (core white m b : string) :
  blank white → ends_solid m →
  core +:+ white = m +:+ b → ∃ b', core = m +:+ b'.
Proof.
  revert m. induction core as [|c core IH]; intros m Hw Hm Heq.
  - rewrite string_nil_app in Heq. subst white.
    apply blank_app in Hw as [Hw _]. by apply blank_not_ends_solid in Hw.
  - destruct m as [|c' m]; [done|].
    rewrite !string_cons_app in Heq. injection Heq as -> Heq.
    destruct m as [|c'' m].
    + exists core. by rewrite string_cons_app.
    + destruct (IH (String c'' m)) as [b' ->]; [done..|]. by exists b'.
Qed.

Lemma ends_solid_app (a word : string) : ends_solid word → ends_solid (a +:+ word).
Proof.
  intros Hw. induction a as [|c a IH]; [done|].
  rewrite string_cons_app. simpl. destruct (a +:+ word); [by destruct IH|exact IH].
Qed.

Lemma solid_ends_solid (c : ascii) (word : string) :
  solid (String c word) = true → ends_solid (String c word).
Proof.
  revert c. induction word as [|c' word IH]; intros c; simpl.
  - rewrite andb_true_r. by intros ->%negb_true_iff.
  - intros [_ H]%andb_true_iff. by apply IH.
Qed.

(** Trimming a line neither hides nor reveals a word without white space. *)
Lemma includes_trim (s word : string) :
  word ≠ "" → solid word = true →
  JsString.includes (trim s) word = JsString.includes s word.
Proof.
  intros Hne Hsolid. destruct word as [|c word]; [done|].
  assert (Hc : whitish c = false).
  { simpl in Hsolid. apply andb_true_iff in Hsolid as [Hc _]. by apply negb_true_iff. }
  destruct (trim_split s) as (w1 & w2 & Hs & Hw1 & Hw2).
  apply eq_true_iff_eq. rewrite !includes_spec. split.
  - intros (a & b & Ht). exists (w1 +:+ a), (b +:+ w2).
    etrans; [exact Hs|]. rewrite Ht. by rewrite !string_app_assoc.
  - intros (a & b & Ha). rewrite Hs in Ha.
    apply strip_left in Ha as (a' & Ha); [|done..].
    rewrite <-(string_app_assoc a' (String c word) b) in Ha.
    apply strip_right in Ha as (b' & Ha); [|done|].
    + exists a', b'. by rewrite Ha, string_app_assoc.
    + by apply ends_solid_app, solid_ends_solid.
Qed.

End Trim.

(** ** The response parsers *)

Section Parsers.

Import JsText JsString ParserParts.

Lemma sort_lines_filter {A B} (probe : string → string) (first second : string → bool)
    (mkA : string → string → A) (mkB : string → B) (lines : list string) :
  sort_lines probe first second mkA mkB lines
  = ((λ line, mkA (probe line) (trim line))
       <$> filter (λ line, first (probe line) = true) lines,
     (λ line, mkB (trim line))
       <$> filter (λ line, first (probe line) = false ∧ second (probe line) = true) lines).
Proof.
  unfold sort_lines.
  assert (Hgen : ∀ found others,
    foldl (λ '(found, others) line,
             if first (probe line) then (found ++ [mkA (probe line) (trim line)], others)
             else if second (probe line) then (found, others ++ [mkB (trim line)])
             else (found, others))
          (found, others) lines
    = (found ++ ((λ line, mkA (probe line) (trim line))
                   <$> filter (λ line, first (probe line) = true) lines),
       others ++ ((λ line, mkB (trim line))
                    <$> filter (λ line, first (probe line) = false
                                        ∧ second (probe line) = true) lines))).
  { induction lines as [|line lines IH]; intros found others.
    - simpl. by rewrite !app_nil_r.
    - cbn [foldl]. rewrite !filter_cons.
      destruct (first (probe line)) eqn:Hf.
      + rewrite IH, decide_True, decide_False by (done || intros [? _]; done).
        rewrite fmap_cons. by rewrite <-app_assoc.
      + destruct (second (probe line)) eqn:Hs.
        * rewrite IH, decide_False, decide_True by done.
          rewrite fmap_cons. by rewrite <-app_assoc.
        * rewrite IH, !decide_False by (done || intros [_ ?]; done). done. }
  apply Hgen.
Qed.

Lemma sort_lines_ext {A B} (probe1 probe2 : string → string)
    (first1 first2 second1 second2 : string → bool)
    (mkA1 mkA2 : string → string → A) (mkB : string → B) (lines : list string) :
  (∀ line, first1 (probe1 line) = first2 (probe2 line)) →
  (∀ line, second1 (probe1 line) = second2 (probe2 line)) →
  (∀ line, mkA1 (probe1 line) (trim line) = mkA2 (probe2 line) (trim line)) →
  sort_lines probe1 first1 second1 mkA1 mkB lines
  = sort_lines probe2 first2 second2 mkA2 mkB lines.
Proof.
  intros Hf Hs Hm. unfold sort_lines. generalize (@nil A, @nil B).
  induction lines as [|line lines IH]; intros [found others]; [done|].
  cbn [foldl]. rewrite Hf, Hs, Hm. apply IH.
Qed.

Lemma trimmed_word (line word : string) :
  word ≠ "" → solid word = true → includes (trim line) word = includes line word.
Proof. apply includes_trim. Qed.

Ltac untrim := cbn beta; rewrite ?trimmed_word by (done || reflexivity).

Lemma review_lines_agree (lines : list string) :
  sort_lines trim isIssueLine isSuggestionLine
    (λ trimmedLine _, createReviewIssue trimmedLine) createReviewSuggestion lines
  = sort_lines (λ line, line)
      (λ line, includes line "error" || includes line "warning" || includes line "issue")
      (λ line, includes line "suggestion" || includes line "recommendation")
      (λ line trimmed, mkReviewIssue (if includes line "error" then RS_Error else RS_Warning)
                                     trimmed None)
      (λ trimmed, mkReviewSuggestion trimmed P_Medium "Improves code quality")
      lines.
Proof.
  apply sort_lines_ext; intros line;
    unfold isIssueLine, isSuggestionLine, createReviewIssue; by untrim.
Qed.

Lemma performance_lines_agree (lines : list string) :
  sort_lines trim isPerformanceIssueLine isOptimizationLine
    (λ trimmedLine _, createPerformanceIssue trimmedLine)
    createPerformanceOptimization lines
  = sort_lines (λ line, line)
      (λ line, includes line "performance" || includes line "slow"
               || includes line "inefficient")
      (λ line, includes line "optimize" || includes line "improve")
      (λ _ trimmed, mkPerformanceIssue L_Medium trimmed None "Reduces performance"
                                       "Consider optimization")
      (λ trimmed, mkPerformanceOptimization trimmed "Manual implementation required"
                                            "Performance improvement")
      lines.
Proof.
  apply sort_lines_ext; intros line;
    unfold isPerformanceIssueLine, isOptimizationLine; by untrim.
Qed.

Lemma security_lines_agree (lines : list string) :
  sort_lines trim isVulnerabilityLine isSecurityRecommendationLine
    (λ trimmedLine _, createSecurityVulnerability trimmedLine)
    createSecurityRecommendation lines
  = sort_lines (λ line, line)
      (λ line, includes line "vulnerability" || includes line "security"
               || includes line "risk")
      (λ line, includes line "secure" || includes line "protect")
      (λ _ trimmed, mkVulnerability L_Medium "General security issue" trimmed None
                                    "Review and fix")
      (λ trimmed, mkRecommendation trimmed "Manual implementation required" P_Medium)
      lines.
Proof.
  apply sort_lines_ext; intros line;
    unfold isVulnerabilityLine, isSecurityRecommendationLine; by untrim.
Qed.

End Parsers.

(** X19. The parsers of the refactored assistant service and those of its
    second version agree on every response: the review is parsed alike, and
    the performance and security analyses are parsed alike but for the
    score, which the refactored parsers read from the response and the
    others always set to 5. *)
Theorem parsers_agree (response : string) :
  AiResponseParser.parseCodeReviewResponse response
  = InlineParser.parseCodeReviewResponse response
  ∧ (let old := InlineParser.parsePerformanceResponse response in
     perf_score old = JsText.Exactly 5
     ∧ AiResponseParser.parsePerformanceResponse response
       = mkPerformance (ParserParts.extractScore response (JsText.Exactly 5))
                       (perf_issues old) (perf_optimizations old) (perf_summary old))
  ∧ (let old := InlineParser.parseSecurityResponse response in
     sec_score old = JsText.Exactly 5
     ∧ AiResponseParser.parseSecurityResponse response
       = mkSecurity (ParserParts.extractScore response (JsText.Exactly 5))
                    (sec_vulnerabilities old) (sec_recommendations old) (sec_summary old)).
Proof.
  split; [|split].
  - unfold AiResponseParser.parseCodeReviewResponse, InlineParser.parseCodeReviewResponse.
    cbv zeta. by rewrite review_lines_agree.
  - unfold AiResponseParser.parsePerformanceResponse, InlineParser.parsePerformanceResponse.
    cbv zeta. rewrite performance_lines_agree.
    by destruct (ParserParts.sort_lines _ _ _ _ _ _).
  - unfold AiResponseParser.parseSecurityResponse, InlineParser.parseSecurityResponse.
    cbv zeta. rewrite security_lines_agree.
    by destruct (ParserParts.sort_lines _ _ _ _ _ _).
Qed.

(** ** Reading the score *)

Section Score.

Import JsText JsString ParserParts.

Lemma lower_ascii_app (s1 s2 : string) :
  lower_ascii (s1 +:+ s2) = lower_ascii s1 +:+ lower_ascii s2.
Proof.
  induction s1 as [|c s1 IH]; [done|].
  rewrite string_cons_app. simpl. by rewrite IH.
Qed.

Lemma after_word_lower (word s rest : string) :
  after_word word s = Some rest → ∃ m, s = m +:+ rest ∧ lower_ascii m = word.
Proof.
  revert s. induction word as [|w word IH]; intros s; simpl.
  - intros [= ->]. by exists "".
  - destruct s as [|c s]; [done|]. case_decide as Hc; [|done].
    intros (m & -> & Hm)%IH. exists (String c m). split; [done|].
    simpl. by rewrite Hc, Hm.
Qed.

Lemma score_here_lower (s digits : string) :
  score_here s = Some digits → String.prefix "score" (lower_ascii s) = true.
Proof.
  unfold score_here. destruct (after_word "score" s) as [rest|] eqn:Hw; [|done].
  intros _. apply after_word_lower in Hw as (m & -> & Hm).
  apply prefix_spec. exists (lower_ascii rest). by rewrite lower_ascii_app, Hm.
Qed.

Lemma match_score_lower (s digits : string) :
  match_score s = Some digits → includes (lower_ascii s) "score" = true.
Proof.
  induction s as [|c s IH].
  - simpl. by destruct (score_here "") eqn:H.
  - cbn [match_score]. destruct (score_here (String c s)) as [ds|] eqn:Hh.
    + intros _. apply score_here_lower in Hh.
      cbn [lower_ascii] in *. rewrite includes_cons, Hh. done.
    + intros H%IH. cbn [lower_ascii]. rewrite includes_cons, H. apply orb_true_r.
Qed.

Lemma decimal_go_app (acc : N) (a b : string) :
  decimal_go acc (a +:+ b) = decimal_go (decimal_go acc a) b.
Proof.
  revert acc. induction a as [|c a IH]; intros acc; [done|].
  rewrite string_cons_app. simpl. by rewrite IH.
Qed.

Lemma all_digits_app (a b : string) : all_digits (a +:+ b) ↔ all_digits a ∧ all_digits b.
Proof.
  induction a as [|c a IH]; [rewrite string_nil_app; simpl; tauto|].
  rewrite string_cons_app. simpl. rewrite IH. tauto.
Qed.

Lemma pretty_N_char_digit (d : N) :
  (d < 10)%N →
  is_digit (pretty_N_char d) = true ∧ (code (pretty_N_char d) - 48 = d)%N.
Proof.
  intros Hd.
  assert (d = 0 ∨ d = 1 ∨ d = 2 ∨ d = 3 ∨ d = 4 ∨ d = 5 ∨ d = 6 ∨ d = 7 ∨ d = 8 ∨ d = 9)%N
    as Hcases by lia.
  repeat (destruct Hcases as [->|Hcases]; [by vm_compute|]). subst. by vm_compute.
Qed.

Lemma pretty_N_go_decimal (x : N) (s : string) :
  ∃ digits, pretty_N_go x s = digits +:+ s
            ∧ all_digits digits
            ∧ ((0 < x)%N → digits ≠ "")
            ∧ ∀ acc, ∃ k, decimal_go acc digits = (acc * 10 ^ k + x)%N.
Proof.
  revert s. induction (N.lt_wf_0 x) as [x _ IH]; intros s.
  destruct (decide (x = 0)%N) as [->|Hx].
  - exists "". rewrite pretty_N_go_0. repeat split; [lia|].
    intros acc. exists 0%N. simpl. lia.
  - rewrite pretty_N_go_step by lia.
    destruct (IH (x `div` 10)%N) with (s := String (pretty_N_char (x `mod` 10)) s)
      as (digits & Heq & Hd & _ & Hval).
    { apply N.div_lt; lia. }
    destruct (pretty_N_char_digit (x `mod` 10)%N) as [Hdig Hcode].
    { apply N.mod_lt. lia. }
    exists (digits +:+ String (pretty_N_char (x `mod` 10)) "").
    split; [by rewrite Heq, string_app_assoc|].
    split; [apply all_digits_app; by repeat split|].
    split; [intros _; by destruct digits|].
    intros acc. destruct (Hval acc) as [k Hk]. exists (N.succ k).
    rewrite decimal_go_app, Hk. simpl. rewrite Hcode, N.pow_succ_r'.
    pose proof (N.div_mod x 10). lia.
Qed.

Lemma pretty_N_decimal (n : N) :
  all_digits (pretty n) ∧ pretty n ≠ "" ∧ decimal_go 0 (pretty n) = n.
Proof.
  unfold pretty, pretty_N. case_decide as Hn.
  - subst. by vm_compute.
  - destruct (pretty_N_go_decimal n "") as (digits & Heq & Hd & Hne & Hval).
    rewrite Heq, string_app_nil. split; [done|]. split; [apply Hne; lia|].
    destruct (Hval 0%N) as [k Hk]. rewrite Hk. lia.
Qed.

End Score.

Section ScoreRoundTrip.

Import JsText JsString ParserParts.

Lemma digit_code (c : ascii) : is_digit c = true → (48 ≤ code c ≤ 57)%N.
Proof.
  unfold is_digit. rewrite andb_true_iff, !N.leb_le. tauto.
Qed.

Lemma strip_white_digit (c : ascii) (rest : string) :
  is_digit c = true → strip_white (String c rest) = None.
Proof.
  intros Hc%digit_code. unfold strip_white, ascii_white, white3.
  rewrite (proj2 (N.leb_gt (code c) 13)), (proj2 (N.eqb_neq (code c) 32)) by lia.
  rewrite andb_false_r. cbn [orb].
  destruct rest as [|c2 r2]; [done|].
  rewrite (proj2 (N.eqb_neq (code c) 194)) by lia. cbn [andb].
  destruct r2 as [|c3 r3]; [done|].
  rewrite (proj2 (N.eqb_neq (code c) 225)), (proj2 (N.eqb_neq (code c) 226)),
    (proj2 (N.eqb_neq (code c) 227)), (proj2 (N.eqb_neq (code c) 239)) by lia.
  done.
Qed.

Lemma leading_digits_app (digits rest : string) :
  all_digits digits → leading_digits rest = "" →
  leading_digits (digits +:+ rest) = digits.
Proof.
  intros Hd Hr. induction digits as [|c digits IH]; [done|].
  destruct Hd as [Hc Hd]. rewrite string_cons_app. simpl. rewrite Hc. by rewrite IH.
Qed.

Lemma score_here_printed (n : N) (rest : string) :
  leading_digits rest = "" →
  score_here ("score: " +:+ pretty n +:+ rest) = Some (pretty n).
Proof.
  intros Hrest. destruct (pretty_N_decimal n) as (Hd & Hne & _).
  destruct (pretty n) as [|c digits] eqn:Hp; [done|].
  rewrite !string_cons_app, string_nil_app. unfold score_here.
  change (after_word "score" _) with (Some (String ":" (String " " (String c (digits +:+ rest))))).
  unfold skip_separators. cbn [String.length skip_separators_go].
  change (code ":" =? 58)%N with true. cbn iota.
  change (code " " =? 58)%N with false. cbn iota.
  change (strip_white (String " " ?s)) with (Some s). cbn iota.
  destruct Hd as [Hc Hd].
  rewrite strip_white_digit by done.
  rewrite (proj2 (N.eqb_neq (code c) 58)) by (apply digit_code in Hc; lia).
  rewrite <-string_cons_app, leading_digits_app by done. done.
Qed.

End ScoreRoundTrip.

(** X20. A review is sorted line by line: the issues are the trimmed lines
    that contain "error", "warning" or "issue", in the order of the
    response, the suggestions are the trimmed lines that contain
    "suggestion" or "recommendation" and none of the issue words; a line
    gives one entry at most, an issue is an error exactly when its line
    contains "error" and a warning otherwise, never carries a line number,
    and the summary is the response itself. *)
Theorem review_lines_sorted (response : string) :
  let result := AiResponseParser.parseCodeReviewResponse response in
  let lines := JsText.split_lines response in
  review_issues result
  = (λ line, ParserParts.createReviewIssue (JsText.trim line))
      <$> filter (λ line, ParserParts.isIssueLine (JsText.trim line) = true) lines
  ∧ review_suggestions result
    = (λ line, ParserParts.createReviewSuggestion (JsText.trim line))
        <$> filter (λ line, ParserParts.isIssueLine (JsText.trim line) = false
                            ∧ ParserParts.isSuggestionLine (JsText.trim line) = true) lines
  ∧ length (review_issues result) + length (review_suggestions result) ≤ length lines
  ∧ review_summary result = response
  ∧ Forall (λ issue, ri_line issue = None
                     ∧ ri_severity issue ≠ RS_Info
                     ∧ (ri_severity issue = RS_Error
                        ↔ JsString.includes (ri_message issue) "error" = true))
           (review_issues result).
Proof.
  intros result lines. subst result.
  unfold AiResponseParser.parseCodeReviewResponse. cbv zeta.
  rewrite sort_lines_filter. fold lines. cbn [review_issues review_suggestions review_summary].
  split; [done|]. split; [done|]. split; [|split; [done|]].
  - rewrite !length_fmap. clear. induction lines as [|line lines IH]; [done|].
    rewrite !filter_cons. destruct (ParserParts.isIssueLine (JsText.trim line)).
    + rewrite decide_True, decide_False by (done || intros [? _]; done). simpl. lia.
    + rewrite decide_False by done. case_decide; simpl; lia.
  - apply Forall_fmap, Forall_forall. intros line _. simpl.
    destruct (JsString.includes (JsText.trim line) "error"); repeat split; done.
Qed.

(** X21. A response in which the word "score" does not occur, in whatever
    case, is given the default score: 5 in the three parsers. *)
Theorem score_defaults (response : string) (defaultValue : JsText.Whole) :
  JsString.includes (lower_ascii response) "score" = false →
  ParserParts.extractScore response defaultValue = defaultValue
  ∧ review_score (AiResponseParser.parseCodeReviewResponse response) = JsText.Exactly 5
  ∧ perf_score (AiResponseParser.parsePerformanceResponse response) = JsText.Exactly 5
  ∧ sec_score (AiResponseParser.parseSecurityResponse response) = JsText.Exactly 5.
Proof.
  intros Hno.
  assert (Hnone : JsText.match_score response = None).
  { destruct (JsText.match_score response) as [digits|] eqn:Hm; [|done].
    apply match_score_lower in Hm. congruence. }
  unfold AiResponseParser.parseCodeReviewResponse, AiResponseParser.parsePerformanceResponse,
    AiResponseParser.parseSecurityResponse, ParserParts.extractScore.
  cbv zeta. rewrite Hnone.
  repeat split; by destruct (ParserParts.sort_lines _ _ _ _ _ _).
Qed.

Lemma score_defaults_witness :
  review_score (AiResponseParser.parseCodeReviewResponse "Looks fine. No errors.")
  = JsText.Exactly 5.
Proof.
  by destruct (score_defaults "Looks fine. No errors." (JsText.Exactly 5) eq_refl)
    as (_ & H & _).
Defined.

(** X22. A score written as ["score: n"] at the start of the response is
    read back as [n], for every whole number that a double holds exactly:
    the parsers accept any such number and do not bring it into the range
    from 1 to 10 that the prompt asks for. *)
Theorem score_read_back (n : N) (rest : string) :
  (n < 2 ^ 53)%N →
  JsText.leading_digits rest = "" →
  let response := "score: " +:+ pretty n +:+ rest in
  ParserParts.extractScore response (JsText.Exactly 5) = JsText.Exactly n
  ∧ review_score (AiResponseParser.parseCodeReviewResponse response) = JsText.Exactly n
  ∧ review_score (InlineParser.parseCodeReviewResponse response) = JsText.Exactly n.
Proof.
  intros Hn Hrest response.
  assert (Hm : JsText.match_score response = Some (pretty n)).
  { subst response. pose proof (score_here_printed n rest Hrest) as Hh.
    destruct ("score: " +:+ pretty n +:+ rest); cbn [JsText.match_score]; by rewrite Hh. }
  assert (Hp : JsText.parseInt (pretty n) = JsText.Exactly n).
  { unfold JsText.parseInt. destruct (pretty_N_decimal n) as (_ & _ & ->).
    by rewrite (proj2 (N.ltb_lt _ _) Hn). }
  unfold AiResponseParser.parseCodeReviewResponse, InlineParser.parseCodeReviewResponse,
    ParserParts.extractScore.
  cbv zeta. rewrite Hm, Hp.
  repeat split; by destruct (ParserParts.sort_lines _ _ _ _ _ _).
Qed.

Lemma score_read_back_witness :
  review_score (AiResponseParser.parseCodeReviewResponse ("score: " +:+ pretty 100%N +:+ "/10"))
  = JsText.Exactly 100.
Proof.
  destruct (score_read_back 100 "/10") as (_ & H & _); [by vm_compute|reflexivity|exact H].
Defined.

Lemma filter_of_fmap {A B} (f : A → B) (P : B → Prop) `{!∀ y, Decision (P y)}
    (l : list A) :
  filter P (f <$> l) = f <$> filter (λ x, P (f x)) l.
Proof.
  induction l as [|x l IH]; [done|].
  rewrite fmap_cons, !filter_cons. cbn beta.
  case_decide; [rewrite fmap_cons|]; by rewrite IH.
Qed.

(** X23. The performance and the security parser sort the lines of a
    response as the review parser does: the first list holds the trimmed
    lines that pass the first test, in the order of the response, the second
    list the trimmed lines that fail the first test and pass the second; a
    line gives one entry at most, every entry has the severity or priority
    medium and no line number, and the summary is the response itself. *)
Theorem analysis_lines_sorted (response : string) :
  let performance := AiResponseParser.parsePerformanceResponse response in
  let security := AiResponseParser.parseSecurityResponse response in
  let lines := JsText.trim <$> JsText.split_lines response in
  (pi_message <$> perf_issues performance
   = filter (λ line, ParserParts.isPerformanceIssueLine line = true) lines
   ∧ po_description <$> perf_optimizations performance
     = filter (λ line, ParserParts.isPerformanceIssueLine line = false
                       ∧ ParserParts.isOptimizationLine line = true) lines
   ∧ length (perf_issues performance) + length (perf_optimizations performance)
     ≤ length lines
   ∧ Forall (λ issue, pi_severity issue = L_Medium ∧ pi_line issue = None)
            (perf_issues performance)
   ∧ perf_summary performance = response)
  ∧ (sv_description <$> sec_vulnerabilities security
     = filter (λ line, ParserParts.isVulnerabilityLine line = true) lines
     ∧ sr_description <$> sec_recommendations security
       = filter (λ line, ParserParts.isVulnerabilityLine line = false
                         ∧ ParserParts.isSecurityRecommendationLine line = true) lines
     ∧ length (sec_vulnerabilities security) + length (sec_recommendations security)
       ≤ length lines
     ∧ Forall (λ found, sv_severity found = L_Medium ∧ sv_line found = None)
              (sec_vulnerabilities security)
     ∧ Forall (λ advice, sr_priority advice = P_Medium) (sec_recommendations security)
     ∧ sec_summary security = response).
Proof.
  intros performance security lines. subst performance security.
  unfold AiResponseParser.parsePerformanceResponse, AiResponseParser.parseSecurityResponse.
  cbv zeta. rewrite !sort_lines_filter.
  cbn [perf_issues perf_optimizations perf_summary
       sec_vulnerabilities sec_recommendations sec_summary].
  subst lines. generalize (JsText.split_lines response) as lines. intros lines.
  assert (Hcount : ∀ (first second : string → bool),
             length (filter (λ line, first (JsText.trim line) = true) lines)
             + length (filter (λ line, first (JsText.trim line) = false
                                       ∧ second (JsText.trim line) = true) lines)
             ≤ length lines).
  { intros first second. induction lines as [|line lines IH]; [done|].
    rewrite !filter_cons. destruct (first (JsText.trim line)).
    - rewrite decide_True, decide_False by (done || intros [? _]; done). simpl. lia.
    - rewrite decide_False by done. case_decide; simpl; lia. }
  rewrite !filter_of_fmap, !length_fmap, <-!list_fmap_compose.
  split; (split; [done|]); (split; [done|]); (split; [apply Hcount|]).
  - split; [|done]. by apply Forall_fmap, Forall_forall.
  - split; [by apply Forall_fmap, Forall_forall|].
    split; [by apply Forall_fmap, Forall_forall|done].
Qed.

Section AnalysisOperations.

Import AiOperationExecutor AssistantOperations.

Lemma refactored_chat_without_chat_provider (r : Registry) (a : Answers)
    (message : string) (context : AiContext) :
  AiProviderManager.isEnabled r = true → chatProviders r = [] →
  AiCoreService.getChatResponse r a message context
  = mkDispatch (Js.Fulfilled (mkChatResponse "" [] [] (Some ∅))) []
      [AiResponseEvent "chat" (ChatResult (mkChatResponse "" [] [] (Some ∅)))].
Proof.
  intros Hen Hchat.
  unfold AiCoreService.getChatResponse, AiCoreService.validateProvidersExist,
    AiProviderManager.getChatProviders.
  by rewrite Hen, Hchat.
Qed.

End AnalysisOperations.

(** X24. In the refactored services, when a general provider is registered
    and no chat provider is, the three analyses of the assistant do not
    fail: each returns the analysis of the empty answer, with the default
    score 5, no findings and an empty summary, fires a response event and
    has called no provider. With the first version of the core service the
    same calls reject with the no-chat-providers error. *)
Theorem analysis_without_chat_provider (r : Registry) (a : Answers)
    (s : AiContextManager.State) (code : string) :
  AiProviderManager.isEnabled r = true →
  chatProviders r = [] →
  let answered := [AiResponseEvent "chat" (ChatResult (mkChatResponse "" [] [] (Some ∅)))] in
  let review := mkCodeReview (JsText.Exactly 5) [] [] "" in
  let performance := mkPerformance (JsText.Exactly 5) [] [] "" in
  let security := mkSecurity (JsText.Exactly 5) [] [] "" in
  let missing := Js.mkError "No chat providers registered" in
  let refused := [AiErrorEvent missing "getChatResponse"] in
  (AssistantOperations.reviewCode (refactored_core r a) s code
   = mkOperation (Js.Fulfilled review)
       [AssistantResponseEvent "reviewCode" (ReviewResult review)] answered []
   ∧ AssistantOperations.optimizePerformance (refactored_core r a) s code
     = mkOperation (Js.Fulfilled performance)
         [AssistantResponseEvent "optimizePerformance" (PerformanceResult performance)]
         answered []
   ∧ AssistantOperations.analyzeSecurity (refactored_core r a) s code
     = mkOperation (Js.Fulfilled security)
         [AssistantResponseEvent "analyzeSecurity" (SecurityResult security)] answered [])
  ∧ (AssistantOperations.reviewCode (legacy_core r a) s code
     = mkOperation (Js.Rejected missing) [AssistantErrorEvent missing "reviewCode"] refused []
     ∧ AssistantOperations.optimizePerformance (legacy_core r a) s code
       = mkOperation (Js.Rejected missing) [AssistantErrorEvent missing "optimizePerformance"]
           refused []
     ∧ AssistantOperations.analyzeSecurity (legacy_core r a) s code
       = mkOperation (Js.Rejected missing) [AssistantErrorEvent missing "analyzeSecurity"]
           refused []).
Proof.
  intros Hen Hchat answered review performance security missing refused.
  unfold AssistantOperations.reviewCode, AssistantOperations.optimizePerformance,
    AssistantOperations.analyzeSecurity, AssistantOperations.ask.
  split.
  - rewrite (buildContext_without_workspace _ _ _
               (Js.mkError "Workspace context not implemented")) by done.
    cbn [core_getChatResponse refactored_core].
    rewrite !refactored_chat_without_chat_provider by done. done.
  - rewrite (buildContext_without_workspace _ _ _ (Js.mkError "Not implemented")) by done.
    cbn [core_getChatResponse legacy_core].
    unfold Legacy.getChatResponse, Legacy.no_providers. rewrite Hchat. done.
Qed.

Lemma analysis_without_chat_provider_witness :
  op_returned (AssistantOperations.reviewCode (refactored_core general_only quiet_answers)
                 AiContextManager.fresh "x = 1")
  = Js.Fulfilled (mkCodeReview (JsText.Exactly 5) [] [] "").
Proof.
  destruct (analysis_without_chat_provider general_only quiet_answers
              AiContextManager.fresh "x = 1" eq_refl eq_refl) as [[H _] _].
  by rewrite H.
Defined.

(** ** The panel widget *)

Section Panel.

Import PanelParts.

Lemma listen_effects (events : list AssistantEvent) (s : Panel) :
  messageHistory (listen events s)
  = messageHistory s ++ (apology ∘ fst <$> error_events events)
  ∧ panel_fired (listen events s)
    = panel_fired s
      ++ ((λ failure, PanelError (Js.message failure.1) failure.2) <$> error_events events)
  ∧ isLoading (listen events s) = isLoading s
  ∧ isVisible (listen events s) = isVisible s.
Proof.
  unfold listen. revert s.
  induction events as [|event events IH]; intros s.
  - simpl. by rewrite !app_nil_r.
  - cbn [foldl]. destruct (IH (handleAssistantEvent s event)) as (-> & -> & -> & ->).
    destruct event as [type result|error context]; [done|].
    change (error_events (AssistantErrorEvent error context :: events))
      with ((error, context) :: error_events events).
    rewrite !fmap_cons.
    cbn [handleAssistantEvent handleError addMessage fire messageHistory panel_fired
         isLoading isVisible].
    by rewrite <-!app_assoc.
Qed.

Lemma refactored_operation_history {R} (operationType request : string)
    (operation : Operation R) (formatResponse : R → AiPanelResponse)
    (after : Panel → Panel) (s : Panel) :
  (∀ s', messageHistory (after s') = messageHistory s'
         ∧ isVisible (after s') = isVisible s') →
  request_and_apologies s
    (setLoading false
       (after (AiPanelWidget.executeOperation operationType operation formatResponse
                 (AiPanelWidget.addUserMessage request (setLoading true s)))))
    request operation.
Proof.
  intros Hafter. unfold request_and_apologies.
  cbn [setLoading messageHistory isLoading isVisible].
  destruct (Hafter (AiPanelWidget.executeOperation operationType operation formatResponse
                      (AiPanelWidget.addUserMessage request (setLoading true s))))
    as [-> ->].
  unfold AiPanelWidget.executeOperation. cbv zeta.
  destruct (listen_effects (op_fired operation)
              (AiPanelWidget.addUserMessage request (setLoading true s)))
    as (Hm & _ & _ & Hv).
  destruct (op_returned operation);
    cbn [fire messageHistory isVisible]; rewrite Hm, Hv;
    cbn [AiPanelWidget.addUserMessage addMessage setLoading messageHistory isVisible];
    by rewrite <-app_assoc.
Qed.

Lemma legacy_operation_history {R} (operationType request : string)
    (operation : Operation R) (formatResponse : R → AiPanelResponse)
    (sent : option string) (s : Panel) :
  answer_or_apologies s
    (LegacyPanel.attempt operationType operation request formatResponse sent s)
    request operation (pr_content ∘ formatResponse).
Proof.
  unfold answer_or_apologies, LegacyPanel.attempt. cbv zeta.
  cbn [setLoading messageHistory isLoading isVisible].
  destruct (listen_effects (op_fired operation) (setLoading true s)) as (Hm & _ & _ & Hv).
  destruct (op_returned operation); [destruct sent|];
    cbn [fire addMessage handleError messageHistory isVisible]; rewrite Hm, Hv;
    cbn [setLoading messageHistory isVisible]; by rewrite <-!app_assoc.
Qed.

Lemma sendMessage_guard (message : string) (s : Panel) :
  isLoading s = false → JsText.trim message ≠ "" →
  isLoading s || bool_decide (JsText.trim message = "") = false.
Proof.
  intros -> Hm. by rewrite bool_decide_eq_false_2.
Qed.

End Panel.

(** X25. The refactored widget never puts an answer into its history: an
    operation started while the widget is idle appends the request of the
    user and nothing else, apart from one apology for every error event
    that the assistant fires meanwhile; it ends idle and leaves the
    visibility alone. So after a successful operation the history holds the
    question without its answer. *)
Theorem refactored_panel_keeps_no_answer (assistant : IAiAssistantService) (s : Panel)
    (code instruction message : string) (error framework : option string) :
  isLoading s = false →
  JsText.trim message ≠ "" →
  request_and_apologies s (AiPanelWidget.explainCode assistant code s)
    (PanelParts.explain_request code) (assistant_explainCode assistant code)
  ∧ request_and_apologies s (AiPanelWidget.refactorCode assistant code instruction s)
      (PanelParts.refactor_request code instruction)
      (assistant_refactorCode assistant code instruction)
  ∧ request_and_apologies s (AiPanelWidget.fixBug assistant code error s)
      (PanelParts.fix_request code error) (assistant_fixBug assistant code error)
  ∧ request_and_apologies s (AiPanelWidget.generateTests assistant code framework s)
      (PanelParts.test_request code framework)
      (assistant_generateTests assistant code framework)
  ∧ request_and_apologies s (AiPanelWidget.reviewCode assistant code s)
      (PanelParts.review_request code) (assistant_reviewCode assistant code)
  ∧ request_and_apologies s (AiPanelWidget.optimizePerformance assistant code s)
      (PanelParts.performance_request code) (assistant_optimizePerformance assistant code)
  ∧ request_and_apologies s (AiPanelWidget.analyzeSecurity assistant code s)
      (PanelParts.security_request code) (assistant_analyzeSecurity assistant code)
  ∧ request_and_apologies s (AiPanelWidget.sendMessage assistant message s)
      message (assistant_chat assistant message).
Proof.
  intros Hidle Hmessage.
  unfold AiPanelWidget.explainCode, AiPanelWidget.refactorCode, AiPanelWidget.fixBug,
    AiPanelWidget.generateTests, AiPanelWidget.reviewCode,
    AiPanelWidget.optimizePerformance, AiPanelWidget.analyzeSecurity,
    AiPanelWidget.sendMessage.
  rewrite sendMessage_guard, Hidle by done. cbv zeta.
  split; [|split; [|split; [|split; [|split; [|split; [|split]]]]]].
  8: by apply (refactored_operation_history _ _ _ _ (PanelParts.fire (MessageSent message))).
  all: by apply (refactored_operation_history _ _ _ _ (λ s', s')).
Qed.

Lemma refactored_panel_keeps_no_answer_witness :
  messageHistory
    (AiPanelWidget.sendMessage
       (refactored_assistant (refactored_core full_registry quiet_answers)
                             AiContextManager.fresh)
       "hi" (mkPanel true false [] []))
  = [mkMessage User "hi"].
Proof.
  destruct (refactored_panel_keeps_no_answer
              (refactored_assistant (refactored_core full_registry quiet_answers)
                                    AiContextManager.fresh)
              (mkPanel true false [] []) "" "" "hi" None None eq_refl)
    as (_ & _ & _ & _ & _ & _ & _ & H & _); [by vm_compute|].
  exact H.
Defined.

(** X26. The first version of the widget records an exchange only when it
    succeeds: an operation started while the widget is idle appends the
    request of the user followed by the answer when the assistant fulfils,
    and one apology without the request when the assistant rejects, in both
    cases after one apology for every error event that the assistant fired
    meanwhile; it ends idle and leaves the visibility alone. *)
Theorem legacy_panel_records_exchange (assistant : IAiAssistantService) (s : Panel)
    (code instruction message : string) (error framework : option string) :
  isLoading s = false →
  JsText.trim message ≠ "" →
  answer_or_apologies s (LegacyPanel.explainCode assistant code s)
    (PanelParts.explain_request code) (assistant_explainCode assistant code) id
  ∧ answer_or_apologies s (LegacyPanel.refactorCode assistant code instruction s)
      (PanelParts.refactor_request code instruction)
      (assistant_refactorCode assistant code instruction) id
  ∧ answer_or_apologies s (LegacyPanel.fixBug assistant code error s)
      (PanelParts.fix_request code error) (assistant_fixBug assistant code error) id
  ∧ answer_or_apologies s (LegacyPanel.generateTests assistant code framework s)
      (PanelParts.test_request code framework)
      (assistant_generateTests assistant code framework) id
  ∧ answer_or_apologies s (LegacyPanel.reviewCode assistant code s)
      (PanelParts.review_request code) (assistant_reviewCode assistant code)
      review_summary
  ∧ answer_or_apologies s (LegacyPanel.optimizePerformance assistant code s)
      (PanelParts.performance_request code) (assistant_optimizePerformance assistant code)
      perf_summary
  ∧ answer_or_apologies s (LegacyPanel.analyzeSecurity assistant code s)
      (PanelParts.security_request code) (assistant_analyzeSecurity assistant code)
      sec_summary
  ∧ answer_or_apologies s (LegacyPanel.sendMessage assistant message s)
      message (assistant_chat assistant message) chat_message.
Proof.
  intros Hidle Hmessage.
  unfold LegacyPanel.explainCode, LegacyPanel.refactorCode, LegacyPanel.fixBug,
    LegacyPanel.generateTests, LegacyPanel.reviewCode, LegacyPanel.optimizePerformance,
    LegacyPanel.analyzeSecurity, LegacyPanel.sendMessage.
  rewrite sendMessage_guard, Hidle by done.
  split; [|split; [|split; [|split; [|split; [|split; [|split]]]]]];
    apply legacy_operation_history.
Qed.

Lemma legacy_panel_records_exchange_witness :
  messageHistory
    (LegacyPanel.sendMessage
       (refactored_assistant (legacy_core full_registry quiet_answers)
                             AiContextManager.fresh)
       "hi" (mkPanel true false [] []))
  = [mkMessage User "hi"; mkMessage Assistant ""].
Proof.
  destruct (legacy_panel_records_exchange
              (refactored_assistant (legacy_core full_registry quiet_answers)
                                    AiContextManager.fresh)
              (mkPanel true false [] []) "" "" "hi" None None eq_refl)
    as (_ & _ & _ & _ & _ & _ & _ & H & _); [by vm_compute|].
  exact H.
Defined.

(** X27. A chat message that fails is reported twice. With the refactored
    assistant under it, a widget that is idle and is sent a message that is
    not blank fires, when the dispatch of the core service rejects, one
    error for the operation ["chat"] of the assistant and one for its own
    ["sendMessage"], with the same text; the refactored widget shows one
    apology after the message and still announces the message as sent, the
    first version shows two apologies and no message. When the dispatch
    fulfils, both fire the response and the sent message, in opposite
    orders. *)
Theorem failed_message_reported_twice (core : IAiCoreService)
    (context : AiContextManager.State) (message : string) (s : Panel) :
  isLoading s = false →
  JsText.trim message ≠ "" →
  let assistant := refactored_assistant core context in
  let refactored := AiPanelWidget.sendMessage assistant message s in
  let legacy := LegacyPanel.sendMessage assistant message s in
  ∃ aiContext,
    AiOperationExecutor.buildContext core context None = Js.Fulfilled aiContext
    ∧ match returned (core_getChatResponse core message aiContext) with
      | Js.Rejected error =>
          panel_fired refactored
          = panel_fired s ++ [PanelError (Js.message error) "chat";
                              PanelError (Js.message error) "sendMessage";
                              MessageSent message]
          ∧ messageHistory refactored
            = messageHistory s ++ [mkMessage User message; PanelParts.apology error]
          ∧ panel_fired legacy
            = panel_fired s ++ [PanelError (Js.message error) "chat";
                                PanelError (Js.message error) "sendMessage"]
          ∧ messageHistory legacy
            = messageHistory s ++ [PanelParts.apology error; PanelParts.apology error]
      | Js.Fulfilled response =>
          panel_fired refactored
          = panel_fired s ++ [ResponseReceived (PanelParts.chat_response response);
                              MessageSent message]
          ∧ messageHistory refactored = messageHistory s ++ [mkMessage User message]
          ∧ panel_fired legacy
            = panel_fired s ++ [MessageSent message;
                                ResponseReceived (PanelParts.chat_response response)]
          ∧ messageHistory legacy
            = messageHistory s ++ [mkMessage User message;
                                   mkMessage Assistant (chat_message response)]
      end.
Proof.
  intros Hidle Hmessage assistant refactored legacy.
  destruct (buildContext_fulfils core context None) as (aiContext & Hctx & _).
  exists aiContext. split; [done|].
  subst refactored legacy assistant.
  unfold AiPanelWidget.sendMessage, LegacyPanel.sendMessage.
  rewrite sendMessage_guard by done.
  cbn [assistant_chat refactored_assistant].
  unfold AssistantOperations.chat, AssistantOperations.ask. rewrite Hctx. cbv zeta.
  unfold LegacyPanel.attempt, AiPanelWidget.executeOperation.
  destruct (returned (core_getChatResponse core message aiContext)) as [response|error];
    cbn; rewrite <-?app_assoc; done.
Qed.

Lemma failed_message_reported_twice_witness :
  panel_fired
    (AiPanelWidget.sendMessage
       (refactored_assistant (refactored_core empty_registry quiet_answers)
                             AiContextManager.fresh)
       "hi" (mkPanel true false [] []))
  = [PanelError "No AI providers registered for chat" "chat";
     PanelError "No AI providers registered for chat" "sendMessage";
     MessageSent "hi"].
Proof.
  destruct (failed_message_reported_twice
              (refactored_core empty_registry quiet_answers) AiContextManager.fresh "hi"
              (mkPanel true false [] []) eq_refl)
    as (aiContext & Hctx & H); [by vm_compute|].
  vm_compute in Hctx. injection Hctx as <-.
  vm_compute in H. vm_compute. exact (proj1 H).
Defined.

(** ** Formatting a message for display *)

Section Format.

Import JsText MessageFormat.

Lemma occurs_app (c : ascii) (u v : string) :
  occurs c (u +:+ v) = occurs c u || occurs c v.
Proof.
  induction u as [|a u IH]; [done|].
  rewrite string_cons_app. simpl. by rewrite IH, orb_assoc.
Qed.

Lemma string_length_app (u v : string) :
  String.length (u +:+ v) = String.length u + String.length v.
Proof.
  induction u as [|a u IH]; [done|].
  rewrite string_cons_app. simpl. by rewrite IH.
Qed.

Lemma strip_prefix_spec (word s tail : string) :
  strip_prefix word s = Some tail ↔ s = word +:+ tail.
Proof.
  revert s. induction word as [|a word IH]; intros s.
  - rewrite string_nil_app. simpl. split; congruence.
  - rewrite string_cons_app. simpl. destruct s as [|b s]; [split; congruence|].
    destruct (Ascii.eqb_spec a b) as [->|Hab].
    + rewrite IH. split; congruence.
    + split; congruence.
Qed.

Lemma strip_prefix_other (c : ascii) (word : string) (a : ascii) (s : string) :
  c ≠ a → strip_prefix (String c word) (String a s) = None.
Proof.
  intros Hca. simpl. by destruct (Ascii.eqb_spec c a).
Qed.

Lemma occurs_head (c a : ascii) (s : string) :
  occurs c (String a s) = false → c ≠ a ∧ occurs c s = false.
Proof.
  simpl. rewrite orb_false_iff. intros [Hca Hs]. split; [|done].
  by destruct (Ascii.eqb_spec c a).
Qed.

(** The run that a lazy match takes, the delimiter and the tail make up
    the text; the run holds no first character of the delimiter when the
    delimiter is that one character. *)
Lemma lazy_until_split (delimiter s run tail : string) :
  lazy_until delimiter s = Some (run, tail) → s = run +:+ delimiter +:+ tail.
Proof.
  revert run. induction s as [|c s IH]; intros run; cbn [lazy_until].
  - destruct (strip_prefix delimiter "") as [t|] eqn:Hp; [|done].
    intros [= <- <-]. by apply strip_prefix_spec in Hp.
  - destruct (strip_prefix delimiter (String c s)) as [t|] eqn:Hp.
    + intros [= <- <-]. by apply strip_prefix_spec in Hp.
    + destruct (line_end (String c s)); [done|].
      destruct (lazy_until delimiter s) as [[run' tail']|]; [|done].
      intros [= <- <-]. rewrite string_cons_app. f_equal. by apply IH.
Qed.

Lemma lazy_until_run (c : ascii) (s run tail : string) :
  lazy_until (String c "") s = Some (run, tail) → occurs c run = false.
Proof.
  revert run. induction s as [|a s IH]; intros run.
  - simpl. done.
  - cbn [lazy_until]. destruct (Ascii.eqb_spec c a) as [->|Hca].
    + cbn [strip_prefix]. rewrite Ascii.eqb_refl. by intros [= <- <-].
    + rewrite strip_prefix_other by done.
      destruct (line_end (String a s)); [done|].
      destruct (lazy_until (String c "") s) as [[run' tail']|]; [|done].
      intros [= <- <-]. simpl. destruct (Ascii.eqb_spec c a); [done|].
      by apply IH.
Qed.

Lemma lazy_until_none_head (c a : ascii) (s : string) :
  lazy_until (String c "") (String a s) = None → c ≠ a.
Proof.
  intros Hnone ->. cbn [lazy_until strip_prefix] in Hnone.
  by rewrite Ascii.eqb_refl in Hnone.
Qed.

(** A text in which the first character of the delimiter does not occur is
    left as it is. *)
Lemma replace_delimited_absent (fuel : nat) (c : ascii) (word before after s : string) :
  occurs c s = false →
  replace_delimited_go fuel (String c word) before after s = s.
Proof.
  revert fuel. induction s as [|a s IH]; intros fuel Hs; [by destruct fuel|].
  destruct fuel as [|fuel]; [done|].
  apply occurs_head in Hs as [Hca Hs].
  cbn [replace_delimited_go]. rewrite strip_prefix_other by done. by rewrite IH.
Qed.

Lemma replace_delimited_without (c : ascii) (word before after s : string) :
  occurs c s = false → replace_delimited (String c word) before after s = s.
Proof. apply replace_delimited_absent. Qed.

Lemma replace_delimited_nil (fuel : nat) (delimiter before after : string) :
  replace_delimited_go fuel delimiter before after "" = "".
Proof. by destruct fuel. Qed.

Lemma no_backquote_apart (s : string) : occurs "`" s = false → apart s.
Proof.
  induction s as [|a s IH]; [done|].
  intros [Ha Hs]%occurs_head. split; [|by apply IH].
  destruct s; [done|]. intros [-> _]. done.
Qed.

Lemma apart_app (u v : string) : occurs "`" u = false → apart v → apart (u +:+ v).
Proof.
  intros Hu Hv. induction u as [|a u IH]; [done|].
  apply occurs_head in Hu as [Ha Hu]. rewrite string_cons_app.
  split; [|by apply IH].
  destruct (u +:+ v); [done|]. intros [-> _]. done.
Qed.

Lemma apart_cons (a : ascii) (s : string) : a ≠ "`"%char → apart s → apart (String a s).
Proof.
  intros Ha Hs. split; [|done]. destruct s; [done|]. by intros [-> _].
Qed.

(** What the replacement of code spans returns holds no two backquotes side
    by side. *)
Lemma code_spans_apart (fuel : nat) (s : string) :
  String.length s ≤ fuel →
  apart (replace_delimited_go fuel "`" "<code>" "</code>" s).
Proof.
  revert s. induction fuel as [|fuel IH]; intros s Hlen.
  { destruct s; [done|simpl in Hlen; lia]. }
  destruct s as [|a s]; [done|]. simpl in Hlen.
  cbn [replace_delimited_go].
  destruct (Ascii.eqb_spec "`" a) as [<-|Ha].
  - cbn [strip_prefix]. rewrite Ascii.eqb_refl.
    destruct (lazy_until "`" s) as [[run tail]|] eqn:Hlazy.
    + pose proof (lazy_until_run _ _ _ _ Hlazy) as Hrun.
      apply lazy_until_split in Hlazy. subst s.
      rewrite !string_length_app in Hlen. simpl in Hlen.
      rewrite <-!string_app_assoc. apply apart_app.
      * by rewrite !occurs_app, Hrun.
      * apply IH. lia.
    + destruct s as [|b s].
      * by rewrite replace_delimited_nil.
      * apply lazy_until_none_head in Hlazy.
        destruct fuel as [|fuel']; [simpl in Hlen; lia|].
        pose proof (IH (String b s) ltac:(lia)) as Hrest.
        cbn [replace_delimited_go] in Hrest |- *.
        rewrite strip_prefix_other in Hrest |- * by done.
        split; [|done]. intros [_ ->]. done.
  - rewrite strip_prefix_other by done. apply apart_cons; [done|].
    apply IH. lia.
Qed.

(** A text without two backquotes side by side has no fence. *)
Lemma replace_fences_apart (fuel : nat) (s : string) :
  apart s → replace_fences_go fuel s = s.
Proof.
  revert fuel. induction s as [|a s IH]; intros fuel Hs; [by destruct fuel|].
  destruct fuel as [|fuel]; [done|].
  destruct Hs as [Hpair Hs]. cbn [replace_fences_go].
  assert (Hnone : fence_here (String a s) = None).
  { unfold fence_here. cbn [strip_prefix].
    destruct (Ascii.eqb_spec "`" a) as [<-|]; [|done].
    destruct s as [|b s]; [done|].
    destruct (Ascii.eqb_spec "`" b) as [<-|]; [|done].
    by destruct Hpair. }
  by rewrite Hnone, IH.
Qed.

Lemma line_end_app (c d0 : ascii) (r d' : string) :
  (code d0 < 128)%N →
  line_end (String c r) = false →
  line_end (String c r +:+ String d0 d') = false.
Proof.
  intros Hd. rewrite string_cons_app. unfold line_end.
  destruct (code c =? 10)%N; [done|]. destruct (code c =? 13)%N; [done|]. cbn [orb].
  destruct r as [|c2 [|c3 r]].
  - rewrite string_nil_app. intros _. destruct d'; [done|].
    rewrite (proj2 (N.eqb_neq (code d0) 128)) by lia. by rewrite andb_false_r.
  - rewrite string_cons_app, string_nil_app. intros _.
    rewrite (proj2 (N.eqb_neq (code d0) 168)), (proj2 (N.eqb_neq (code d0) 169)) by lia.
    by rewrite andb_false_r.
  - by rewrite !string_cons_app.
Qed.

(** A run on one line without the first character of the delimiter, then
    the delimiter: the lazy match takes exactly that run. *)
Lemma lazy_until_found (d0 : ascii) (d' x tail : string) :
  (code d0 < 128)%N →
  occurs d0 x = false →
  on_one_line x = true →
  lazy_until (String d0 d') (x +:+ String d0 (d' +:+ tail)) = Some (x, tail).
Proof.
  intros Hd Hx Hline. induction x as [|c x IH].
  - rewrite string_nil_app.
    assert (Hp : strip_prefix (String d0 d') (String d0 (d' +:+ tail)) = Some tail)
      by by apply strip_prefix_spec.
    cbn [lazy_until]. by rewrite Hp.
  - apply occurs_head in Hx as [Hc Hx].
    cbn [on_one_line] in Hline. apply andb_true_iff in Hline as [Hend Hline].
    apply negb_true_iff in Hend.
    pose proof (line_end_app c d0 x (d' +:+ tail) Hd Hend) as Hend'.
    rewrite string_cons_app in Hend' |- *.
    cbn [lazy_until]. rewrite strip_prefix_other by done.
    rewrite Hend'. by rewrite IH.
Qed.

Lemma strong_keeps_single (fuel : nat) (x : string) :
  occurs "*" x = false →
  replace_delimited_go fuel "**" "<strong>" "</strong>" (x +:+ "*") = x +:+ "*".
Proof.
  revert fuel. induction x as [|c x IH]; intros fuel Hx.
  - rewrite string_nil_app. destruct fuel as [|fuel]; [done|].
    cbn. by rewrite replace_delimited_nil.
  - apply occurs_head in Hx as [Hc Hx]. rewrite string_cons_app.
    destruct fuel as [|fuel]; [done|].
    cbn [replace_delimited_go]. rewrite strip_prefix_other by done. by rewrite IH.
Qed.

(** Text marked on both sides by the delimiter is replaced as a whole. *)
Lemma replace_delimited_found (d0 : ascii) (d' before after text : string) :
  (code d0 < 128)%N →
  occurs d0 text = false →
  on_one_line text = true →
  replace_delimited (String d0 d') before after (String d0 d' +:+ text +:+ String d0 d')
  = before +:+ text +:+ after.
Proof.
  intros Hd Ht Hline. unfold replace_delimited.
  rewrite string_cons_app. cbn [String.length replace_delimited_go].
  rewrite <-string_cons_app.
  rewrite (proj2 (strip_prefix_spec (String d0 d') _ (text +:+ String d0 d')) eq_refl).
  rewrite <-(string_app_nil d') at 2.
  rewrite lazy_until_found by done.
  by rewrite replace_delimited_nil, string_app_nil.
Qed.

(** Text between single asterisks is no match for the double ones. *)
Lemma strong_keeps_emphasis (text : string) :
  occurs "*" text = false →
  replace_delimited "**" "<strong>" "</strong>" ("*" +:+ text +:+ "*")
  = "*" +:+ text +:+ "*".
Proof.
  intros Ht. unfold replace_delimited.
  rewrite string_cons_app, string_nil_app. cbn [String.length replace_delimited_go].
  destruct text as [|c text].
  - rewrite string_nil_app. cbn. done.
  - pose proof Ht as Hall. apply occurs_head in Ht as [Hc Ht]. rewrite string_cons_app.
    cbn [strip_prefix]. rewrite Ascii.eqb_refl.
    destruct (Ascii.eqb_spec "*" c) as [|_]; [done|].
    rewrite <-string_cons_app. f_equal.
    by apply strong_keeps_single.
Qed.

Lemma lazy_any_until_split (delimiter s run tail : string) :
  lazy_any_until delimiter s = Some (run, tail) → s = run +:+ delimiter +:+ tail.
Proof.
  revert run. induction s as [|c s IH]; intros run; cbn [lazy_any_until].
  - destruct (strip_prefix delimiter "") as [t|] eqn:Hp; [|done].
    intros [= <- <-]. by apply strip_prefix_spec in Hp.
  - destruct (strip_prefix delimiter (String c s)) as [t|] eqn:Hp.
    + intros [= <- <-]. by apply strip_prefix_spec in Hp.
    + destruct (lazy_any_until delimiter s) as [[run' tail']|]; [|done].
      intros [= <- <-]. rewrite string_cons_app. f_equal. by apply IH.
Qed.

Lemma skip_word_length (s : string) : String.length (skip_word s) ≤ String.length s.
Proof.
  induction s as [|c s IH]; [done|]. simpl. destruct (is_word c); simpl; lia.
Qed.

(** The scans never run out of fuel: fuel beyond the length of the text
    changes nothing. *)
Lemma replace_delimited_fuel (d0 : ascii) (d' before after : string) (fuel : nat) (s : string) :
  String.length s ≤ fuel →
  replace_delimited_go fuel (String d0 d') before after s
  = replace_delimited (String d0 d') before after s.
Proof.
  unfold replace_delimited.
  assert (Hany : ∀ fuel1 fuel2 s, String.length s ≤ fuel1 → String.length s ≤ fuel2 →
             replace_delimited_go fuel1 (String d0 d') before after s
             = replace_delimited_go fuel2 (String d0 d') before after s).
  { clear fuel s. induction fuel1 as [|fuel1 IH]; intros fuel2 s H1 H2.
    { destruct s; [by rewrite !replace_delimited_nil|simpl in H1; lia]. }
    destruct fuel2 as [|fuel2].
    { destruct s; [done|simpl in H2; lia]. }
    destruct s as [|c s]; [done|]. simpl in H1, H2.
    cbn [replace_delimited_go].
    destruct (strip_prefix (String d0 d') (String c s)) as [inner|] eqn:Hp.
    - apply strip_prefix_spec in Hp. rewrite string_cons_app in Hp.
      injection Hp as _ Hs. subst s. rewrite string_length_app in H1, H2.
      destruct (lazy_until (String d0 d') inner) as [[run tail]|] eqn:Hlazy.
      + apply lazy_until_split in Hlazy. subst inner.
        rewrite !string_length_app in H1, H2.
        do 3 f_equal. apply IH; lia.
      + f_equal. apply IH; rewrite string_length_app; lia.
    - f_equal. apply IH; lia. }
  intros Hlen. by apply Hany.
Qed.

Lemma replace_fences_fuel (fuel : nat) (s : string) :
  String.length s ≤ fuel → replace_fences_go fuel s = replace_fences s.
Proof.
  unfold replace_fences.
  assert (Hany : ∀ fuel1 fuel2 s, String.length s ≤ fuel1 → String.length s ≤ fuel2 →
             replace_fences_go fuel1 s = replace_fences_go fuel2 s).
  { clear fuel s. induction fuel1 as [|fuel1 IH]; intros fuel2 s H1 H2.
    { destruct s; [by destruct fuel2|simpl in H1; lia]. }
    destruct fuel2 as [|fuel2].
    { destruct s; [done|simpl in H2; lia]. }
    destruct s as [|c s]; [done|]. simpl in H1, H2.
    cbn [replace_fences_go].
    destruct (fence_here (String c s)) as [[block tail]|] eqn:Hfence.
    - do 3 f_equal. unfold fence_here in Hfence.
      destruct (strip_prefix "```" (String c s)) as [opened|] eqn:Hp; [|done].
      apply strip_prefix_spec in Hp. rewrite string_cons_app in Hp.
      injection Hp as _ Hs. subst s. rewrite string_length_app in H1, H2.
      pose proof (skip_word_length opened) as Hskip.
      destruct (skip_word opened) as [|c' body]; [done|].
      destruct (code c' =? 10)%N; [|done].
      apply lazy_any_until_split in Hfence. subst body.
      simpl in Hskip. rewrite !string_length_app in Hskip.
      apply IH; lia.
    - f_equal. apply IH; lia. }
  intros Hlen. by apply Hany.
Qed.

End Format.

(** X28. The replacement of fenced code blocks, the last of the four in
    [formatMessageContent], never applies: the replacement of code spans
    before it leaves no two backquotes side by side, so the formatted text
    is what the three inline replacements give, whatever the message. *)
Theorem fenced_blocks_never_render (content : string) :
  MessageFormat.formatMessageContent content
  = MessageFormat.code_spans (MessageFormat.emphasis (MessageFormat.strong content))
  ∧ apart (MessageFormat.formatMessageContent content).
Proof.
  unfold MessageFormat.formatMessageContent, MessageFormat.replace_fences.
  assert (Hspans : apart (MessageFormat.code_spans
                            (MessageFormat.emphasis (MessageFormat.strong content))))
    by by apply code_spans_apart.
  by rewrite replace_fences_apart.
Qed.

(** X29. A message without asterisk and without backquote is returned as it
    is: nothing else is replaced or escaped, so markup in the message
    reaches the element unchanged. *)
Theorem plain_message_unchanged (content : string) :
  occurs "*" content = false →
  occurs "`" content = false →
  MessageFormat.formatMessageContent content = content.
Proof.
  intros Hstar Hquote.
  unfold MessageFormat.formatMessageContent, MessageFormat.replace_fences,
    MessageFormat.code_spans, MessageFormat.emphasis, MessageFormat.strong.
  rewrite (replace_delimited_without "*" "*") by done.
  rewrite (replace_delimited_without "*" "") by done.
  rewrite (replace_delimited_without "`" "") by done.
  apply replace_fences_apart. by apply no_backquote_apart.
Qed.

Lemma plain_message_unchanged_witness :
  MessageFormat.formatMessageContent "<b>done</b>" = "<b>done</b>".
Proof.
  apply plain_message_unchanged; reflexivity.
Defined.

(** X30. Marked text on one line, holding neither asterisk nor backquote,
    comes back wrapped in its element with the text untouched: two
    asterisks on each side give [strong], one gives [em], one backquote
    gives [code]. *)
Theorem marked_text_wrapped (text : string) :
  occurs "*" text = false →
  occurs "`" text = false →
  on_one_line text = true →
  MessageFormat.formatMessageContent ("**" +:+ text +:+ "**")
  = "<strong>" +:+ text +:+ "</strong>"
  ∧ MessageFormat.formatMessageContent ("*" +:+ text +:+ "*")
    = "<em>" +:+ text +:+ "</em>"
  ∧ MessageFormat.formatMessageContent ("`" +:+ text +:+ "`")
    = "<code>" +:+ text +:+ "</code>".
Proof.
  intros Hstar Hquote Hline.
  assert (Hwrapped : ∀ (c : ascii) (before after : string),
             occurs c before = false → occurs c after = false → occurs c text = false →
             occurs c (before +:+ text +:+ after) = false).
  { intros c before after Hb Ha Ht. by rewrite !occurs_app, Hb, Ha, Ht. }
  unfold MessageFormat.formatMessageContent, MessageFormat.replace_fences,
    MessageFormat.code_spans, MessageFormat.emphasis, MessageFormat.strong.
  split; [|split].
  - rewrite (replace_delimited_found "*" "*") by (done || by vm_compute).
    rewrite (replace_delimited_without "*" "") by by apply Hwrapped.
    rewrite (replace_delimited_without "`" "") by by apply Hwrapped.
    apply replace_fences_apart, no_backquote_apart. by apply Hwrapped.
  - rewrite strong_keeps_emphasis by done.
    rewrite (replace_delimited_found "*" "") by (done || by vm_compute).
    rewrite (replace_delimited_without "`" "") by by apply Hwrapped.
    apply replace_fences_apart, no_backquote_apart. by apply Hwrapped.
  - rewrite (replace_delimited_without "*" "*") by by apply Hwrapped.
    rewrite (replace_delimited_without "*" "") by by apply Hwrapped.
    rewrite (replace_delimited_found "`" "") by (done || by vm_compute).
    apply replace_fences_apart, no_backquote_apart. by apply Hwrapped.
Qed.

Lemma marked_text_wrapped_witness :
  MessageFormat.formatMessageContent "**done**" = "<strong>done</strong>".
Proof.
  destruct (marked_text_wrapped "done" eq_refl eq_refl eq_refl) as [H _]. exact H.
Defined.
